(** * ufmt: a shallow embedding of [include/ufmt/ufmt.h]

    The development follows the header top-down:

    - [StdString]: the few [std::string] members the header uses
      ([find], [substr], [replace], the fill constructor) on [list ascii];
    - [CLib]: [atoi], [std::stoi], [std::stoll], [std::to_string] on
      integers, and the interface of the C library calls that are not
      modelled ([snprintf] conversions, [std::stod]);
    - [detail]: [apply_string_formatting], [format_integer_value],
      [format_double_value], [format_value], [apply_format];
    - [Engine]: [format_context_base::format_impl], the two passes;
    - [Loops]: the common shape of the loops of [format_impl], and the
      templates whose placeholders are complete and not nested;
    - [Contexts]: [local_context], [shared_context], [context_manager]
      as transitions of one process state, every call carrying the
      identifier of the calling thread;
    - [StringFormattingLaws], [RenderingLaws], [SharedContextLaws],
      [EngineLaws]: the properties of the rendering functions, of the
      shared state and of the loops;
    - [TemplateLaws], [FormatSpecLaws], [ContextLaws]: what [format]
      returns for templates of a given form, how format specs are read,
      and what the context classes show of what was set. *)

From Stdlib Require Import ZArith Ascii Lia DecimalString DecimalNat DecimalZ.
From Stdlib Require String.
From stdpp Require Import gmap strings list.

Local Open Scope Z_scope.

(** A [std::string] is the list of its characters; string literals are
    read as such lists. *)
Coercion String.list_ascii_of_string : string >-> list.

(** ** std::string *)
Module StdString.

(** [value.empty()] *)
Definition empty (s : list ascii) : bool :=
  match s with [] => true | _ => false end.

Fixpoint starts_with (pat s : list ascii) : bool :=
  match pat, s with
  | [], _ => true
  | p :: pat', c :: s' => if decide (p = c) then starts_with pat' s' else false
  | _ :: _, [] => false
  end.

(** First occurrence of [pat] in [s], counted from the front of [s]. *)
Fixpoint find_first (pat s : list ascii) : option nat :=
  if starts_with pat s then Some 0%nat
  else match s with
       | [] => None
       | _ :: s' => S <$> find_first pat s'
       end.

(** [s.find(pat, pos)]: the first index [>= pos] at which [pat] occurs,
    [None] for [npos]. *)
Definition find (pat : list ascii) (pos : nat) (s : list ascii) : option nat :=
  if (length s <? pos)%nat then None
  else (fun k => (pos + k)%nat) <$> find_first pat (drop pos s).

(** [s.substr(pos, n)] and [s.substr(pos)]; every call site of the
    header has [pos <= s.size()], so the [out_of_range] exit is never
    taken. *)
Definition substr (s : list ascii) (pos n : nat) : list ascii :=
  take n (drop pos s).
Definition substr_from (s : list ascii) (pos : nat) : list ascii :=
  drop pos s.

(** [s.replace(pos, len, t)] *)
Definition replace (s : list ascii) (pos len : nat) (t : list ascii) : list ascii :=
  take pos s ++ t ++ drop (pos + len) s.

(** [std::string(n, c)] *)
Definition fill (n : nat) (c : ascii) : list ascii := replicate n c.

(** [s.back()] on a non-empty string. *)
Definition back (s : list ascii) : option ascii := last s.

End StdString.
Import StdString.

(** ** Machine integers *)
Module MachineInt.

Definition INT_MAX : Z := 2147483647.
Definition INT_MIN : Z := -2147483648.
Definition LLONG_MAX : Z := 9223372036854775807.
Definition LLONG_MIN : Z := -9223372036854775808.

(** [static_cast<int>(z)]: reduction modulo 2^32 into the signed range. *)
Definition to_int (z : Z) : Z := (z + 2 ^ 31) mod 2 ^ 32 - 2 ^ 31.

(** [static_cast<unsigned long long>(z)] *)
Definition to_ull (z : Z) : Z := z mod 2 ^ 64.

Definition in_int (z : Z) : bool := (INT_MIN <=? z) && (z <=? INT_MAX).
Definition in_llong (z : Z) : bool := (LLONG_MIN <=? z) && (z <=? LLONG_MAX).

(** [static_cast<int>(s.length())] *)
Definition ilength (s : list ascii) : Z := to_int (Z.of_nat (length s)).

(** [static_cast<size_t>(n)] for the fill constructor; the header only
    converts values it has just tested to be positive. *)
Definition to_size (n : Z) : nat := Z.to_nat n.

End MachineInt.
Import MachineInt.

(** ** C library: number parsing and printing *)
Module CLib.

Definition isdigit (c : ascii) : bool :=
  match Ascii.is_nat c with Some _ => true | None => false end.

Definition isspace (c : ascii) : bool := Ascii.is_space c.

Definition digit_value (c : ascii) : option Z :=
  Z.of_nat <$> Ascii.is_nat c.

Fixpoint skip_spaces (s : list ascii) : list ascii :=
  match s with
  | c :: s' => if isspace c then skip_spaces s' else s
  | [] => []
  end.

(** Value of the longest prefix of decimal digits, most significant
    first. *)
Fixpoint digits_value (acc : Z) (s : list ascii) : Z :=
  match s with
  | c :: s' =>
      match digit_value c with
      | Some d => digits_value (acc * 10 + d) s'
      | None => acc
      end
  | [] => acc
  end.

(** The subject sequence of [strtol(s, 0, 10)]: optional white space,
    optional sign, decimal digits. [None] when no digit follows, which
    is "no conversion". The value is not yet range-checked. *)
Definition parse_decimal (s : list ascii) : option Z :=
  let s1 := skip_spaces s in
  let '(negative, s2) :=
    match s1 with
    | c :: r =>
        if decide (c = "-"%char) then (true, r)
        else if decide (c = "+"%char) then (false, r)
        else (false, s1)
    | [] => (false, s1)
    end in
  match s2 with
  | c :: _ =>
      if isdigit c
      then Some (if negative then - digits_value 0 s2 else digits_value 0 s2)
      else None
  | [] => None
  end.

(** [strtol] saturates at the bounds of [long] (64 bits). *)
Definition strtol (s : list ascii) : Z :=
  match parse_decimal s with
  | Some v => Z.max LLONG_MIN (Z.min LLONG_MAX v)
  | None => 0
  end.

(** [atoi(s)] is [(int) strtol(s, 0, 10)]; no digits gives 0. *)
Definition atoi (s : list ascii) : Z := to_int (strtol s).

(** [std::stoi(s)]: throws [invalid_argument] when there is no
    conversion and [out_of_range] when the value is not an [int];
    both are [None]. *)
Definition stoi (s : list ascii) : option Z :=
  match parse_decimal s with
  | Some v => if in_int v then Some v else None
  | None => None
  end.

(** [std::stoll(s)], likewise for [long long]. *)
Definition stoll (s : list ascii) : option Z :=
  match parse_decimal s with
  | Some v => if in_llong v then Some v else None
  | None => None
  end.

(** [std::to_string] on [size_t] and on [long long]. *)
Definition to_string_nat (n : nat) : list ascii :=
  String.list_ascii_of_string (NilZero.string_of_uint (Nat.to_uint n)).
Definition to_string_ll (z : Z) : list ascii :=
  String.list_ascii_of_string (NilZero.string_of_int (Z.to_int z)).

(** What the header needs from the C library and does not define
    itself: the [double] type with [std::stod] and
    [std::to_string(double)], and the text a [printf] conversion
    produces for a format string and one [double] or one [long long]
    argument (unbounded, as [sprintf] would write it). The two
    conversions stand for the text of a call whose behaviour the
    library defines, see [conversion_spec] below; for any other format
    string the call has undefined behaviour, it need not return, and
    the text given here stands for nothing. *)
Class Libc := {
  double : Type;
  stod : list ascii -> option double;
  to_string_double : double -> list ascii;
  sprintf_double : list ascii -> double -> list ascii;
  sprintf_ll : list ascii -> Z -> list ascii
}.

(** [snprintf(buffer, size, fmt, v)] followed by [std::string(buffer)]:
    at most [size - 1] characters of the conversion are stored before
    the terminating NUL. *)
Definition snprintf_double `{Libc} (size : nat) (fmt : list ascii) (v : double)
  : list ascii := take (size - 1) (sprintf_double fmt v).
Definition snprintf_ll `{Libc} (size : nat) (fmt : list ascii) (v : Z)
  : list ascii := take (size - 1) (sprintf_ll fmt v).

(** *** Conversion specifications

    The header calls [snprintf(buffer, 256, ("%" + formatSpec).c_str(),
    value)] with one argument. The behaviour of such a call is defined
    when the text after the percent sign is one conversion
    specification for that argument: flags, a decimal field width, an
    optional precision, and a conversion character of the argument's
    kind (C11 7.21.6.1; the header passes a [long long] to the integer
    conversions without a length modifier, which the platforms it is
    built for accept). For any other text, such as [10s], [n], text
    that asks for a second argument, or no conversion character at all,
    the behaviour is undefined. *)
Definition is_flag (c : ascii) : bool :=
  bool_decide (c = "-"%char) || bool_decide (c = "+"%char)
  || bool_decide (c = " "%char) || bool_decide (c = "#"%char)
  || bool_decide (c = "0"%char).

Fixpoint skip_while (p : ascii -> bool) (s : list ascii) : list ascii :=
  match s with
  | c :: s' => if p c then skip_while p s' else s
  | [] => []
  end.

Definition conversion_spec (conversion : ascii -> bool) (formatSpec : list ascii)
  : bool :=
  let afterWidth := skip_while isdigit (skip_while is_flag formatSpec) in
  let afterPrecision :=
    match afterWidth with
    | c :: rest => if bool_decide (c = "."%char) then skip_while isdigit rest
                   else afterWidth
    | [] => []
    end in
  match afterPrecision with
  | [c] => conversion c
  | _ => false
  end.

Definition is_integer_conversion (c : ascii) : bool :=
  bool_decide (c = "d"%char) || bool_decide (c = "i"%char)
  || bool_decide (c = "o"%char) || bool_decide (c = "u"%char)
  || bool_decide (c = "x"%char) || bool_decide (c = "X"%char).

Definition is_double_conversion (c : ascii) : bool :=
  bool_decide (c = "f"%char) || bool_decide (c = "F"%char)
  || bool_decide (c = "e"%char) || bool_decide (c = "E"%char)
  || bool_decide (c = "g"%char) || bool_decide (c = "G"%char)
  || bool_decide (c = "a"%char) || bool_decide (c = "A"%char).

End CLib.
Import CLib.

(** ** namespace detail: value rendering *)
Module detail.

(** *** apply_string_formatting *)

(** The locals [leftJustified], [centerJustified], [width], [maxLen]
    after the parsing part of [apply_string_formatting]. *)
Record string_spec := {
  leftJustified : bool;
  centerJustified : bool;
  width : Z;
  maxLen : Z
}.

(** "Parse alignment" and "Parse width and precision". *)
Definition parse_string_spec (spec : list ascii) : string_spec :=
  let '(lj, cj, pos) :=
    match spec with
    | c :: _ =>
        if decide (c = "-"%char) then (true, false, 1%nat)
        else if decide (c = "^"%char) then (false, true, 1%nat)
        else (false, false, 0%nat)
    | [] => (false, false, 0%nat)
    end in
  match find "." pos spec with
  | Some dotPos =>
      {| leftJustified := lj; centerJustified := cj;
         width := if (pos <? dotPos)%nat
                  then atoi (substr spec pos (dotPos - pos)) else 0;
         maxLen := atoi (substr_from spec (dotPos + 1)) |}
  | None =>
      {| leftJustified := lj; centerJustified := cj;
         width := if (pos <? length spec)%nat
                  then atoi (substr_from spec pos) else 0;
         maxLen := -1 |}
  end.

(** "Apply truncation with ellipsis if needed": [processedValue]. *)
Definition truncate_value (value : list ascii) (maxLen : Z) : list ascii :=
  if (0 <? maxLen) && (maxLen <? ilength value) then
    if maxLen <=? 3 then substr value 0 (to_size maxLen)
    else substr value 0 (to_size (maxLen - 3)) ++ "..."
  else value.

(** "Apply width and justification". *)
Definition justify (ps : string_spec) (processedValue : list ascii) : list ascii :=
  if (width ps <=? 0) || (width ps <=? ilength processedValue) then processedValue
  else
    let padding := width ps - ilength processedValue in
    if leftJustified ps then
      processedValue ++ fill (to_size padding) " "
    else if centerJustified ps then
      let leftPad := padding `quot` 2 in
      let rightPad := padding - leftPad in
      fill (to_size leftPad) " " ++ processedValue ++ fill (to_size rightPad) " "
    else
      fill (to_size padding) " " ++ processedValue.

Definition apply_string_formatting (value formatSpec : list ascii) : list ascii :=
  if empty formatSpec then value
  else
    let ps := parse_string_spec formatSpec in
    justify ps (truncate_value value (maxLen ps)).

(** *** format_double_value, format_integer_value *)

Definition format_double_value `{Libc} (value : double) (formatSpec : list ascii)
  : list ascii :=
  if empty formatSpec then to_string_double value
  else snprintf_double 256 ("%" ++ formatSpec) value.

(** The loop [while (uval > 0) { binary = (uval & 1 ? '1' : '0') + binary;
    uval >>= 1; }]. An [unsigned long long] is exhausted after 64
    shifts, which bounds the iteration count. *)
Fixpoint to_binary (fuel : nat) (uval : Z) (binary : list ascii) : list ascii :=
  match fuel with
  | O => binary
  | S fuel' =>
      if 0 <? uval then
        to_binary fuel' (Z.shiftr uval 1)
          ((if Z.land uval 1 =? 0 then "0"%char else "1"%char) :: binary)
      else binary
  end.

Definition is_binary_type (c : ascii) : bool :=
  bool_decide (c = "b"%char) || bool_decide (c = "B"%char).

Definition format_integer_value `{Libc} (value : Z) (formatSpec : list ascii)
  : list ascii :=
  if empty formatSpec then to_string_ll value
  else if from_option is_binary_type false (back formatSpec) then
    if value =? 0 then "0b0"
    else
      let binary := to_binary 64 (to_ull value) [] in
      let widthSpec := substr formatSpec 0 (length formatSpec - 1) in
      if negb (empty widthSpec) then
        match stoi widthSpec with
        | Some width =>
            if to_int (Z.of_nat (length binary + 2)) <? width then
              let padding := width - ilength binary - 2 in
              if bool_decide (head widthSpec = Some "0"%char) then
                "0b" ++ (fill (to_size padding) "0" ++ binary)
              else
                fill (to_size padding) " " ++ "0b" ++ binary
            else "0b" ++ binary
        | None => "0b" ++ binary
        end
      else "0b" ++ binary
  else snprintf_ll 256 ("%" ++ formatSpec) value.

(** *** Typed values: to_string_impl and format_value *)

Inductive int_kind :=
  KInt | KLong | KLongLong | KUInt | KULong | KULongLong.

(** An argument of [format] or [set_var] with its static type: the
    specialisations the header declares, and any other type [T], which
    is rendered by streaming ([safe_to_string]). *)
Inductive value `{Libc} :=
| VFloat (d : double)
| VDouble (d : double)
| VInteger (k : int_kind) (z : Z)
| VChar (c : ascii)
| VBool (b : bool)
| VString (s : list ascii)
| VCString (s : list ascii)
| VOther (type : nat) (streamed : list ascii).

(** [static_cast<long long>(z)] *)
Definition to_ll (z : Z) : Z := (z + 2 ^ 63) mod 2 ^ 64 - 2 ^ 63.

(** [static_cast<long long>(c)] for a (signed) [char]. *)
Definition char_to_ll (c : ascii) : Z :=
  let n := Z.of_N (N_of_ascii c) in if n <? 128 then n else n - 256.

Definition to_string_impl `{Libc} (v : value) : list ascii :=
  match v with
  | VFloat d | VDouble d => to_string_double d
  | VInteger _ z => to_string_ll z
  | VChar c => [c]
  | VBool b => if b then "true" else "false"
  | VString s | VCString s => s
  | VOther _ streamed => streamed
  end.

Definition format_value `{Libc} (v : value) (formatSpec : list ascii) : list ascii :=
  match v with
  | VFloat d | VDouble d => format_double_value d formatSpec
  | VInteger _ z => format_integer_value (to_ll z) formatSpec
  | VChar c =>
      if negb (empty formatSpec) &&
         from_option (fun t => bool_decide (t = "d"%char) || bool_decide (t = "x"%char)
                               || bool_decide (t = "o"%char)) false (back formatSpec)
      then format_integer_value (char_to_ll c) formatSpec
      else apply_string_formatting [c] formatSpec
  | VBool b => apply_string_formatting (if b then "true" else "false") formatSpec
  | VString s | VCString s => apply_string_formatting s formatSpec
  | VOther _ _ => apply_string_formatting (to_string_impl v) formatSpec
  end.

(** The specs with which [format_value] calls [snprintf], and for which
    the call is defined: the argument is of one of the types rendered
    through [format_double_value] or [format_integer_value], a [char]
    only with the three type characters its specialisation looks for,
    and the spec is a conversion specification of the argument's kind. *)
Definition is_char_conversion (c : ascii) : bool :=
  bool_decide (c = "d"%char) || bool_decide (c = "x"%char)
  || bool_decide (c = "o"%char).

Definition conversion_for `{Libc} (v : value) (formatSpec : list ascii) : bool :=
  match v with
  | VFloat _ | VDouble _ => conversion_spec is_double_conversion formatSpec
  | VInteger _ _ => conversion_spec is_integer_conversion formatSpec
  | VChar _ => conversion_spec is_char_conversion formatSpec
  | _ => false
  end.

(** *** apply_format *)

Definition NUL : ascii := "000"%char.

(** The loop [for (size_t i = spec.length(); i > pos; --i)] looking
    for the last character that is neither a digit nor a dot; the
    result is that character with its index [i-1]. *)
Fixpoint find_type_spec (spec : list ascii) (pos i : nat) : option (ascii * nat) :=
  match i with
  | O => None
  | S i' =>
      if (pos <? i)%nat then
        match spec !! i' with
        | Some c =>
            if negb (isdigit c) && negb (bool_decide (c = "."%char))
            then Some (c, i')
            else find_type_spec spec pos i'
        | None => find_type_spec spec pos i'
        end
      else None
  end.

Definition is_float_type (c : ascii) : bool :=
  bool_decide (c = "f"%char) || bool_decide (c = "F"%char)
  || bool_decide (c = "g"%char) || bool_decide (c = "G"%char)
  || bool_decide (c = "e"%char) || bool_decide (c = "E"%char).

Definition is_integer_type (c : ascii) : bool :=
  bool_decide (c = "d"%char) || bool_decide (c = "i"%char)
  || bool_decide (c = "x"%char) || bool_decide (c = "X"%char)
  || bool_decide (c = "o"%char) || bool_decide (c = "u"%char)
  || bool_decide (c = "b"%char) || bool_decide (c = "B"%char).

(** The locals [alignment], [typeSpec], [numericPart] of [apply_format]. *)
Definition split_format_spec (spec : list ascii) : list ascii * ascii * list ascii :=
  let '(alignment, pos) :=
    match spec with
    | c :: _ =>
        if bool_decide (c = "-"%char) || bool_decide (c = "^"%char)
        then ([c], 1%nat) else ([], 0%nat)
    | [] => ([], 0%nat)
    end in
  let '(typeSpec, numericPart) :=
    match find_type_spec spec pos (length spec) with
    | Some (c, i') => (c, substr spec pos (i' - pos))
    | None => (NUL, [])
    end in
  let numericPart :=
    if bool_decide (typeSpec = NUL) then substr_from spec pos else numericPart in
  (alignment, typeSpec, numericPart).

(** "Extract width and precision parts for separate handling". *)
Definition split_numeric_part (numericPart : list ascii) : list ascii * list ascii :=
  match find "." 0 numericPart with
  | Some dotPos => (substr numericPart 0 dotPos, substr_from numericPart dotPos)
  | None => (numericPart, [])
  end.

Definition apply_format `{Libc} (value formatSpec : list ascii) : list ascii :=
  if empty formatSpec then value
  else
    let '(alignment, typeSpec, numericPart) := split_format_spec formatSpec in
    if is_float_type typeSpec then
      match stod value with
      | Some numValue =>
          if negb (empty alignment) then
            let '(widthPart, precisionPart) := split_numeric_part numericPart in
            let numericFormat := precisionPart ++ [typeSpec] in
            let formattedNum := format_double_value numValue numericFormat in
            apply_string_formatting formattedNum (alignment ++ widthPart)
          else
            format_double_value numValue (numericPart ++ [typeSpec])
      | None => apply_string_formatting value formatSpec
      end
    else if is_integer_type typeSpec then
      match stoll value with
      | Some numValue =>
          if negb (empty alignment) then
            let '(widthPart, precisionPart) := split_numeric_part numericPart in
            let numericFormat := precisionPart ++ [typeSpec] in
            let formattedNum := format_integer_value numValue numericFormat in
            apply_string_formatting formattedNum (alignment ++ widthPart)
          else
            format_integer_value numValue (numericPart ++ [typeSpec])
      | None => apply_string_formatting value formatSpec
      end
    else apply_string_formatting value formatSpec.

End detail.

(** ** format_context_base: the substitution engine *)
Module Engine.
Import detail.

(** [std::type_index(typeid(T))] *)
Abbreviation type_index := nat (only parsing).

Definition type_of `{Libc} (v : value) : type_index :=
  match v with
  | VFloat _ => 0 | VDouble _ => 1
  | VInteger KInt _ => 2 | VInteger KLong _ => 3 | VInteger KLongLong _ => 4
  | VInteger KUInt _ => 5 | VInteger KULong _ => 6 | VInteger KULongLong _ => 7
  | VChar _ => 8 | VBool _ => 9 | VString _ => 10 | VCString _ => 11
  | VOther t _ => 12 + t
  end%nat.

(** The virtual members of [format_context_base], as the calling
    thread sees them during one call of [format]. *)
Record format_context_base `{Libc} := {
  has_var : list ascii -> bool;
  get_var : list ascii -> list ascii;
  has_formatter_impl : type_index -> bool;
  format_value_custom : type_index -> value -> list ascii -> list ascii;
  find_var : list ascii -> bool * list ascii
}.

(** The default body of [find_var] in the base class. *)
Definition default_find_var (has : list ascii -> bool) (get : list ascii -> list ascii)
    (name : list ascii) : bool * list ascii :=
  if has name then (true, get name) else (false, []).

Section WithContext.
Context `{Libc} (ctx : format_context_base).

(** [format_context_base::to_string] *)
Definition to_string (v : value) : list ascii :=
  if has_formatter_impl ctx (type_of v)
  then format_value_custom ctx (type_of v) v []
  else to_string_impl v.

(** One element of [formattedArgs]: the default rendering and the
    formatter closure. *)
Definition add_arg (arg : value) : list ascii * (list ascii -> list ascii) :=
  let stringValue :=
    if has_formatter_impl ctx (type_of arg)
    then format_value_custom ctx (type_of arg) arg []
    else to_string arg in
  let formatter := fun formatSpec =>
    if has_formatter_impl ctx (type_of arg)
    then format_value_custom ctx (type_of arg) arg formatSpec
    else format_value arg formatSpec in
  (stringValue, formatter).

Definition add_args_to_vector (args : list value)
  : list (list ascii * (list ascii -> list ascii)) := map add_arg args.

(** First inner loop of pass 1: placeholders [{i:spec}]. [None] means
    the iteration budget ran out, which [format_impl_total] excludes. *)
Fixpoint replace_formatted (fuel : nat) (formatter : list ascii -> list ascii)
    (formatPattern result : list ascii) (pos : nat) : option (list ascii) :=
  match fuel with
  | O => None
  | S fuel' =>
      match find formatPattern pos result with
      | None => Some result
      | Some pos =>
          match find "}" pos result with
          | Some endPos =>
              let formatSpec :=
                substr result (pos + length formatPattern)
                       (endPos - pos - length formatPattern) in
              let placeholder := substr result pos (endPos - pos + 1) in
              let formattedValue := formatter formatSpec in
              replace_formatted fuel' formatter formatPattern
                (replace result pos (length placeholder) formattedValue)
                (pos + length formattedValue)
          | None => Some result
          end
      end
  end.

(** Second inner loop of pass 1: placeholders [{i}]. *)
Fixpoint replace_simple (fuel : nat) (stringValue simplePlaceholder result : list ascii)
    (pos : nat) : option (list ascii) :=
  match fuel with
  | O => None
  | S fuel' =>
      match find simplePlaceholder pos result with
      | None => Some result
      | Some pos =>
          replace_simple fuel' stringValue simplePlaceholder
            (replace result pos (length simplePlaceholder) stringValue)
            (pos + length stringValue)
      end
  end.

(** Pass 1: the loop over [i], starting at index [i] with the
    arguments still to be processed. *)
Fixpoint positional_pass (i : nat)
    (formattedArgs : list (list ascii * (list ascii -> list ascii)))
    (result : list ascii) : option (list ascii) :=
  match formattedArgs with
  | [] => Some result
  | arg :: rest =>
      r1 ← replace_formatted (S (length result)) arg.2
             ("{" ++ to_string_nat i ++ ":") result 0;
      r2 ← replace_simple (S (length r1)) arg.1
             ("{" ++ to_string_nat i ++ "}") r1 0;
      positional_pass (S i) rest r2
  end.

(** Pass 2: named variables. *)
Fixpoint named_pass (fuel : nat) (result : list ascii) (pos : nat)
  : option (list ascii) :=
  match fuel with
  | O => None
  | S fuel' =>
      match find "{" pos result with
      | None => Some result
      | Some pos =>
          match find "}" pos result with
          | None => Some result
          | Some endPos =>
              let placeholder := substr result (pos + 1) (endPos - pos - 1) in
              if empty placeholder || from_option isdigit false (head placeholder)
              then named_pass fuel' result (endPos + 1)
              else
                let '(varName, formatSpec) :=
                  match find ":" 0 placeholder with
                  | Some colonPos =>
                      (substr placeholder 0 colonPos,
                       substr_from placeholder (colonPos + 1))
                  | None => (placeholder, [])
                  end in
                let found := find_var ctx varName in
                if found.1 then
                  let value :=
                    if negb (empty formatSpec)
                    then apply_format found.2 formatSpec else found.2 in
                  named_pass fuel'
                    (replace result pos (endPos - pos + 1) value)
                    (pos + length value)
                else named_pass fuel' result (endPos + 1)
          end
      end
  end.

Definition format_impl (template_str : list ascii) (args : list value)
  : option (list ascii) :=
  result ← positional_pass 0 (add_args_to_vector args) template_str;
  named_pass (S (length result)) result 0.

End WithContext.

End Engine.

(** ** The three loops of [format_impl] in one shape

    Each loop looks for a pattern from [pos] on, then for the next
    closing brace, and either replaces the span between the two
    (continuing after the inserted text) or leaves it (continuing after
    the closing brace). [scan] is that loop with the pattern and the
    decision as parameters; [EngineLaws] proves that the three loops of
    [Engine] are instances of it and reasons about them through it. *)
Module Loops.
Import detail Engine.

Fixpoint scan (fuel : nat) (pat : list ascii) (act : list ascii -> option (list ascii))
    (result : list ascii) (pos : nat) : option (list ascii) :=
  match fuel with
  | O => None
  | S fuel' =>
      match find pat pos result with
      | None => Some result
      | Some pos =>
          match find "}" pos result with
          | None => Some result
          | Some endPos =>
              let span := substr result pos (endPos - pos + 1) in
              match act span with
              | Some text =>
                  scan fuel' pat act (replace result pos (length span) text)
                       (pos + length text)
              | None => scan fuel' pat act result (endPos + 1)
              end
          end
      end
  end.

(** The loop reaches its exit with [r], given enough iterations. *)
Definition scans (pat : list ascii) (act : list ascii -> option (list ascii))
    (result : list ascii) (pos : nat) (r : list ascii) : Prop :=
  exists fuel, scan fuel pat act result pos = Some r.

(** What each loop does with a span [{...}]. *)
Definition formatted_act (formatter : list ascii -> list ascii)
    (formatPattern span : list ascii) : option (list ascii) :=
  Some (formatter (substr span (length formatPattern)
                          (length span - length formatPattern - 1))).

Definition simple_act (stringValue span : list ascii) : option (list ascii) :=
  Some stringValue.

Definition named_act `{Libc} (ctx : format_context_base) (span : list ascii)
  : option (list ascii) :=
  let placeholder := substr span 1 (length span - 2) in
  if empty placeholder || from_option isdigit false (head placeholder) then None
  else
    let '(varName, formatSpec) :=
      match find ":" 0 placeholder with
      | Some colonPos =>
          (substr placeholder 0 colonPos, substr_from placeholder (colonPos + 1))
      | None => (placeholder, [])
      end in
    let found := find_var ctx varName in
    if found.1 then
      Some (if negb (empty formatSpec)
            then apply_format found.2 formatSpec else found.2)
    else None.

(** A loop as pattern and decision, run from position 0 with the
    iteration budget [format_impl] gives it; the loops of a call in
    their order. *)
Definition loop : Type := list ascii * (list ascii -> option (list ascii)).

Definition run_loop (l : loop) (s : list ascii) : option (list ascii) :=
  scan (S (length s)) l.1 l.2 s 0.

Fixpoint pipeline (ls : list loop) (s : list ascii) : option (list ascii) :=
  match ls with
  | [] => Some s
  | l :: ls' => s' ← run_loop l s; pipeline ls' s'
  end.

Definition formatted_pattern (i : nat) : list ascii := "{" ++ to_string_nat i ++ ":".
Definition simple_pattern (i : nat) : list ascii := "{" ++ to_string_nat i ++ "}".

Fixpoint positional_loops (i : nat)
    (formattedArgs : list (list ascii * (list ascii -> list ascii))) : list loop :=
  match formattedArgs with
  | [] => []
  | arg :: rest =>
      (formatted_pattern i, formatted_act arg.2 (formatted_pattern i))
      :: (simple_pattern i, simple_act arg.1)
      :: positional_loops (S i) rest
  end.

Definition named_loop `{Libc} (ctx : format_context_base) : loop :=
  (("{" : list ascii), named_act ctx).

(** *** Templates whose placeholders are complete and not nested *)

Definition is_open (c : ascii) : Prop := c = "{"%char.
Definition is_brace (c : ascii) : Prop := c = "{"%char \/ c = "}"%char.

(** No opening brace, and no brace at all. *)
Definition no_open (s : list ascii) : Prop := Forall (fun c => ~ is_open c) s.
Definition no_brace (s : list ascii) : Prop := Forall (fun c => ~ is_brace c) s.

(** A span [{body}] with no brace inside. *)
Definition group (body : list ascii) : list ascii := "{" ++ body ++ "}".

(** Text in which every opening brace starts such a span. *)
Inductive flat : list ascii -> Prop :=
| flat_nil : flat []
| flat_char (c : ascii) (s : list ascii) : ~ is_open c -> flat s -> flat (c :: s)
| flat_group (body s : list ascii) : no_brace body -> flat s -> flat (group body ++ s).

(** The two forms of a positional placeholder after its index: [}] or
    [:spec}] with a brace-free spec. *)
Definition placeholder_tail (tail : list ascii) : Prop :=
  tail = "}" \/ exists spec, no_brace spec /\ tail = ":" ++ spec ++ "}".

(** Nothing that substitution can insert opens a brace: the renderings
    of the arguments, and the values of the variables as stored and
    under any format spec. *)
Definition clean_args (formattedArgs : list (list ascii * (list ascii -> list ascii)))
  : Prop :=
  Forall (fun arg => no_open arg.1 /\ forall spec, no_open (arg.2 spec)) formattedArgs.

Definition clean_vars `{Libc} (ctx : format_context_base) : Prop :=
  forall name v, find_var ctx name = (true, v) ->
    no_open v /\ forall spec, no_open (apply_format v spec).

(** The patterns of the three loops: an opening brace, brace-free text,
    and possibly a closing brace at the very end. *)
Definition pattern_shape (pat : list ascii) : Prop :=
  exists w t, pat = "{" ++ w ++ t /\ no_brace w /\ (t = [] \/ t = "}").

(** One run of a loop over flat text, span by span: a span the pattern
    matches and the decision replaces becomes the inserted text; every
    other span and every other character stays. *)
Inductive rewrites (pat : list ascii) (act : list ascii -> option (list ascii))
  : list ascii -> list ascii -> Prop :=
| rewrites_nil : rewrites pat act [] []
| rewrites_char (c : ascii) (s s' : list ascii) :
    ~ is_open c -> rewrites pat act s s' -> rewrites pat act (c :: s) (c :: s')
| rewrites_replace (body s s' text : list ascii) :
    no_brace body ->
    starts_with pat (group body) = true ->
    act (group body) = Some text ->
    rewrites pat act s s' ->
    rewrites pat act (group body ++ s) (text ++ s')
| rewrites_keep (body s s' : list ascii) :
    no_brace body ->
    starts_with pat (group body) = false \/ act (group body) = None ->
    rewrites pat act s s' ->
    rewrites pat act (group body ++ s) (group body ++ s').

(** A loop never inserts an opening brace. *)
Definition clean_act (act : list ascii -> option (list ascii)) : Prop :=
  forall span text, act span = Some text -> no_open text.

(** A loop that leaves the span [P] alone. *)
Definition keeps (l : loop) (P : list ascii) : Prop :=
  starts_with l.1 P = false \/ l.2 P = None.


(** Every loop of a list leaves the span [P] alone and inserts no
    opening brace. *)
Definition good_loop (P : list ascii) (l : loop) : Prop :=
  pattern_shape l.1 /\ clean_act l.2 /\ keeps l P.

(** A closing brace that ends the pattern and occurs nowhere else in it. *)
Definition closes (pat : list ascii) : Prop :=
  exists w, pat = w ++ "}" /\ Forall (fun c => c <> "}"%char) w.

(** A name that pass 2 looks up as it stands: not empty, not starting
    with a digit, without braces and without a colon. *)
Definition variable_name (name : list ascii) : Prop :=
  name <> []
  /\ from_option isdigit false (head name) = false
  /\ no_brace name
  /\ ":"%char ∉ name.


(** Text in which every opening brace starts a span [{body}] with no
    brace inside, each span with the property [P]. *)
Inductive spans (P : list ascii -> Prop) : list ascii -> Prop :=
| spans_nil : spans P []
| spans_char (c : ascii) (s : list ascii) :
    ~ is_open c -> spans P s -> spans P (c :: s)
| spans_group (body s : list ascii) :
    no_brace body -> P body -> spans P s -> spans P (group body ++ s).

(** What a loop puts in place of the span [{body}], when its pattern
    matches the span and its decision replaces it, opens no brace. *)
Definition clean_for (l : loop) (body : list ascii) : Prop :=
  starts_with l.1 (group body) = true ->
  forall text, l.2 (group body) = Some text -> no_open text.

(** The text that a call with [args] puts in place of the span [{body}]
    opens no brace: the default rendering of argument [j] for [{j}],
    its rendering under [spec] for [{j:spec}], and what pass 2 inserts
    for a named placeholder. Nothing is asked of renderings and
    variables that the span does not name. *)
Definition clean_placeholder `{Libc} (ctx : format_context_base) (args : list value)
    (body : list ascii) : Prop :=
  (forall j arg, args !! j = Some arg -> body = to_string_nat j ->
     no_open (add_arg ctx arg).1)
  /\ (forall j arg spec, args !! j = Some arg ->
        body = to_string_nat j ++ ":" ++ spec ->
        no_open ((add_arg ctx arg).2 spec))
  /\ (forall text, named_act ctx (group body) = Some text -> no_open text).

End Loops.


(** ** The context classes *)
Module Contexts.
Import detail Engine.

Section WithLibc.
Context `{Libc}.

(** The stored form of a custom formatter: the wrapper lambda of
    [set_formatter<T>], applied to the erased value. *)
Definition formatter := value -> list ascii.

(** *** detail::internal_context *)
Definition internal_context : format_context_base := {|
  has_var := fun _ => false;
  get_var := fun _ => [];
  has_formatter_impl := fun _ => false;
  format_value_custom := fun _ _ _ => [];
  find_var := default_find_var (fun _ => false) (fun _ => [])
|}.

(** The free function [ufmt::format]. *)
Definition format (template_str : list ascii) (args : list value)
  : option (list ascii) := format_impl internal_context template_str args.

(** *** local_context *)
Record local_context := {
  l_variables_ : gmap (list ascii) (list ascii);
  l_formatters_ : gmap nat formatter
}.

Definition local_new : local_context :=
  {| l_variables_ := ∅; l_formatters_ := ∅ |}.

Definition local_set_var (name value : list ascii) (c : local_context)
  : local_context :=
  {| l_variables_ := <[name := value]> (l_variables_ c);
     l_formatters_ := l_formatters_ c |}.

Definition local_clear_var (name : list ascii) (c : local_context)
  : local_context :=
  {| l_variables_ := delete name (l_variables_ c);
     l_formatters_ := l_formatters_ c |}.

Definition local_set_formatter_impl (type : nat) (f : formatter)
    (c : local_context) : local_context :=
  {| l_variables_ := l_variables_ c;
     l_formatters_ := <[type := f]> (l_formatters_ c) |}.

Definition local_clear_formatter_impl (type : nat) (c : local_context)
  : local_context :=
  {| l_variables_ := l_variables_ c;
     l_formatters_ := delete type (l_formatters_ c) |}.

Definition local_has_var (c : local_context) (name : list ascii) : bool :=
  bool_decide (is_Some (l_variables_ c !! name)).

Definition local_get_var (c : local_context) (name : list ascii) : list ascii :=
  default [] (l_variables_ c !! name).

Definition local_base (c : local_context) : format_context_base := {|
  has_var := local_has_var c;
  get_var := local_get_var c;
  has_formatter_impl := fun type => bool_decide (is_Some (l_formatters_ c !! type));
  format_value_custom := fun type v _ =>
    match l_formatters_ c !! type with Some f => f v | None => [] end;
  find_var := default_find_var (local_has_var c) (local_get_var c)
|}.

Definition local_format (c : local_context) (template_str : list ascii)
    (args : list value) : option (list ascii) :=
  format_impl (local_base c) template_str args.

(** [context_base::set_var<T>] on a [local_context]: the value is
    converted with [to_string] when it is set, and the text is stored. *)
Definition local_set_var_value (name : list ascii) (v : value) (c : local_context)
  : local_context := local_set_var name (to_string (local_base c) v) c.


(** *** shared_context and context_manager

    The process state holds every piece of storage the two classes
    declare: the static members of [context_base], the registry of
    [context_manager], the per-thread instances of the
    [static thread_local] member [shared_context::thread_variables_],
    and the [shared_context] objects themselves, addressed by the
    pointer a [shared_ptr] or [unique_ptr] handle carries. Each
    member function is one transition, executed by the thread given
    as its first argument; the mutexes make the transitions on the
    guarded stores atomic. *)

Record shared_context := {
  variables_ : gmap (list ascii) (list ascii);
  formatters_ : gmap nat formatter
}.

Record process := {
  (** [context_base::main_thread_id_]; [None] is the
      default-constructed [std::thread::id], which names no thread. *)
  main_thread_id_ : option nat;
  main_thread_id_initialized_ : bool;
  (** [context_manager::contexts_] *)
  contexts_ : gmap (list ascii) nat;
  (** [shared_context::thread_variables_], one map per thread. *)
  thread_variables_ : gmap nat (gmap (list ascii) (list ascii));
  (** The live [shared_context] objects and the next fresh address. *)
  objects : gmap nat shared_context;
  next_object : nat
}.

Definition process_start : process := {|
  main_thread_id_ := None;
  main_thread_id_initialized_ := false;
  contexts_ := ∅;
  thread_variables_ := ∅;
  objects := ∅;
  next_object := 0
|}.

(** The calling thread's instance of [thread_variables_]. *)
Definition thread_vars (st : process) (tid : nat) : gmap (list ascii) (list ascii) :=
  default ∅ (thread_variables_ st !! tid).

Definition with_thread_vars (st : process) (tid : nat)
    (m : gmap (list ascii) (list ascii)) : process :=
  {| main_thread_id_ := main_thread_id_ st;
     main_thread_id_initialized_ := main_thread_id_initialized_ st;
     contexts_ := contexts_ st;
     thread_variables_ := <[tid := m]> (thread_variables_ st);
     objects := objects st;
     next_object := next_object st |}.

Definition with_object (st : process) (this : nat)
    (f : shared_context -> shared_context) : process :=
  {| main_thread_id_ := main_thread_id_ st;
     main_thread_id_initialized_ := main_thread_id_initialized_ st;
     contexts_ := contexts_ st;
     thread_variables_ := thread_variables_ st;
     objects := alter f this (objects st);
     next_object := next_object st |}.

(** [context_base::ensure_main_thread_id_initialized] *)
Definition ensure_main_thread_id_initialized (tid : nat) (st : process) : process :=
  if main_thread_id_initialized_ st then st
  else
    {| main_thread_id_ := Some tid;
       main_thread_id_initialized_ := true;
       contexts_ := contexts_ st;
       thread_variables_ := thread_variables_ st;
       objects := objects st;
       next_object := next_object st |}.

(** [context_base::is_main_thread] *)
Definition is_main_thread (tid : nat) (st : process) : bool * process :=
  let st' := ensure_main_thread_id_initialized tid st in
  (bool_decide (Some tid = main_thread_id_ st'), st').

(** [shared_context::set_var(name, value)] on the object [this]. *)
Definition set_var (tid this : nat) (name value : list ascii) (st : process)
  : process :=
  let '(main, st) := is_main_thread tid st in
  if main then
    with_object st this (fun c =>
      {| variables_ := <[name := value]> (variables_ c);
         formatters_ := formatters_ c |})
  else
    with_thread_vars st tid (<[name := value]> (thread_vars st tid)).

(** [shared_context::clear_var] *)
Definition clear_var (tid this : nat) (name : list ascii) (st : process)
  : process :=
  let '(main, st) := is_main_thread tid st in
  if main then
    with_object st this (fun c =>
      {| variables_ := delete name (variables_ c);
         formatters_ := formatters_ c |})
  else
    with_thread_vars st tid (delete name (thread_vars st tid)).

(** The guarded store of [this]; empty when no such object exists. *)
Definition global_vars (st : process) (this : nat) : gmap (list ascii) (list ascii) :=
  from_option variables_ ∅ (objects st !! this).
Definition global_formatters (st : process) (this : nat) : gmap nat formatter :=
  from_option formatters_ ∅ (objects st !! this).

(** [shared_context::has_var] *)
Definition shared_has_var (tid this : nat) (st : process) (name : list ascii)
  : bool :=
  if bool_decide (is_Some (thread_vars st tid !! name)) then true
  else bool_decide (is_Some (global_vars st this !! name)).

(** [shared_context::get_var] *)
Definition shared_get_var (tid this : nat) (st : process) (name : list ascii)
  : list ascii :=
  match thread_vars st tid !! name with
  | Some v => v
  | None => default [] (global_vars st this !! name)
  end.

(** [shared_context::find_var], the override built on the
    two-argument overload. *)
Definition shared_find_var (tid this : nat) (st : process) (name : list ascii)
  : bool * list ascii :=
  match thread_vars st tid !! name with
  | Some v => (true, v)
  | None =>
      match global_vars st this !! name with
      | Some v => (true, v)
      | None => (false, [])
      end
  end.

(** [shared_context::set_formatter_impl], [clear_formatter_impl],
    [has_formatter_impl], [format_value_custom] *)
Definition set_formatter_impl (tid this : nat) (type : nat) (f : formatter)
    (st : process) : process :=
  with_object st this (fun c =>
    {| variables_ := variables_ c;
       formatters_ := <[type := f]> (formatters_ c) |}).

Definition clear_formatter_impl (tid this : nat) (type : nat) (st : process)
  : process :=
  with_object st this (fun c =>
    {| variables_ := variables_ c;
       formatters_ := delete type (formatters_ c) |}).

Definition shared_has_formatter_impl (tid this : nat) (st : process) (type : nat)
  : bool := bool_decide (is_Some (global_formatters st this !! type)).

Definition shared_format_value_custom (tid this : nat) (st : process)
    (type : nat) (v : value) (formatSpec : list ascii) : list ascii :=
  match global_formatters st this !! type with
  | Some f => f v
  | None => []
  end.

(** The object [this] as a [format_context_base], for thread [tid]. *)
Definition shared_base (tid this : nat) (st : process) : format_context_base := {|
  has_var := shared_has_var tid this st;
  get_var := shared_get_var tid this st;
  has_formatter_impl := shared_has_formatter_impl tid this st;
  format_value_custom := shared_format_value_custom tid this st;
  find_var := shared_find_var tid this st
|}.

(** [shared_context::format] *)
Definition shared_format (tid this : nat) (st : process)
    (template_str : list ascii) (args : list value) : option (list ascii) :=
  format_impl (shared_base tid this st) template_str args.

(** [new shared_context()]: a fresh object with empty stores. Objects
    are never reclaimed here: every handle the model hands out stays
    valid, as a [shared_ptr] or [unique_ptr] guarantees. *)
Definition allocate (st : process) : nat * process :=
  (next_object st,
   {| main_thread_id_ := main_thread_id_ st;
      main_thread_id_initialized_ := main_thread_id_initialized_ st;
      contexts_ := contexts_ st;
      thread_variables_ := thread_variables_ st;
      objects := <[next_object st := {| variables_ := ∅; formatters_ := ∅ |}]>
                   (objects st);
      next_object := S (next_object st) |}).

(** [ufmt::create_shared_context] *)
Definition create_shared_context (tid : nat) (st : process) : nat * process :=
  allocate st.

Definition with_contexts (st : process) (m : gmap (list ascii) nat) : process :=
  {| main_thread_id_ := main_thread_id_ st;
     main_thread_id_initialized_ := main_thread_id_initialized_ st;
     contexts_ := m;
     thread_variables_ := thread_variables_ st;
     objects := objects st;
     next_object := next_object st |}.

(** [context_manager::get_context], which [ufmt::get_shared_context]
    forwards to. *)
Definition get_context (tid : nat) (name : list ascii) (st : process)
  : nat * process :=
  match contexts_ st !! name with
  | None =>
      let '(ctx, st) := allocate st in
      (ctx, with_contexts st (<[name := ctx]> (contexts_ st)))
  | Some ctx => (ctx, st)
  end.

(** [context_manager::remove_context], [clear_all_contexts] *)
Definition remove_context (tid : nat) (name : list ascii) (st : process)
  : process := with_contexts st (delete name (contexts_ st)).
Definition clear_all_contexts (tid : nat) (st : process) : process :=
  with_contexts st ∅.

(** The member functions a thread can call, and an interleaved
    execution as the list of calls with their calling threads. The
    reading members ([has_var], [format], [has_formatter]) leave the
    state as it is. *)
Inductive call :=
| CallSetVar (this : nat) (name value : list ascii)
| CallClearVar (this : nat) (name : list ascii)
| CallSetFormatter (this : nat) (type : nat) (f : formatter)
| CallClearFormatter (this : nat) (type : nat)
| CallHasVar (this : nat) (name : list ascii)
| CallFormat (this : nat) (template_str : list ascii) (args : list value)
| CallHasFormatter (this : nat) (type : nat)
| CallGetSharedContext (name : list ascii)
| CallCreateSharedContext
| CallRemoveContext (name : list ascii)
| CallClearAllContexts.

Definition step (st : process) (tc : nat * call) : process :=
  let '(tid, c) := tc in
  match c with
  | CallSetVar this name value => set_var tid this name value st
  | CallClearVar this name => clear_var tid this name st
  | CallSetFormatter this type f => set_formatter_impl tid this type f st
  | CallClearFormatter this type => clear_formatter_impl tid this type st
  | CallHasVar _ _ | CallFormat _ _ _ | CallHasFormatter _ _ => st
  | CallGetSharedContext name => (get_context tid name st).2
  | CallCreateSharedContext => (create_shared_context tid st).2
  | CallRemoveContext name => remove_context tid name st
  | CallClearAllContexts => clear_all_contexts tid st
  end.

Definition run (st : process) (trace : list (nat * call)) : process :=
  foldl step st trace.

(** The object a call operates on, if it is a member call. *)
Definition call_object (c : call) : option nat :=
  match c with
  | CallSetVar this _ _ | CallClearVar this _
  | CallSetFormatter this _ _ | CallClearFormatter this _
  | CallHasVar this _ | CallFormat this _ _ | CallHasFormatter this _ => Some this
  | _ => None
  end.

Definition is_var_write (c : call) : bool :=
  match c with
  | CallSetVar _ _ _ | CallClearVar _ _ => true
  | _ => false
  end.

(** The registry hands out one object per name: its entries point below
    the allocation mark and no two names share an object. *)
Definition registry_ok (st : process) : Prop :=
  forall (name : list ascii) (ctx : nat),
    contexts_ st !! name = Some ctx ->
    (ctx < next_object st)%nat
    /\ forall name', contexts_ st !! name' = Some ctx -> name' = name.

(** No thread that is, or can still become, the main thread has an
    entry in its [thread_variables_]. *)
Definition no_main_overrides (st : process) : Prop :=
  forall t : nat,
    main_thread_id_initialized_ st = false \/ main_thread_id_ st = Some t ->
    thread_vars st t = ∅.


End WithLibc.

End Contexts.

(** ** An instance of the C library interface to run examples with

    Only what the examples below exercise: [%d] and [%i] with an
    optional zero flag and width; a [double] is represented by a whole
    number and printed with six zero decimals. *)
Module ExampleLibc.

Definition pad_left (n : nat) (c : ascii) (s : list ascii) : list ascii :=
  replicate (n - length s) c ++ s.

Definition example_sprintf_ll (fmt : list ascii) (v : Z) : list ascii :=
  match fmt with
  | pct :: rest =>
      let body := take (length rest - 1) rest in
      match last rest with
      | Some t =>
          if bool_decide (pct = "%"%char)
             && (bool_decide (t = "d"%char) || bool_decide (t = "i"%char))
             && forallb isdigit body
          then pad_left (Z.to_nat (digits_value 0 body))
                        (if bool_decide (head body = Some "0"%char)
                         then "0"%char else " "%char)
                        (to_string_ll v)
          else to_string_ll v
      | None => to_string_ll v
      end
  | [] => []
  end.

#[export] Instance example_libc : Libc := {|
  double := Z;
  stod := stoll;
  to_string_double := fun d => to_string_ll d ++ ".000000";
  sprintf_double := fun _ d => to_string_ll d ++ ".000000";
  sprintf_ll := example_sprintf_ll
|}.

End ExampleLibc.

(** ** Scenarios the examples run on *)
Module Scenarios.
Import Contexts ExampleLibc.

(** Thread 1 obtains context "a" (object 0) and sets a variable on it,
    which makes it the main thread; thread 2 then obtains "a" and "b"
    (object 1). *)
Definition two_contexts : process :=
  run process_start
    [(1%nat, CallGetSharedContext "a");
     (1%nat, CallSetVar 0 "user" "Adam");
     (2%nat, CallGetSharedContext "a");
     (2%nat, CallGetSharedContext "b")].

(** A local context in which [name] is defined as [Alice]. *)
Definition alice : local_context := local_set_var "name" "Alice" local_new.

End Scenarios.

(** ** Vocabulary of the properties *)
Module Vocabulary.
Import detail.

(** The alignment a format spec asks for, by its first character. *)
Inductive alignment := AlignLeft | AlignCenter | AlignRight.

Definition alignment_of (formatSpec : list ascii) : alignment :=
  match head formatSpec with
  | Some c =>
      if bool_decide (c = "-"%char) then AlignLeft
      else if bool_decide (c = "^"%char) then AlignCenter
      else AlignRight
  | None => AlignRight
  end.

Definition spaces (n : Z) : list ascii := replicate (Z.to_nat n) " "%char.

(** The type character [apply_format] extracts from a spec, and the
    set it dispatches on. *)
Definition type_char (formatSpec : list ascii) : ascii :=
  (split_format_spec formatSpec).1.2.
Definition alignment_part (formatSpec : list ascii) : list ascii :=
  (split_format_spec formatSpec).1.1.
Definition recognized (c : ascii) : bool := is_float_type c || is_integer_type c.

(** Binary digits of a positive number, most significant first: halve
    repeatedly, the remainders read backwards. *)
Fixpoint binary_digits (p : positive) : list ascii :=
  match p with
  | xH => "1"
  | xO q => binary_digits q ++ "0"
  | xI q => binary_digits q ++ "1"
  end.

Definition is_numeric `{Libc} (v : value) : bool :=
  match v with
  | VFloat _ | VDouble _ | VInteger _ _ => true
  | _ => false
  end.

Definition is_integer `{Libc} (v : value) : bool :=
  match v with VInteger _ _ => true | _ => false end.

(** A format spec as a user writes it: alignment character, decimal
    width, and an optional precision after a dot. *)
Definition alignment_text (a : alignment) : list ascii :=
  match a with AlignLeft => "-" | AlignCenter => "^" | AlignRight => [] end.

Definition spec_text (a : alignment) (W : nat) (P : option nat) : list ascii :=
  alignment_text a ++ to_string_nat W
  ++ match P with Some p => "." ++ to_string_nat p | None => [] end.

(** The number a string of binary digits stands for, most significant
    digit first. *)
Definition binary_value (digits : list ascii) : Z :=
  fold_left (fun acc c => 2 * acc + (if decide (c = "1"%char) then 1 else 0)) digits 0.


End Vocabulary.

(** * Properties *)

(** ** Machine integers and string helpers *)
Section Helpers.

Lemma to_int_small (z : Z) : INT_MIN <= z <= INT_MAX -> to_int z = z.
Proof.
  unfold to_int, INT_MIN, INT_MAX. intros Hz.
  rewrite Z.mod_small by lia. lia.
Qed.

Lemma to_int_range (z : Z) : INT_MIN <= to_int z <= INT_MAX.
Proof.
  unfold to_int, INT_MIN, INT_MAX.
  pose proof (Z.mod_pos_bound (z + 2 ^ 31) (2 ^ 32) ltac:(lia)). lia.
Qed.

Lemma ilength_small (s : list ascii) :
  Z.of_nat (length s) <= INT_MAX -> ilength s = Z.of_nat (length s).
Proof.
  intros Hs. unfold ilength. apply to_int_small. unfold INT_MIN. lia.
Qed.

Lemma atoi_range (s : list ascii) : INT_MIN <= atoi s <= INT_MAX.
Proof. apply to_int_range. Qed.

Lemma substr_0 (s : list ascii) (n : nat) : substr s 0 n = take n s.
Proof. reflexivity. Qed.

Lemma empty_false (s : list ascii) : s <> [] -> empty s = false.
Proof. by destruct s. Qed.

Lemma empty_true_iff (s : list ascii) : empty s = true <-> s = [].
Proof. by destruct s. Qed.

Lemma width_range (spec : list ascii) :
  INT_MIN <= detail.width (detail.parse_string_spec spec) <= INT_MAX.
Proof.
  unfold detail.parse_string_spec.
  destruct (match spec with [] => _ | _ => _ end) as [[lj cj] pos].
  destruct (find "." pos spec); simpl; case_match;
    try apply atoi_range; by compute.
Qed.

Lemma maxLen_empty : detail.maxLen (detail.parse_string_spec []) = -1.
Proof. reflexivity. Qed.

End Helpers.

(** ** String truncation and justification *)
Module StringFormattingLaws.
Import detail Vocabulary.


Lemma alignment_of_flags (formatSpec : list ascii) :
  let ps := parse_string_spec formatSpec in
  match alignment_of formatSpec with
  | AlignLeft => leftJustified ps = true
  | AlignCenter => leftJustified ps = false /\ centerJustified ps = true
  | AlignRight => leftJustified ps = false /\ centerJustified ps = false
  end.
Proof.
  unfold alignment_of, parse_string_spec.
  destruct formatSpec as [|c spec]; cbn [head].
  - by case_match.
  - destruct (decide (c = "-"%char)) as [->|Hl].
    + rewrite bool_decide_eq_true_2 by done. by case_match.
    + rewrite bool_decide_eq_false_2 by done.
      destruct (decide (c = "^"%char)) as [->|Hc].
      * rewrite bool_decide_eq_true_2 by done. by case_match.
      * rewrite bool_decide_eq_false_2 by done. by case_match.
Qed.

(** C5, as the code has it: for a string of length L and a parsed
    precision P with 1 <= P < L, the truncation step yields exactly P
    characters: the first P characters when P <= 3, otherwise the
    first P-3 characters followed by three dots; and when the width
    does not exceed P this is the result of [apply_string_formatting].
    (A precision of 0 does not truncate, see
    [truncation_skipped_at_precision_zero].) *)
Theorem truncation_law (value formatSpec : list ascii) (P : Z) :
  maxLen (parse_string_spec formatSpec) = P ->
  1 <= P < Z.of_nat (length value) ->
  Z.of_nat (length value) <= INT_MAX ->
  let processedValue := truncate_value value P in
  processedValue =
    (if P <=? 3 then take (Z.to_nat P) value
     else take (Z.to_nat (P - 3)) value ++ "...")
  /\ Z.of_nat (length processedValue) = P
  /\ (width (parse_string_spec formatSpec) <= P ->
      apply_string_formatting value formatSpec = processedValue).
Proof.
  intros HP [HP1 HPL] HL processedValue.
  assert (Hpv : processedValue =
    (if P <=? 3 then take (Z.to_nat P) value
     else take (Z.to_nat (P - 3)) value ++ "...")).
  { unfold processedValue, truncate_value.
    rewrite ilength_small by done.
    replace (0 <? P) with true by (symmetry; apply Z.ltb_lt; lia).
    replace (P <? Z.of_nat (length value)) with true
      by (symmetry; apply Z.ltb_lt; lia).
    simpl. by rewrite !substr_0. }
  assert (Hlen : Z.of_nat (length processedValue) = P).
  { rewrite Hpv. destruct (P <=? 3) eqn:H3.
    - rewrite length_take. lia.
    - apply Z.leb_gt in H3. rewrite length_app, length_take. simpl. lia. }
  split_and!; [done..|].
  intros HW. unfold apply_string_formatting.
  destruct formatSpec as [|c spec]; [rewrite maxLen_empty in HP; lia|].
  simpl empty. cbv iota. rewrite HP. fold processedValue.
  unfold justify.
  replace (width _ <=? ilength processedValue) with true; [by rewrite orb_true_r|].
  symmetry. apply Z.leb_le. rewrite ilength_small; lia.
Qed.

Lemma truncation_law_witness :
  truncate_value "Hello World" 8 = "Hello..."
  /\ Z.of_nat (length (truncate_value "Hello World" 8)) = 8
  /\ (width (parse_string_spec ".8") <= 8 ->
      apply_string_formatting "Hello World" ".8" = truncate_value "Hello World" 8).
Proof.
  apply (truncation_law "Hello World" ".8" 8);
    [reflexivity | by compute | by compute].
Defined.

(** C5 as stated fails at P = 0: an explicit precision of zero leaves
    the text as it is. *)
Lemma truncation_skipped_at_precision_zero :
  maxLen (parse_string_spec ".0") = 0
  /\ truncate_value "hello" 0 = "hello"
  /\ length (apply_string_formatting "hello" ".0") = 5%nat.
Proof. by vm_compute. Qed.

(** C6: with R the length of the (possibly truncated) text and W the
    parsed width, W > R adds exactly W-R spaces: after the text for
    '-', floor((W-R)/2) before and the rest after for '^', before the
    text otherwise; W <= R returns the text unchanged (R being compared
    as an [int], it has to fit one in that case). *)
Theorem justification_law (value formatSpec : list ascii) :
  let ps := parse_string_spec formatSpec in
  let text := truncate_value value (maxLen ps) in
  let R := Z.of_nat (length text) in
  let W := width ps in
  (W <= R -> R <= INT_MAX) ->
  apply_string_formatting value formatSpec =
    if R <? W then
      match alignment_of formatSpec with
      | AlignLeft => text ++ spaces (W - R)
      | AlignCenter =>
          spaces ((W - R) / 2) ++ text ++ spaces ((W - R) - (W - R) / 2)
      | AlignRight => spaces (W - R) ++ text
      end
    else text.
Proof.
  intros ps text R W HR'.
  assert (HR : R <= INT_MAX).
  { destruct (Z_lt_le_dec R W) as [Hlt|Hle]; [|by apply HR'].
    pose proof (width_range formatSpec). fold ps in H. fold W in H. lia. }
  pose proof (alignment_of_flags formatSpec) as Hal. cbv zeta in Hal.
  fold ps in Hal.
  unfold apply_string_formatting.
  destruct (empty formatSpec) eqn:He.
  { apply empty_true_iff in He. subst formatSpec.
    change W with 0. change text with value in R |- *.
    by replace (R <? 0) with false by (symmetry; apply Z.ltb_ge; lia). }
  fold ps. fold text. unfold justify. fold W.
  rewrite (ilength_small text) by done. fold R.
  destruct (R <? W) eqn:HRW.
  - apply Z.ltb_lt in HRW.
    replace (W <=? 0) with false by (symmetry; apply Z.leb_gt; lia).
    replace (W <=? R) with false by (symmetry; apply Z.leb_gt; lia).
    simpl. unfold fill, to_size, spaces.
    rewrite Z.quot_div_nonneg by lia.
    destruct (alignment_of formatSpec).
    + by rewrite Hal.
    + destruct Hal as [-> ->]. done.
    + destruct Hal as [-> ->]. done.
  - apply Z.ltb_ge in HRW.
    replace (W <=? R) with true by (symmetry; apply Z.leb_le; lia).
    by rewrite orb_true_r.
Qed.

Lemma justification_law_witness :
  apply_string_formatting "Alice" "^10" = "  Alice   ".
Proof.
  apply (justification_law "Alice" "^10"). intros _. by compute.
Defined.

End StringFormattingLaws.

(** ** Numeric rendering: apply_format, binary output, the snprintf buffer *)
Module RenderingLaws.
Import detail Vocabulary ExampleLibc.


Lemma to_binary_digits (n : nat) : forall (u : Z) (acc : list ascii),
  0 < u < 2 ^ Z.of_nat n ->
  to_binary n u acc = binary_digits (Z.to_pos u) ++ acc.
Proof.
  induction n as [|n IH]; intros u acc Hu.
  - change (2 ^ Z.of_nat 0) with 1 in Hu. lia.
  - rewrite Nat2Z.inj_succ, Z.pow_succ_r in Hu by lia.
    destruct u as [|p|p]; [lia| |lia].
    cbn [to_binary]. change (0 <? Z.pos p) with true. cbv iota.
    destruct p as [q|q|].
    + change (Z.shiftr (Z.pos q~1) 1) with (Z.pos q).
      change (Z.land (Z.pos q~1) 1) with 1. cbn [Z.eqb Pos.eqb].
      rewrite IH by lia. cbn [Z.to_pos binary_digits].
      by rewrite <- app_assoc.
    + change (Z.shiftr (Z.pos q~0) 1) with (Z.pos q).
      change (Z.land (Z.pos q~0) 1) with 0. cbn [Z.eqb].
      rewrite IH by lia. cbn [Z.to_pos binary_digits].
      by rewrite <- app_assoc.
    + change (Z.shiftr 1 1) with 0. by destruct n.
Qed.

Lemma to_ull_nonzero (value : Z) :
  LLONG_MIN <= value <= LLONG_MAX -> value <> 0 -> 0 < to_ull value < 2 ^ 64.
Proof.
  unfold LLONG_MIN, LLONG_MAX, to_ull. intros Hr Hz.
  destruct (Z_lt_le_dec value 0).
  - rewrite <- (Z.mod_add value 1) by lia. rewrite Z.mod_small; lia.
  - rewrite Z.mod_small; lia.
Qed.

Lemma binary_digits_length (p : positive) :
  Z.pos p < 2 ^ 64 -> (length (binary_digits p) <= 64)%nat.
Proof.
  assert (Hgen : forall (n : nat) (q : positive),
             Z.pos q < 2 ^ Z.of_nat n -> (length (binary_digits q) <= n)%nat).
  { induction n as [|n IH]; intros q Hq.
    - change (2 ^ Z.of_nat 0) with 1 in Hq. lia.
    - rewrite Nat2Z.inj_succ, Z.pow_succ_r in Hq by lia.
      destruct q as [q|q|]; cbn [binary_digits];
        rewrite ?length_app; simpl; try (specialize (IH q); lia). lia. }
  intros Hp. by apply (Hgen 64%nat).
Qed.

Lemma back_snoc (s : list ascii) (c : ascii) : back (s ++ [c]) = Some c.
Proof. unfold back. by rewrite last_snoc. Qed.

Lemma snoc_not_empty (s : list ascii) (c : ascii) : empty (s ++ [c]) = false.
Proof. by destruct s. Qed.

(** C8, as the code has it: a spec whose type character is none of
    f F g G e E d i x X o u b B makes [apply_format] fall back to string
    formatting of the text with that same spec, so its alignment, width
    and precision are applied; nothing is raised. *)
Theorem unknown_type_is_string_formatting `{Libc} (value formatSpec : list ascii) :
  recognized (type_char formatSpec) = false ->
  apply_format value formatSpec = apply_string_formatting value formatSpec.
Proof.
  unfold recognized, type_char, apply_format. intros Hrec.
  destruct (empty formatSpec) eqn:He.
  { unfold apply_string_formatting. by rewrite He. }
  destruct (split_format_spec formatSpec) as [[alignment typeSpec] numericPart].
  simpl in Hrec. apply orb_false_iff in Hrec as [-> ->]. done.
Qed.

Lemma unknown_type_is_string_formatting_witness :
  apply_format "abc" "10s" = apply_string_formatting "abc" "10s".
Proof.
  apply (unknown_type_is_string_formatting "abc" "10s"). reflexivity.
Defined.

(** C8 as stated fails: with the unrecognized type character s the spec
    is not ignored, its width is applied to the text. *)
Lemma unknown_type_keeps_width :
  recognized (type_char "10s") = false
  /\ ~ (forall (L : Libc) (value formatSpec : list ascii),
         recognized (type_char formatSpec) = false ->
         apply_format value formatSpec = value).
Proof.
  split; [reflexivity|].
  intros Hclaim.
  specialize (Hclaim ExampleLibc.example_libc "abc" "10s" eq_refl).
  by vm_compute in Hclaim.
Qed.




(** What the code prints for -1: sixty-four ones. *)
Lemma binary_of_minus_one `{Libc} :
  format_integer_value (-1) "b" = "0b" ++ replicate 64 "1"%char.
Proof. reflexivity. Qed.

Import Engine Contexts.

Lemma skip_while_suffix (p : ascii -> bool) (s : list ascii) :
  exists pre, s = pre ++ skip_while p s.
Proof.
  induction s as [|c s [pre IH]]; [by exists []|]. cbn [skip_while].
  destruct (p c); [|by exists []].
  exists (c :: pre). by rewrite IH at 1.
Qed.

Lemma conversion_spec_last (conversion : ascii -> bool) (formatSpec : list ascii) :
  conversion_spec conversion formatSpec = true ->
  exists body c, formatSpec = body ++ [c] /\ conversion c = true.
Proof.
  unfold conversion_spec.
  destruct (skip_while_suffix is_flag formatSpec) as [flags Hflags].
  destruct (skip_while_suffix isdigit (skip_while is_flag formatSpec))
    as [width Hwidth].
  set (afterWidth := skip_while isdigit (skip_while is_flag formatSpec)) in *.
  assert (Hlast : forall rest c, afterWidth = rest ++ [c] ->
            formatSpec = (flags ++ width ++ rest) ++ [c]).
  { intros rest c Heq. rewrite Hflags at 1. rewrite Hwidth, Heq.
    by rewrite <- !app_assoc. }
  destruct afterWidth as [|d rest] eqn:Hafter; [done|].
  case_bool_decide as Hdot.
  - destruct (skip_while_suffix isdigit rest) as [precision Hprecision].
    destruct (skip_while isdigit rest) as [|c [|? ?]] eqn:Hskip; [done| |done].
    intros Hc. exists (flags ++ width ++ d :: precision), c. split; [|done].
    apply Hlast. by rewrite Hprecision.
  - destruct rest as [|? ?]; [|done].
    intros Hc. exists (flags ++ width ++ []), d. split; [|done]. by apply Hlast.
Qed.

Lemma integer_conversion_not_binary (c : ascii) :
  is_integer_conversion c = true -> is_binary_type c = false.
Proof.
  unfold is_integer_conversion. rewrite !orb_true_iff, !bool_decide_eq_true.
  intros Hc; destruct_or!; by subst c.
Qed.

Lemma char_conversion_not_binary (c : ascii) :
  is_char_conversion c = true -> is_binary_type c = false.
Proof.
  unfold is_char_conversion. rewrite !orb_true_iff, !bool_decide_eq_true.
  intros Hc; destruct_or!; by subst c.
Qed.

(** C10, as the code has it: for an argument of one of the types that
    [format_value] renders through [snprintf] (the six integer types,
    the two floating-point types, and [char] with the type characters
    d, x and o), in a context that has no custom formatter for its
    type, and for a spec that is a conversion specification of its
    kind, the text that takes the place of the placeholder is
    [format_value] of the argument and has at most 255 characters,
    whatever width is asked for. *)
Theorem snprintf_buffer_bound `{Libc} (ctx : format_context_base) (v : value)
    (formatSpec : list ascii) :
  has_formatter_impl ctx (type_of v) = false ->
  conversion_for v formatSpec = true ->
  (add_arg ctx v).2 formatSpec = format_value v formatSpec
  /\ (length ((add_arg ctx v).2 formatSpec) <= 255)%nat.
Proof.
  intros Hbuiltin Hconv. unfold add_arg. cbn [snd]. rewrite Hbuiltin.
  split; [done|].
  destruct v; try discriminate Hconv; cbn [conversion_for format_value] in *;
    destruct (conversion_spec_last _ _ Hconv) as (body & t & -> & Ht).
  - unfold format_double_value, snprintf_double.
    rewrite snoc_not_empty, length_take. lia.
  - unfold format_double_value, snprintf_double.
    rewrite snoc_not_empty, length_take. lia.
  - unfold format_integer_value, snprintf_ll.
    rewrite snoc_not_empty, back_snoc. cbn [from_option].
    rewrite (integer_conversion_not_binary t Ht), length_take. lia.
  - rewrite snoc_not_empty, back_snoc. cbn [from_option negb andb].
    change (bool_decide (t = "d"%char) || bool_decide (t = "x"%char)
            || bool_decide (t = "o"%char)) with (is_char_conversion t).
    rewrite Ht. unfold format_integer_value, snprintf_ll.
    rewrite snoc_not_empty, back_snoc. cbn [from_option].
    rewrite (char_conversion_not_binary t Ht), length_take. lia.
Qed.

Lemma snprintf_buffer_bound_witness :
  length (format_value (VInteger KInt 42) "300d") = 255%nat
  /\ (add_arg internal_context (VInteger KInt 42)).2 "300d"
     = format_value (VInteger KInt 42) "300d"
  /\ (length ((add_arg internal_context (VInteger KInt 42)).2 "300d") <= 255)%nat.
Proof.
  split; [vm_compute; reflexivity|].
  apply (snprintf_buffer_bound internal_context (VInteger KInt 42) "300d");
    reflexivity.
Defined.

(** C10 as stated fails for the integer type characters b and B, which
    never go through the buffer: 300b yields 300 characters. Nor does
    the bound hold for an argument of another integer type, such as a
    [short], which is rendered as a string and padded to the width, or
    for a type with a custom formatter. *)
Lemma width_exceeds_buffer :
  alignment_part "300b" = [] /\ recognized (type_char "300b") = true
  /\ ~ (forall (L : Libc) (v : value) (formatSpec : list ascii),
         is_numeric v = true ->
         alignment_part formatSpec = [] ->
         recognized (type_char formatSpec) = true ->
         (length (format_value v formatSpec) <= 255)%nat)
  /\ length (format_value (VInteger KInt 5) "300b") = 300%nat
  /\ length (format_value (VOther 0 "42") "300d") = 300%nat
  /\ length ((add_arg (local_base (local_set_formatter_impl
                                      (type_of (VInteger KInt 42))
                                      (fun _ => replicate 300 "*"%char) local_new))
                       (VInteger KInt 42)).2 "300d") = 300%nat.
Proof.
  split_and!;
    [reflexivity|reflexivity|
    |vm_compute; reflexivity|vm_compute; reflexivity|vm_compute; reflexivity].
  intros Hclaim.
  specialize (Hclaim ExampleLibc.example_libc
                (@VInteger ExampleLibc.example_libc KInt 5) "300b"
                eq_refl eq_refl eq_refl).
  vm_compute in Hclaim. lia.
Qed.


End RenderingLaws.

(** ** Shared contexts: the main thread, the stores, the registry *)
Module SharedContextLaws.
Import detail Engine Contexts.

Section WithLibc.
Context `{Libc}.

Lemma run_snoc (st : process) (trace : list (nat * call)) (tc : nat * call) :
  run st (trace ++ [tc]) = step (run st trace) tc.
Proof. unfold run. by rewrite foldl_app. Qed.

Lemma ensure_when_initialized (tid : nat) (st : process) :
  main_thread_id_initialized_ st = true ->
  ensure_main_thread_id_initialized tid st = st.
Proof. unfold ensure_main_thread_id_initialized. by intros ->. Qed.

Lemma ensure_when_fresh (tid : nat) (st : process) :
  main_thread_id_initialized_ st = false ->
  main_thread_id_ (ensure_main_thread_id_initialized tid st) = Some tid
  /\ main_thread_id_initialized_ (ensure_main_thread_id_initialized tid st) = true.
Proof. unfold ensure_main_thread_id_initialized. by intros ->. Qed.

(** The two static members after one call, in terms of [ensure]. *)
Lemma step_statics (st : process) (tid : nat) (c : call) :
  let st0 := if is_var_write c then ensure_main_thread_id_initialized tid st else st in
  main_thread_id_ (step st (tid, c)) = main_thread_id_ st0
  /\ main_thread_id_initialized_ (step st (tid, c)) = main_thread_id_initialized_ st0.
Proof.
  destruct c; cbn [step is_var_write]; try done.
  - unfold set_var, is_main_thread. by case_bool_decide.
  - unfold clear_var, is_main_thread. by case_bool_decide.
  - unfold get_context. by destruct (contexts_ st !! name).
Qed.

Lemma step_keeps_main_thread (st : process) (tc : nat * call) :
  main_thread_id_initialized_ st = true ->
  main_thread_id_ (step st tc) = main_thread_id_ st
  /\ main_thread_id_initialized_ (step st tc) = true.
Proof.
  intros Hinit. destruct tc as [tid c].
  destruct (step_statics st tid c) as [-> ->].
  destruct (is_var_write c); [|done].
  by rewrite ensure_when_initialized.
Qed.

Lemma run_keeps_main_thread (st : process) (trace : list (nat * call)) :
  main_thread_id_initialized_ st = true ->
  main_thread_id_ (run st trace) = main_thread_id_ st
  /\ main_thread_id_initialized_ (run st trace) = true.
Proof.
  intros Hinit. induction trace as [|tc trace IH] using rev_ind; [done|].
  rewrite run_snoc. destruct IH as [IHm IHi].
  destruct (step_keeps_main_thread (run st trace) tc IHi) as [-> ->].
  by rewrite IHm.
Qed.

Lemma run_reads_keep_fresh (st : process) (trace : list (nat * call)) :
  main_thread_id_initialized_ st = false ->
  Forall (fun tc => is_var_write tc.2 = false) trace ->
  main_thread_id_initialized_ (run st trace) = false.
Proof.
  intros Hinit. induction trace as [|tc trace IH] using rev_ind; [done|].
  intros [Htrace Htc]%Forall_app. rewrite Forall_singleton in Htc.
  rewrite run_snoc. destruct tc as [tid c]. simpl in Htc.
  destruct (step_statics (run st trace) tid c) as [_ ->].
  rewrite Htc. by apply IH.
Qed.

(** C1, as the code has it: the main ("home") thread is one per process,
    not one per context. In an execution that starts with the static
    flag unset, whatever is called before on whatever contexts, the
    thread of the first [set_var] or [clear_var] call on any shared
    context is recorded; from then on no call changes it, and
    [is_main_thread] answers for every thread and every context by
    comparing with that one thread. *)
Theorem main_thread_is_process_wide (st : process)
    (before after : list (nat * call)) (tid : nat) (c : call) :
  main_thread_id_initialized_ st = false ->
  Forall (fun tc => is_var_write tc.2 = false) before ->
  is_var_write c = true ->
  let st1 := step (run st before) (tid, c) in
  main_thread_id_ st1 = Some tid
  /\ main_thread_id_ (run st1 after) = Some tid
  /\ main_thread_id_initialized_ (run st1 after) = true
  /\ forall other : nat,
       (is_main_thread other (run st1 after)).1 = bool_decide (other = tid).
Proof.
  intros Hinit Hbefore Hc st1.
  pose proof (run_reads_keep_fresh st before Hinit Hbefore) as Hfresh.
  destruct (step_statics (run st before) tid c) as [Hm Hi].
  rewrite Hc in Hm, Hi.
  destruct (ensure_when_fresh tid (run st before) Hfresh) as [Em Ei].
  rewrite Em in Hm. rewrite Ei in Hi. fold st1 in Hm, Hi.
  destruct (run_keeps_main_thread st1 after Hi) as [Rm Ri].
  rewrite Hm in Rm. split_and!; [done..|].
  intros other. unfold is_main_thread.
  rewrite ensure_when_initialized by done. cbn [fst]. rewrite Rm.
  apply bool_decide_ext. naive_solver.
Qed.

Lemma ensure_frame (tid : nat) (st : process) :
  objects (ensure_main_thread_id_initialized tid st) = objects st
  /\ thread_variables_ (ensure_main_thread_id_initialized tid st) = thread_variables_ st
  /\ contexts_ (ensure_main_thread_id_initialized tid st) = contexts_ st
  /\ next_object (ensure_main_thread_id_initialized tid st) = next_object st.
Proof. unfold ensure_main_thread_id_initialized. by case_match. Qed.

Lemma thread_vars_ensure (tid t : nat) (st : process) :
  thread_vars (ensure_main_thread_id_initialized tid st) t = thread_vars st t.
Proof.
  unfold thread_vars. by destruct (ensure_frame tid st) as (_ & -> & _).
Qed.

Lemma global_vars_ensure (tid this : nat) (st : process) :
  global_vars (ensure_main_thread_id_initialized tid st) this = global_vars st this.
Proof.
  unfold global_vars. by destruct (ensure_frame tid st) as (-> & _).
Qed.

Lemma global_vars_with_object (st : process) (this other : nat)
    (f : shared_context -> shared_context) :
  global_vars (with_object st this f) other =
    if decide (this = other)
    then from_option (fun c => variables_ (f c)) ∅ (objects st !! this)
    else global_vars st other.
Proof.
  unfold global_vars, with_object. cbn [objects].
  case_decide as Heq.
  - subst other. rewrite lookup_alter_eq. by destruct (objects st !! this).
  - by rewrite lookup_alter_ne.
Qed.

Lemma global_formatters_with_object (st : process) (this other : nat)
    (f : shared_context -> shared_context) :
  global_formatters (with_object st this f) other =
    if decide (this = other)
    then from_option (fun c => formatters_ (f c)) ∅ (objects st !! this)
    else global_formatters st other.
Proof.
  unfold global_formatters, with_object. cbn [objects].
  case_decide as Heq.
  - subst other. rewrite lookup_alter_eq. by destruct (objects st !! this).
  - by rewrite lookup_alter_ne.
Qed.

Lemma thread_vars_with_thread_vars (st : process) (tid other : nat)
    (m : gmap (list ascii) (list ascii)) :
  thread_vars (with_thread_vars st tid m) other =
    if decide (tid = other) then m else thread_vars st other.
Proof.
  unfold thread_vars, with_thread_vars. cbn [thread_variables_].
  case_decide as Heq.
  - subst other. by rewrite lookup_insert_eq.
  - by rewrite lookup_insert_ne.
Qed.

(** C2, as the code has it. Variables: [set_var] and [clear_var] by the
    main thread act on the guarded store of the object they are called
    on and on nothing else; by any other thread they act on that
    thread's [thread_variables_] and on nothing else. Formatters: there
    is no per-thread registry; [set_formatter] and [clear_formatter]
    act on the guarded registry of the object from every thread. *)
Theorem writes_go_to_one_store (st : process) (tid this : nat)
    (name value : list ascii) :
  is_Some (objects st !! this) ->
  let main := (is_main_thread tid st).1 in
  let st_set := set_var tid this name value st in
  let st_clear := clear_var tid this name st in
  (if main then
     global_vars st_set this = <[name := value]> (global_vars st this)
     /\ global_vars st_clear this = delete name (global_vars st this)
     /\ thread_variables_ st_set = thread_variables_ st
     /\ thread_variables_ st_clear = thread_variables_ st
   else
     thread_vars st_set tid = <[name := value]> (thread_vars st tid)
     /\ thread_vars st_clear tid = delete name (thread_vars st tid)
     /\ objects st_set = objects st
     /\ objects st_clear = objects st)
  /\ (forall other : nat, other <> this ->
        global_vars st_set other = global_vars st other
        /\ global_vars st_clear other = global_vars st other)
  /\ (forall other : nat, other <> tid ->
        thread_vars st_set other = thread_vars st other
        /\ thread_vars st_clear other = thread_vars st other)
  /\ (forall (type : nat) (f : formatter),
        let st_fmt := set_formatter_impl tid this type f st in
        let st_unfmt := clear_formatter_impl tid this type st in
        global_formatters st_fmt this = <[type := f]> (global_formatters st this)
        /\ global_formatters st_unfmt this = delete type (global_formatters st this)
        /\ thread_variables_ st_fmt = thread_variables_ st
        /\ thread_variables_ st_unfmt = thread_variables_ st).
Proof.
  intros [c Hc] main st_set st_clear.
  unfold st_set, st_clear, main, set_var, clear_var, is_main_thread.
  cbn [fst].
  set (st0 := ensure_main_thread_id_initialized tid st).
  assert (Hobj : objects st0 = objects st) by apply ensure_frame.
  assert (Htv : thread_variables_ st0 = thread_variables_ st) by apply ensure_frame.
  assert (Hgv : forall o, global_vars st0 o = global_vars st o)
    by (intros; apply global_vars_ensure).
  assert (Htvs : forall t, thread_vars st0 t = thread_vars st t)
    by (intros; apply thread_vars_ensure).
  assert (Hg : global_vars st this = variables_ c)
    by (unfold global_vars; by rewrite Hc).
  assert (Hf : global_formatters st this = formatters_ c)
    by (unfold global_formatters; by rewrite Hc).
  case_bool_decide as Hmain; split_and!.
  - rewrite global_vars_with_object, decide_True by done.
    by rewrite Hobj, Hc, Hg.
  - rewrite global_vars_with_object, decide_True by done.
    by rewrite Hobj, Hc, Hg.
  - done.
  - done.
  - intros other Ho. rewrite !global_vars_with_object, !decide_False by done.
    by rewrite Hgv.
  - intros other Ho. unfold thread_vars, with_object. cbn [thread_variables_].
    by rewrite Htv.
  - intros type f. cbv zeta. unfold set_formatter_impl, clear_formatter_impl.
    rewrite !global_formatters_with_object, !decide_True by done.
    by rewrite Hc, Hf.
  - rewrite thread_vars_with_thread_vars, decide_True by done. by rewrite Htvs.
  - rewrite thread_vars_with_thread_vars, decide_True by done. by rewrite Htvs.
  - done.
  - done.
  - intros other Ho. unfold global_vars, with_thread_vars. cbn [objects].
    by rewrite Hobj.
  - intros other Ho.
    rewrite !thread_vars_with_thread_vars, !decide_False by done.
    by rewrite Htvs.
  - intros type f. cbv zeta. unfold set_formatter_impl, clear_formatter_impl.
    rewrite !global_formatters_with_object, !decide_True by done.
    by rewrite Hc, Hf.
Qed.


Lemma step_frame (st : process) (tid : nat) (c : call) (this other m u : nat) :
  call_object c = Some this ->
  other <> this ->
  main_thread_id_initialized_ st = true ->
  main_thread_id_ st = Some m ->
  (tid = u -> u = m) ->
  global_vars (step st (tid, c)) other = global_vars st other
  /\ thread_vars (step st (tid, c)) u = thread_vars st u.
Proof.
  intros Hc Ho Hinit Hmain Hu.
  destruct c; simplify_eq/=; try done.
  - unfold set_var, is_main_thread. rewrite ensure_when_initialized by done.
    rewrite Hmain. case_bool_decide as Hm.
    + by rewrite global_vars_with_object, decide_False.
    + rewrite thread_vars_with_thread_vars.
      case_decide; [naive_solver|done].
  - unfold clear_var, is_main_thread. rewrite ensure_when_initialized by done.
    rewrite Hmain. case_bool_decide as Hm.
    + by rewrite global_vars_with_object, decide_False.
    + rewrite thread_vars_with_thread_vars.
      case_decide; [naive_solver|done].
  - unfold set_formatter_impl. by rewrite global_vars_with_object, decide_False.
  - unfold clear_formatter_impl. by rewrite global_vars_with_object, decide_False.
Qed.

(** The part of the isolation law that the code keeps: calls on one
    object never change the guarded store of another object, nor the
    [thread_variables_] of the main thread or of a thread that makes
    none of the calls; such a thread's [find_var] on the other object is
    unchanged. *)
Lemma other_context_unchanged_for_quiet_threads (st : process)
    (trace : list (nat * call)) (this other m u : nat) :
  Forall (fun tc => call_object tc.2 = Some this /\ (tc.1 = u -> u = m)) trace ->
  other <> this ->
  main_thread_id_initialized_ st = true ->
  main_thread_id_ st = Some m ->
  global_vars (run st trace) other = global_vars st other
  /\ thread_vars (run st trace) u = thread_vars st u
  /\ forall name, shared_find_var u other (run st trace) name
                  = shared_find_var u other st name.
Proof.
  intros Htrace Ho Hinit Hmain.
  assert (Hboth : global_vars (run st trace) other = global_vars st other
                  /\ thread_vars (run st trace) u = thread_vars st u).
  { induction trace as [|[tid c] trace IH] using rev_ind; [done|].
    apply Forall_app in Htrace as [Htrace Htc].
    rewrite Forall_singleton in Htc. destruct Htc as [Hc Hu]. simpl in Hc, Hu.
    rewrite run_snoc. destruct (IH Htrace) as [IHg IHt].
    destruct (run_keeps_main_thread st trace Hinit) as [Rm Ri].
    rewrite Hmain in Rm.
    destruct (step_frame (run st trace) tid c this other m u Hc Ho Ri Rm Hu)
      as [-> ->].
    done. }
  destruct Hboth as [Hg Ht]. split_and!; [done..|].
  intros name. unfold shared_find_var. by rewrite Hg, Ht.
Qed.


Lemma registry_ok_start : registry_ok process_start.
Proof. intros name ctx Hl. cbn in Hl. by rewrite lookup_empty in Hl. Qed.

Lemma registry_ok_get_context (st : process) (tid : nat) (name : list ascii) :
  registry_ok st ->
  registry_ok (get_context tid name st).2
  /\ contexts_ (get_context tid name st).2 !! name = Some (get_context tid name st).1.
Proof.
  intros Hok. unfold get_context.
  destruct (contexts_ st !! name) as [ctx|] eqn:Hl; cbn [fst snd]; [done|].
  split; [|cbn; by rewrite lookup_insert_eq].
  intros n p. cbn [contexts_ with_contexts allocate snd next_object].
  rewrite lookup_insert. case_decide as Hn.
  - intros [= <-]. split; [lia|]. intros n'. rewrite lookup_insert.
    case_decide; [congruence|]. intros Hl'. apply Hok in Hl' as [? _]. lia.
  - intros Hl'. pose proof (Hok _ _ Hl') as [Hlt Hinj]. split; [lia|].
    intros n'. rewrite lookup_insert. case_decide; [|by apply Hinj].
    intros [= <-]. lia.
Qed.

Lemma registry_ok_step (st : process) (tc : nat * call) :
  registry_ok st -> registry_ok (step st tc).
Proof.
  intros Hok. destruct tc as [tid c]. destruct c; cbn [step]; try done.
  - unfold set_var, is_main_thread, registry_ok.
    case_bool_decide; cbn; by destruct (ensure_frame tid st) as (_ & _ & -> & ->).
  - unfold clear_var, is_main_thread, registry_ok.
    case_bool_decide; cbn; by destruct (ensure_frame tid st) as (_ & _ & -> & ->).
  - by apply registry_ok_get_context.
  - intros n p Hl. cbn in *. apply Hok in Hl as [Hlt Hinj]. split; [lia|done].
  - intros n p. cbn. intros Hl. apply lookup_delete_Some in Hl as [Hne Hl].
    apply Hok in Hl as [Hlt Hinj]. split; [done|].
    intros n' Hl'. apply lookup_delete_Some in Hl' as [_ Hl']. by apply Hinj.
Qed.

Lemma registry_ok_run (trace : list (nat * call)) :
  registry_ok (run process_start trace).
Proof.
  induction trace as [|tc trace IH] using rev_ind; [apply registry_ok_start|].
  rewrite run_snoc. by apply registry_ok_step.
Qed.

(** Handles obtained under different names are different objects. *)
Lemma different_names_different_objects (st : process) (t1 t2 : nat)
    (name1 name2 : list ascii) :
  registry_ok st -> name1 <> name2 ->
  let r1 := get_context t1 name1 st in
  let r2 := get_context t2 name2 r1.2 in
  r1.1 <> r2.1.
Proof.
  intros Hok Hne r1 r2.
  destruct (registry_ok_get_context st t1 name1 Hok) as [Hok1 Hl1].
  destruct (registry_ok_get_context r1.2 t2 name2 Hok1) as [Hok2 Hl2].
  fold r1 in Hl1, Hok1. fold r2 in Hl2, Hok2.
  intros Heq.
  assert (Hl1' : contexts_ r2.2 !! name1 = Some r1.1).
  { unfold r2, get_context.
    destruct (contexts_ r1.2 !! name2) eqn:Hl; cbn [snd]; [done|].
    cbn. by rewrite lookup_insert_ne. }
  rewrite Heq in Hl1'.
  destruct (Hok2 _ _ Hl2) as [_ Hinj]. by apply Hinj in Hl1'.
Qed.


End WithLibc.

(** *** Executions *)
Import ExampleLibc Scenarios.


Lemma main_thread_is_process_wide_witness :
  let st1 := step (run process_start
                     [(2%nat, CallGetSharedContext "b"); (2%nat, CallHasVar 0 "k")])
                  (1%nat, CallSetVar 0 "k" "v") in
  let after := [(2%nat, CallSetVar 0 "k" "w")] in
  main_thread_id_ st1 = Some 1%nat
  /\ main_thread_id_ (run st1 after) = Some 1%nat
  /\ main_thread_id_initialized_ (run st1 after) = true
  /\ forall other : nat,
       (is_main_thread other (run st1 after)).1 = bool_decide (other = 1%nat).
Proof.
  apply (main_thread_is_process_wide process_start
           [(2%nat, CallGetSharedContext "b"); (2%nat, CallHasVar 0 "k")]
           [(2%nat, CallSetVar 0 "k" "w")] 1 (CallSetVar 0 "k" "v"));
    [reflexivity | by repeat constructor | reflexivity].
Defined.

(** C1 as stated fails: in [two_contexts] thread 2 is the first thread
    to operate on object 1 (context "b"), yet its [set_var] on that
    object lands in its own [thread_variables_] and leaves the guarded
    store empty, while a [set_var] by thread 1, which never touched the
    object before, goes to the guarded store. Both contexts have the
    same home thread, thread 1. *)
Lemma home_thread_is_not_first_toucher :
  contexts_ two_contexts !! ("b" : list ascii) = Some 1%nat
  /\ global_vars (set_var 2 1 "k" "w" two_contexts) 1 !! ("k" : list ascii) = None
  /\ thread_vars (set_var 2 1 "k" "w" two_contexts) 2 !! ("k" : list ascii)
     = Some ("w" : list ascii)
  /\ global_vars (set_var 1 1 "k" "z" (set_var 2 1 "k" "w" two_contexts)) 1
       !! ("k" : list ascii) = Some ("z" : list ascii).
Proof. by vm_compute. Qed.

Lemma writes_go_to_one_store_witness :
  is_Some (objects two_contexts !! 1%nat)
  /\ (is_main_thread 2 two_contexts).1 = false
  /\ thread_vars (set_var 2 1 "k" "w" two_contexts) 2
     = <[("k" : list ascii) := ("w" : list ascii)]> (thread_vars two_contexts 2)
  /\ objects (set_var 2 1 "k" "w" two_contexts) = objects two_contexts.
Proof.
  assert (Hobj : is_Some (objects two_contexts !! 1%nat))
    by (apply is_Some_alt; vm_compute; exact I).
  assert (Hmain : (is_main_thread 2 two_contexts).1 = false)
    by (vm_compute; reflexivity).
  pose proof (writes_go_to_one_store two_contexts 2 1 "k" "w" Hobj) as Hw.
  cbv zeta in Hw. rewrite Hmain in Hw.
  destruct Hw as [(Hset & _ & Hobjs & _) _].
  split_and!; assumption.
Defined.

(** C2 as stated fails for formatters: a formatter set by thread 2,
    which is not the main thread, is in the guarded registry of the
    object and is seen by the main thread. *)
Lemma formatter_set_by_worker_is_global :
  (is_main_thread 2 two_contexts).1 = false
  /\ shared_has_formatter_impl 1 0 two_contexts 9 = false
  /\ shared_has_formatter_impl 1 0
       (set_formatter_impl 2 0 9 (fun _ => "YES") two_contexts) 9 = true
  /\ is_Some (global_formatters
               (set_formatter_impl 2 0 9 (fun _ => "YES") two_contexts) 0 !! 9%nat).
Proof.
  split_and!; [vm_compute; reflexivity..|].
  apply is_Some_alt. vm_compute. exact I.
Qed.

(** C3 on the code: a variable that thread 2 sets on context "a"
    (object 0) is then found by thread 2 on context "b" (object 1),
    through [has_var], [find_var] and [format] alike, because
    [thread_variables_] is one map per thread for all contexts. *)
Theorem worker_write_shows_in_other_context :
  contexts_ two_contexts !! ("a" : list ascii) = Some 0%nat
  /\ contexts_ two_contexts !! ("b" : list ascii) = Some 1%nat
  /\ shared_has_var 2 1 two_contexts "k" = false
  /\ shared_find_var 2 1 two_contexts "k" = (false, [])
  /\ shared_format 2 1 two_contexts "{k}" [] = Some ("{k}" : list ascii)
  /\ let st := set_var 2 0 "k" "v" two_contexts in
     shared_has_var 2 1 st "k" = true
     /\ shared_find_var 2 1 st "k" = (true, ("v" : list ascii))
     /\ shared_format 2 1 st "{k}" [] = Some ("v" : list ascii).
Proof. by vm_compute. Qed.



Lemma other_context_unchanged_for_quiet_threads_witness :
  global_vars (run two_contexts [(2%nat, CallSetVar 0 "k" "v")]) 1
  = global_vars two_contexts 1
  /\ thread_vars (run two_contexts [(2%nat, CallSetVar 0 "k" "v")]) 1
     = thread_vars two_contexts 1
  /\ forall name,
       shared_find_var 1 1 (run two_contexts [(2%nat, CallSetVar 0 "k" "v")]) name
       = shared_find_var 1 1 two_contexts name.
Proof.
  apply (other_context_unchanged_for_quiet_threads two_contexts
           [(2%nat, CallSetVar 0 "k" "v")] 0 1 1 1).
  - constructor; [|constructor]. split; [reflexivity|]. intros Heq. discriminate Heq.
  - discriminate.
  - vm_compute. reflexivity.
  - vm_compute. reflexivity.
Defined.

Lemma different_names_different_objects_witness :
  (get_context 1 "a" process_start).1
  <> (get_context 2 "b" (get_context 1 "a" process_start).2).1.
Proof.
  apply (different_names_different_objects process_start 1 2 "a" "b").
  - apply registry_ok_start.
  - discriminate.
Defined.


End SharedContextLaws.

(** ** The substitution engine *)
Module EngineLaws.
Import detail Engine Loops.

(** *** std::string::find *)

Lemma starts_with_prefix (pat s : list ascii) :
  starts_with pat s = true <-> exists rest, s = pat ++ rest.
Proof.
  revert s. induction pat as [|p pat IH]; intros s; simpl.
  - split; [by exists s|done].
  - destruct s as [|c s].
    + split; [done|]. by intros [rest Hr].
    + case_decide as Hpc.
      * subst c. rewrite IH. split; intros [rest Hr]; exists rest; congruence.
      * split; [done|]. intros [rest Hr]. congruence.
Qed.

Lemma starts_with_refl (pat rest : list ascii) : starts_with pat (pat ++ rest) = true.
Proof. apply starts_with_prefix. by exists rest. Qed.

Lemma starts_with_length (pat s : list ascii) :
  starts_with pat s = true -> (length pat <= length s)%nat.
Proof.
  intros [rest ->]%starts_with_prefix. rewrite length_app. lia.
Qed.

Lemma starts_with_head (p : ascii) (pat s : list ascii) :
  starts_with (p :: pat) s = true -> head s = Some p.
Proof. by intros [rest ->]%starts_with_prefix. Qed.

Lemma starts_with_short (pat g rest : list ascii) :
  (length pat <= length g)%nat ->
  starts_with pat (g ++ rest) = starts_with pat g.
Proof.
  revert g. induction pat as [|p pat IH]; intros g Hlen; [done|].
  destruct g as [|c g]; simpl in *; [lia|].
  case_decide; [|done]. apply IH. lia.
Qed.

Lemma find_first_Some (pat s : list ascii) (k : nat) :
  find_first pat s = Some k <->
  (k <= length s)%nat /\ starts_with pat (drop k s) = true
  /\ forall j, (j < k)%nat -> starts_with pat (drop j s) = false.
Proof.
  revert k. induction s as [|c s IH]; intros k.
  - cbn [find_first]. destruct (starts_with pat []) eqn:Hs.
    + split.
      * intros [= <-]. split_and!; [done|done|lia].
      * intros (Hk & _ & _). simpl in Hk. f_equal. lia.
    + split; [done|]. intros (_ & Hm & _). rewrite drop_nil in Hm. congruence.
  - cbn [find_first]. destruct (starts_with pat (c :: s)) eqn:Hs.
    + split.
      * intros [= <-]. split_and!; [simpl; lia|done|lia].
      * intros (_ & _ & Hno). destruct k as [|k]; [done|].
        specialize (Hno 0%nat ltac:(lia)). simpl in Hno. congruence.
    + destruct (find_first pat s) as [k'|] eqn:Hf; simpl.
      * pose proof (proj1 (IH k') eq_refl) as (Hk' & Hm' & Hno').
        split.
        -- intros [= <-]. split_and!; [simpl; lia|done|].
           intros [|j] Hj; [done|]. apply Hno'. lia.
        -- intros (Hk & Hm & Hno). destruct k as [|k]; [simpl in Hm; congruence|].
           f_equal. f_equal. simpl in Hm.
           destruct (Nat.lt_trichotomy k k') as [Hlt | [Heq | Hgt]]; [|done|].
           ++ rewrite Hno' in Hm by done. done.
           ++ specialize (Hno (S k') ltac:(lia)). simpl in Hno. congruence.
      * split; [done|]. intros (Hk & Hm & Hno).
        destruct k as [|k]; [simpl in Hm; congruence|].
        simpl in Hm, Hk.
        assert (Hfk : (None : option nat) = Some k); [|done].
        apply IH. split_and!; [lia|done|].
        intros j Hj. apply (Hno (S j)). lia.
Qed.

Lemma find_first_None (pat s : list ascii) :
  find_first pat s = None <-> forall j, starts_with pat (drop j s) = false.
Proof.
  induction s as [|c s IH].
  - cbn [find_first]. destruct (starts_with pat []) eqn:Hs.
    + split; [done|]. intros Hno. specialize (Hno 0%nat). simpl in Hno. congruence.
    + split; [|done]. intros _ j. by rewrite drop_nil.
  - cbn [find_first]. destruct (starts_with pat (c :: s)) eqn:Hs.
    + split; [done|]. intros Hno. specialize (Hno 0%nat). simpl in Hno. congruence.
    + destruct (find_first pat s) eqn:Hf; simpl.
      * split; [done|]. intros Hno.
        assert (Hcontra : Some n = (None : option nat)); [|done].
        apply IH. intros j. apply (Hno (S j)).
      * split; [|done]. intros _ [|j]; [done|]. simpl. by apply IH.
Qed.

Lemma find_Some (pat s : list ascii) (q p : nat) :
  pat <> [] ->
  find pat q s = Some p <->
  (q <= p)%nat /\ (p + length pat <= length s)%nat
  /\ starts_with pat (drop p s) = true
  /\ forall j, (q <= j < p)%nat -> starts_with pat (drop j s) = false.
Proof.
  intros Hpat. unfold find.
  destruct (length s <? q)%nat eqn:Hq.
  - apply Nat.ltb_lt in Hq. split; [done|].
    intros (Hqp & Hp & _). destruct pat; [done|]. simpl in Hp. lia.
  - apply Nat.ltb_ge in Hq.
    destruct (find_first pat (drop q s)) as [k|] eqn:Hf; simpl.
    + apply find_first_Some in Hf as (Hk & Hm & Hno).
      rewrite drop_drop in Hm. rewrite length_drop in Hk.
      split.
      * intros [= <-]. split_and!; [lia| |done|].
        -- apply starts_with_length in Hm. rewrite length_drop in Hm. lia.
        -- intros j Hj. specialize (Hno (j - q)%nat ltac:(lia)).
           rewrite drop_drop in Hno. by replace (q + (j - q))%nat with j in Hno by lia.
      * intros (Hqp & Hp & Hm' & Hno'). f_equal.
        destruct (Nat.lt_trichotomy (q + k) p) as [Hlt | [Heq | Hgt]]; [|done|].
        -- rewrite Hno' in Hm by lia. done.
        -- specialize (Hno (p - q)%nat ltac:(lia)). rewrite drop_drop in Hno.
           replace (q + (p - q))%nat with p in Hno by lia. congruence.
    + split; [done|]. intros (Hqp & Hp & Hm & _).
      rewrite find_first_None in Hf. specialize (Hf (p - q)%nat).
      rewrite drop_drop in Hf. replace (q + (p - q))%nat with p in Hf by lia.
      congruence.
Qed.

Lemma find_None (pat s : list ascii) (q : nat) :
  pat <> [] ->
  find pat q s = None <->
  forall j, (q <= j)%nat -> starts_with pat (drop j s) = false.
Proof.
  intros Hpat. unfold find.
  destruct (length s <? q)%nat eqn:Hq.
  - apply Nat.ltb_lt in Hq. split; [|done]. intros _ j Hj.
    rewrite drop_ge by lia. by destruct pat.
  - apply Nat.ltb_ge in Hq.
    destruct (find_first pat (drop q s)) as [k|] eqn:Hf; simpl.
    + split; [done|]. intros Hno.
      apply find_first_Some in Hf as (_ & Hm & _). rewrite drop_drop in Hm.
      rewrite Hno in Hm by lia. done.
    + split; [|done]. intros _ j Hj. rewrite find_first_None in Hf.
      specialize (Hf (j - q)%nat). rewrite drop_drop in Hf.
      by replace (q + (j - q))%nat with j in Hf by lia.
Qed.

Lemma find_shift (x pat s : list ascii) (q : nat) :
  pat <> [] ->
  find pat (length x + q) (x ++ s) = (fun k => (length x + k)%nat) <$> find pat q s.
Proof.
  intros Hpat. destruct (find pat q s) as [p|] eqn:Hf; simpl.
  - apply find_Some in Hf as (Hqp & Hp & Hm & Hno); [|done].
    apply find_Some; [done|]. split_and!.
    + lia.
    + rewrite length_app. lia.
    + by rewrite drop_app_add.
    + intros j Hj. replace j with (length x + (j - length x))%nat by lia.
      rewrite drop_app_add. apply Hno. lia.
  - rewrite find_None in Hf by done. apply find_None; [done|].
    intros j Hj. replace j with (length x + (j - length x))%nat by lia.
    rewrite drop_app_add. apply Hf. lia.
Qed.

Lemma find_jump (pat s : list ascii) (q q' : nat) :
  pat <> [] -> (q <= q')%nat ->
  (forall j, (q <= j < q')%nat -> starts_with pat (drop j s) = false) ->
  find pat q s = find pat q' s.
Proof.
  intros Hpat Hqq Hgap. destruct (find pat q' s) as [p|] eqn:Hf.
  - apply find_Some in Hf as (Hqp & Hp & Hm & Hno); [|done].
    apply find_Some; [done|]. split_and!; [lia|done|done|].
    intros j Hj. destruct (decide (j < q')%nat); [apply Hgap|apply Hno]; lia.
  - rewrite find_None in Hf by done. apply find_None; [done|].
    intros j Hj. destruct (decide (j < q')%nat); [apply Hgap|apply Hf]; lia.
Qed.

Lemma find_here (pat s : list ascii) (p : nat) :
  pat <> [] -> starts_with pat (drop p s) = true -> find pat p s = Some p.
Proof.
  intros Hpat Hm. apply find_Some; [done|].
  pose proof (starts_with_length _ _ Hm) as Hlen. rewrite length_drop in Hlen.
  assert (0 < length pat)%nat by (destruct pat; [done|simpl; lia]).
  split_and!; [lia|lia|done|]. intros j Hj. lia.
Qed.

(** *** The generic loop *)

Section Scan.
Context (pat : list ascii) (act : list ascii -> option (list ascii)).
Context (Hpat : pat <> []).

Lemma substr_shift (x s : list ascii) (p n : nat) :
  substr (x ++ s) (length x + p) n = substr s p n.
Proof. unfold substr. by rewrite drop_app_add. Qed.

Lemma replace_shift (x s t : list ascii) (p n : nat) :
  replace (x ++ s) (length x + p) n t = x ++ replace s p n t.
Proof.
  unfold replace. rewrite take_app_add.
  replace (length x + p + n)%nat with (length x + (p + n))%nat by lia.
  by rewrite drop_app_add, <- app_assoc.
Qed.

Lemma scan_shift (fuel : nat) (x s : list ascii) (q : nat) :
  scan fuel pat act (x ++ s) (length x + q) = (fun r => x ++ r) <$> scan fuel pat act s q.
Proof.
  revert s q. induction fuel as [|fuel IH]; intros s q; [done|].
  cbn [scan]. rewrite find_shift by done.
  destruct (find pat q s) as [p|]; cbn [fmap option_fmap option_map]; [|done].
  rewrite find_shift by done.
  destruct (find "}" p s) as [e|]; cbn [fmap option_fmap option_map]; [|done].
  replace (length x + e - (length x + p))%nat with (e - p)%nat by lia.
  rewrite substr_shift.
  destruct (act (substr s p (e - p + 1))) as [text|].
  - rewrite replace_shift.
    replace (length x + p + length text)%nat
      with (length x + (p + length text))%nat by lia.
    apply IH.
  - replace (length x + e + 1)%nat with (length x + (e + 1))%nat by lia.
    apply IH.
Qed.

Lemma scan_more (fuel : nat) (s : list ascii) (q : nat) (r : list ascii) :
  scan fuel pat act s q = Some r -> scan (S fuel) pat act s q = Some r.
Proof.
  revert s q. induction fuel as [|fuel IH]; intros s q; [done|].
  intros Hs. cbn [scan] in Hs. change (scan (S (S fuel)) pat act s q) with
    (match find pat q s with
     | None => Some s
     | Some pos =>
         match find "}" pos s with
         | None => Some s
         | Some endPos =>
             let span := substr s pos (endPos - pos + 1) in
             match act span with
             | Some text =>
                 scan (S fuel) pat act (replace s pos (length span) text)
                      (pos + length text)
             | None => scan (S fuel) pat act s (endPos + 1)
             end
         end
     end).
  destruct (find pat q s) as [p|]; [|done].
  destruct (find "}" p s) as [e|]; [|done].
  cbv zeta in *. destruct (act _); by apply IH.
Qed.

Lemma scan_more_le (fuel fuel' : nat) (s : list ascii) (q : nat) (r : list ascii) :
  (fuel <= fuel')%nat ->
  scan fuel pat act s q = Some r -> scan fuel' pat act s q = Some r.
Proof.
  induction 1 as [|fuel' Hle IH]; [done|]. intros Hs. by apply scan_more, IH.
Qed.

Lemma length_replace (s t : list ascii) (p n : nat) :
  (p + n <= length s)%nat ->
  length (replace s p n t) = (length s - n + length t)%nat.
Proof.
  intros Hle. unfold replace.
  rewrite !length_app, length_take, length_drop. lia.
Qed.

Lemma length_substr (s : list ascii) (p n : nat) :
  (p + n <= length s)%nat -> length (substr s p n) = n.
Proof.
  intros Hle. unfold substr. rewrite length_take, length_drop. lia.
Qed.

Lemma scan_total (fuel : nat) (s : list ascii) (q : nat) :
  (length s - q < fuel)%nat -> is_Some (scan fuel pat act s q).
Proof.
  revert s q. induction fuel as [|fuel IH]; intros s q Hfuel; [lia|].
  cbn [scan].
  destruct (find pat q s) as [p|] eqn:Hp; [|done].
  apply find_Some in Hp as (Hqp & Hpl & _); [|done].
  destruct (find "}" p s) as [e|] eqn:He; [|done].
  apply find_Some in He as (Hpe & Hel & _); [|done]. simpl in Hel.
  cbv zeta. rewrite length_substr by lia.
  destruct (act _) as [text|]; apply IH.
  - rewrite length_replace by lia. lia.
  - lia.
Qed.

Lemma scans_total (s : list ascii) (q : nat) : exists r, scans pat act s q r.
Proof.
  destruct (scan_total (S (length s)) s q ltac:(lia)) as [r Hr].
  exists r. by exists (S (length s)).
Qed.

Lemma scans_deterministic (s : list ascii) (q : nat) (r r' : list ascii) :
  scans pat act s q r -> scans pat act s q r' -> r = r'.
Proof.
  intros [f Hf] [f' Hf'].
  apply (scan_more_le f (f + f')) in Hf; [|lia].
  apply (scan_more_le f' (f + f')) in Hf'; [|lia]. congruence.
Qed.

Lemma scans_run (s r : list ascii) :
  scans pat act s 0 r -> run_loop (pat, act) s = Some r.
Proof.
  intros Hr. unfold run_loop.
  destruct (scan_total (S (length s)) s 0 ltac:(lia)) as [r' Hr'].
  cbn [fst snd]. rewrite Hr'. f_equal.
  apply (scans_deterministic s 0); [by exists (S (length s))|done].
Qed.

Lemma run_scans (s r : list ascii) :
  run_loop (pat, act) s = Some r -> scans pat act s 0 r.
Proof. intros Hr. by exists (S (length s)). Qed.

Lemma scans_exit (s : list ascii) (q : nat) :
  find pat q s = None -> scans pat act s q s.
Proof. intros Hf. exists 1%nat. cbn [scan]. by rewrite Hf. Qed.

Lemma scans_replace (s : list ascii) (q p e : nat) (text r : list ascii) :
  find pat q s = Some p -> find "}" p s = Some e ->
  act (substr s p (e - p + 1)) = Some text ->
  scans pat act (replace s p (length (substr s p (e - p + 1))) text)
        (p + length text) r ->
  scans pat act s q r.
Proof.
  intros Hp He Hact [fuel Hr]. exists (S fuel). cbn [scan].
  rewrite Hp, He. cbv zeta. by rewrite Hact.
Qed.

Lemma scans_leave (s : list ascii) (q p e : nat) (r : list ascii) :
  find pat q s = Some p -> find "}" p s = Some e ->
  act (substr s p (e - p + 1)) = None ->
  scans pat act s (e + 1) r ->
  scans pat act s q r.
Proof.
  intros Hp He Hact [fuel Hr]. exists (S fuel). cbn [scan].
  rewrite Hp, He. cbv zeta. by rewrite Hact.
Qed.

Lemma scans_shift (x s : list ascii) (q : nat) (r : list ascii) :
  scans pat act s q r -> scans pat act (x ++ s) (length x + q) (x ++ r).
Proof.
  intros [fuel Hr]. exists fuel. by rewrite scan_shift, Hr.
Qed.

Lemma scans_jump (s : list ascii) (q q' : nat) (r : list ascii) :
  find pat q s = find pat q' s ->
  scans pat act s q' r -> scans pat act s q r.
Proof.
  intros Hf [fuel Hr]. exists fuel. destruct fuel as [|fuel]; [done|].
  cbn [scan] in *. by rewrite Hf.
Qed.

End Scan.


(** *** Flat text under one loop *)

Lemma no_brace_no_open (s : list ascii) : no_brace s -> no_open s.
Proof.
  intros Hs. eapply Forall_impl; [exact Hs|]. intros c Hc Ho. apply Hc. by left.
Qed.

Lemma no_brace_elem (s : list ascii) (c : ascii) :
  no_brace s -> c ∈ s -> ~ is_brace c.
Proof. unfold no_brace. rewrite Forall_forall. auto. Qed.

Lemma no_open_app (s t : list ascii) : no_open s -> no_open t -> no_open (s ++ t).
Proof. intros. by apply Forall_app. Qed.

Lemma no_brace_app (s t : list ascii) : no_brace s -> no_brace t -> no_brace (s ++ t).
Proof. intros. by apply Forall_app. Qed.

Lemma flat_no_open (s t : list ascii) : no_open s -> flat t -> flat (s ++ t).
Proof.
  induction 1 as [|c s Hc Hs IH]; intros Ht; [done|].
  simpl. apply flat_char; [done|]. by apply IH.
Qed.

Lemma flat_app (s t : list ascii) : flat s -> flat t -> flat (s ++ t).
Proof.
  induction 1 as [|c s Hc Hs IH|body s Hb Hs IH]; intros Ht; [done| |].
  - simpl. apply flat_char; [done|]. by apply IH.
  - rewrite <- app_assoc. apply flat_group; [done|]. by apply IH.
Qed.

Lemma flat_group_alone (body : list ascii) : no_brace body -> flat (group body).
Proof.
  intros Hb. rewrite <- (app_nil_r (group body)).
  apply flat_group; [done|constructor].
Qed.

Lemma group_length (body : list ascii) : length (group body) = (length body + 2)%nat.
Proof. unfold group. simpl. rewrite length_app. simpl. lia. Qed.

Lemma group_lookup (body rest : list ascii) (j : nat) (c : ascii) :
  no_brace body -> (1 <= j < length (group body))%nat ->
  (group body ++ rest) !! j = Some c -> ~ is_open c.
Proof.
  intros Hb Hj Hl. rewrite group_length in Hj. unfold group in Hl.
  destruct j as [|j]; [lia|]. simpl in Hl.
  rewrite <- app_assoc in Hl.
  destruct (decide (j < length body)%nat) as [Hlt|Hge].
  - rewrite lookup_app_l in Hl by done.
    apply list_elem_of_lookup_2 in Hl.
    intros Ho. apply (no_brace_elem body c Hb Hl). by left.
  - rewrite lookup_app_r in Hl by lia.
    replace (j - length body)%nat with 0%nat in Hl by lia.
    simpl in Hl. injection Hl as <-. by intros Ho.
Qed.

Lemma head_drop_lookup (s : list ascii) (j : nat) : head (drop j s) = s !! j.
Proof. rewrite head_lookup, lookup_drop. f_equal. lia. Qed.

Lemma shape_nonempty (pat : list ascii) : pattern_shape pat -> pat <> [].
Proof. by intros (w & t & -> & _). Qed.

Lemma shape_head (pat s : list ascii) :
  pattern_shape pat -> starts_with pat s = true -> head s = Some "{"%char.
Proof. intros (w & t & -> & _) Hs. by apply starts_with_head in Hs. Qed.

Lemma shape_no_match (pat s : list ascii) (j : nat) (c : ascii) :
  pattern_shape pat -> s !! j = Some c -> ~ is_open c ->
  starts_with pat (drop j s) = false.
Proof.
  intros Hshape Hl Hc. destruct (starts_with pat (drop j s)) eqn:Hs; [|done].
  apply (shape_head _ _ Hshape) in Hs. rewrite head_drop_lookup, Hl in Hs.
  injection Hs as ->. by destruct Hc.
Qed.

(** A pattern of that shape matches a span or not regardless of what
    follows the span. *)
Lemma shape_group_local (pat body rest : list ascii) :
  pattern_shape pat -> no_brace body ->
  starts_with pat (group body ++ rest) = starts_with pat (group body).
Proof.
  intros (w & t & -> & Hw & Ht) Hb. unfold group. simpl.
  rewrite <- !app_assoc. simpl.
  clear -Hw Ht Hb. revert body Hb.
  induction w as [|a w IH]; intros body Hb.
  - simpl. destruct Ht as [-> | ->]; [by destruct body|].
    destruct body as [|b body]; simpl; [first [done | by case_decide]|].
    case_decide as Heq; [|done]. subst b.
    apply Forall_cons in Hb as [Hb _]. destruct Hb. by right.
  - apply Forall_cons in Hw as [Ha Hw].
    destruct body as [|b body]; simpl.
    + case_decide as Heq; [|done]. subst a. destruct Ha. by right.
    + apply Forall_cons in Hb as [_ Hb]. case_decide; [|done]. by apply IH.
Qed.

Lemma find_close_group (body rest : list ascii) :
  no_brace body ->
  find "}" 0 (group body ++ rest) = Some (length body + 1)%nat.
Proof.
  intros Hb. apply find_Some; [done|]. split_and!.
  - lia.
  - rewrite length_app, group_length. simpl. lia.
  - unfold group. simpl. rewrite <- app_assoc.
    replace (length body + 1)%nat with (S (length body)) by lia. simpl.
    rewrite drop_app_length. apply (starts_with_refl "}" rest).
  - intros j Hj.
    destruct (starts_with "}" (drop j (group body ++ rest))) eqn:Hs; [|done].
    apply starts_with_head in Hs. rewrite head_drop_lookup in Hs.
    unfold group in Hs. destruct j as [|j]; [done|]. simpl in Hs.
    rewrite <- app_assoc, lookup_app_l in Hs by lia.
    apply list_elem_of_lookup_2 in Hs.
    destruct (no_brace_elem body _ Hb Hs). by right.
Qed.

Lemma substr_group (body rest : list ascii) :
  substr (group body ++ rest) 0 (length body + 1 - 0 + 1) = group body.
Proof.
  unfold substr. rewrite drop_0.
  replace (length body + 1 - 0 + 1)%nat with (length (group body))
    by (rewrite group_length; lia).
  apply take_app_length.
Qed.

Lemma replace_group (body rest text : list ascii) :
  replace (group body ++ rest) 0 (length (group body)) text = text ++ rest.
Proof. unfold replace. by rewrite Nat.add_0_l, drop_app_length. Qed.


Section FlatScan.
Context (pat : list ascii) (act : list ascii -> option (list ascii)).
Context (Hshape : pattern_shape pat).

Lemma flat_rewrites (s : list ascii) : flat s -> exists s', rewrites pat act s s'.
Proof.
  induction 1 as [|c s Hc Hs [s' IH]|body s Hb Hs [s' IH]].
  - exists []. constructor.
  - exists (c :: s'). by constructor.
  - destruct (starts_with pat (group body)) eqn:Hm.
    + destruct (act (group body)) as [text|] eqn:Ha.
      * exists (text ++ s'). by apply rewrites_replace.
      * exists (group body ++ s'). apply rewrites_keep; [done|by right|done].
    + exists (group body ++ s'). apply rewrites_keep; [done|by left|done].
Qed.

Lemma rewrites_flat (s s' : list ascii) :
  clean_act act -> rewrites pat act s s' -> flat s'.
Proof.
  intros Hclean. induction 1 as [|c s s' Hc Hr IH|body s s' text Hb Hm Ha Hr IH
                                |body s s' Hb Hk Hr IH].
  - constructor.
  - by constructor.
  - apply flat_no_open; [|done]. by apply (Hclean (group body)).
  - by apply flat_group.
Qed.

Lemma rewrites_app (s s' t t' : list ascii) :
  rewrites pat act s s' -> rewrites pat act t t' ->
  rewrites pat act (s ++ t) (s' ++ t').
Proof.
  induction 1 as [|c s s' Hc Hr IH|body s s' text Hb Hm Ha Hr IH
                 |body s s' Hb Hk Hr IH]; intros Ht.
  - done.
  - simpl. constructor; [done|]. by apply IH.
  - rewrite <- !app_assoc. apply rewrites_replace; [done..|]. by apply IH.
  - rewrite <- !app_assoc. apply rewrites_keep; [done..|]. by apply IH.
Qed.

Lemma rewrites_group_kept (body : list ascii) :
  no_brace body -> keeps (pat, act) (group body) ->
  rewrites pat act (group body) (group body).
Proof.
  intros Hb Hk. rewrite <- (app_nil_r (group body)).
  apply rewrites_keep; [done|exact Hk|constructor].
Qed.

Lemma group_gap (body rest : list ascii) :
  no_brace body ->
  starts_with pat (group body ++ rest) = false ->
  forall j, (0 <= j < length (group body))%nat ->
            starts_with pat (drop j (group body ++ rest)) = false.
Proof.
  intros Hb Hm j Hj. destruct j as [|j]; [done|].
  destruct ((group body ++ rest) !! S j) as [c|] eqn:Hl.
  - apply (shape_no_match pat _ (S j) c Hshape Hl).
    apply (group_lookup body rest (S j) c Hb); [lia|done].
  - apply lookup_ge_None in Hl. rewrite length_app in Hl. lia.
Qed.

(** The loop, run over flat text followed by anything, rewrites the
    flat text span by span and then goes on with what follows. *)
Lemma rewrites_scans (s s' : list ascii) :
  rewrites pat act s s' ->
  forall R r, scans pat act R 0 r -> scans pat act (s ++ R) 0 (s' ++ r).
Proof.
  pose proof (shape_nonempty pat Hshape) as Hpat.
  induction 1 as [|c s s' Hc Hr IH|body s s' text Hb Hm Ha Hr IH
                 |body s s' Hb Hk Hr IH]; intros R r HR.
  - done.
  - apply (scans_jump pat act _ 0 1).
    + apply find_jump; [done|lia|]. intros j Hj.
      replace j with 0%nat by lia.
      by apply (shape_no_match pat _ 0 c Hshape).
    + apply (scans_shift pat act Hpat [c] (s ++ R) 0 (s' ++ r)). by apply IH.
  - rewrite <- !app_assoc.
    assert (Hm' : starts_with pat (drop 0 (group body ++ s ++ R)) = true)
      by (rewrite drop_0, shape_group_local; done).
    apply (scans_replace pat act _ 0 0 (length body + 1) text).
    + by apply find_here.
    + by apply find_close_group.
    + by rewrite substr_group.
    + rewrite substr_group, replace_group, (Nat.add_comm 0).
      apply (scans_shift pat act Hpat text (s ++ R) 0 (s' ++ r)). by apply IH.
  - rewrite <- !app_assoc.
    assert (Hafter : scans pat act (group body ++ s ++ R) (length (group body) + 0)
                           (group body ++ s' ++ r)).
    { apply (scans_shift pat act Hpat (group body) (s ++ R) 0 (s' ++ r)).
      by apply IH. }
    destruct (starts_with pat (group body)) eqn:Hm.
    + destruct Hk as [Hk|Hk]; [congruence|].
      assert (Hm' : starts_with pat (drop 0 (group body ++ s ++ R)) = true)
        by (rewrite drop_0, shape_group_local; done).
      apply (scans_leave pat act _ 0 0 (length body + 1)).
      * by apply find_here.
      * by apply find_close_group.
      * by rewrite substr_group.
      * rewrite group_length in Hafter.
        by replace (length body + 1 + 1)%nat with (length body + 2 + 0)%nat by lia.
    + apply (scans_jump pat act _ 0 (length (group body) + 0)); [|done].
      apply find_jump; [done|lia|]. intros j Hj.
      apply group_gap; [done| |lia].
      by rewrite shape_group_local.
Qed.

(** One loop over a template [A ++ P ++ B] with [A] flat and [P] a span
    the loop leaves alone: [A] and [B] are processed as they would be
    on their own, and [P] stays between them. *)
Lemma loop_around_kept_span (A B body : list ascii) :
  clean_act act -> flat A -> no_brace body -> keeps (pat, act) (group body) ->
  exists A' B',
    run_loop (pat, act) A = Some A' /\ flat A'
    /\ run_loop (pat, act) B = Some B'
    /\ run_loop (pat, act) (A ++ group body ++ B) = Some (A' ++ group body ++ B').
Proof.
  intros Hclean HA Hb Hk.
  pose proof (shape_nonempty pat Hshape) as Hpat.
  destruct (flat_rewrites A HA) as [A' HrA].
  destruct (scans_total pat act Hpat B 0) as [B' HB].
  exists A', B'. split_and!.
  - apply scans_run; [done|].
    assert (Hnil : find pat 0 [] = None).
    { apply find_None; [done|]. intros j _. rewrite drop_nil. by destruct pat. }
    pose proof (rewrites_scans A A' HrA [] [] (scans_exit pat act [] 0 Hnil)) as Hs.
    by rewrite !app_nil_r in Hs.
  - by apply (rewrites_flat A).
  - by apply scans_run.
  - apply scans_run; [done|].
    pose proof (rewrites_app A A' _ _ HrA (rewrites_group_kept body Hb Hk)) as Hr.
    pose proof (rewrites_scans _ _ Hr B B' HB) as Hs.
    by rewrite <- !app_assoc in Hs.
Qed.

End FlatScan.


(** *** The three loops of [format_impl] are instances of [scan] *)

Lemma find_bounds (pat s : list ascii) (q p : nat) :
  pat <> [] -> find pat q s = Some p ->
  (q <= p)%nat /\ (p + length pat <= length s)%nat.
Proof. intros Hpat Hf. apply find_Some in Hf; [|done]. tauto. Qed.

Lemma substr_of_span (s : list ascii) (p e k : nat) :
  (p <= e)%nat -> (e + 1 <= length s)%nat ->
  substr (substr s p (e - p + 1)) k (length (substr s p (e - p + 1)) - k - 1)
  = substr s (p + k) (e - p - k).
Proof.
  intros Hpe He. rewrite length_substr by lia. unfold substr.
  replace (e - p + 1 - k - 1)%nat with (e - p - k)%nat by lia.
  destruct (decide (k <= e - p + 1)%nat) as [Hk|Hk].
  - replace (e - p + 1)%nat with (k + (e - p + 1 - k))%nat at 1 by lia.
    rewrite <- take_drop_commute, take_take, drop_drop.
    f_equal. lia.
  - by replace (e - p - k)%nat with 0%nat by lia.
Qed.

Lemma replace_formatted_is_scan (fuel : nat) (formatter : list ascii -> list ascii)
    (pat s : list ascii) (q : nat) :
  pat <> [] ->
  replace_formatted fuel formatter pat s q
  = scan fuel pat (formatted_act formatter pat) s q.
Proof.
  intros Hpat. revert s q. induction fuel as [|fuel IH]; intros s q; [done|].
  cbn [replace_formatted scan].
  destruct (find pat q s) as [p|] eqn:Hp; [|done].
  destruct (find "}" p s) as [e|] eqn:He; [|done].
  apply find_bounds in He as [Hpe Hel]; [|done]. simpl in Hel.
  cbv zeta. unfold formatted_act at 1.
  rewrite substr_of_span by lia.
  apply IH.
Qed.

Lemma find_close_after_pattern (pat s : list ascii) (q p : nat) :
  closes pat -> find pat q s = Some p ->
  find "}" p s = Some (p + length pat - 1)%nat.
Proof.
  intros (w & -> & Hw) Hf.
  assert (Hne : w ++ "}" <> []) by (by destruct w).
  apply find_Some in Hf as (Hqp & Hpl & Hm & _); [|done].
  apply starts_with_prefix in Hm as [rest Hrest].
  rewrite length_app in *. simpl in *.
  replace (p + (length w + 1) - 1)%nat with (p + length w)%nat by lia.
  apply find_Some; [done|]. split_and!.
  - lia.
  - simpl. lia.
  - rewrite <- drop_drop, Hrest, <- app_assoc, drop_app_length.
    apply (starts_with_refl "}" rest).
  - intros j Hj.
    destruct (starts_with "}" (drop j s)) eqn:Hs; [|done].
    apply starts_with_head in Hs.
    replace j with (p + (j - p))%nat in Hs by lia.
    rewrite <- drop_drop, Hrest, head_drop_lookup, <- app_assoc in Hs.
    rewrite lookup_app_l in Hs by lia.
    apply list_elem_of_lookup_2 in Hs. rewrite Forall_forall in Hw.
    by destruct (Hw _ Hs).
Qed.

Lemma replace_simple_is_scan (fuel : nat) (stringValue pat s : list ascii) (q : nat) :
  closes pat ->
  replace_simple fuel stringValue pat s q
  = scan fuel pat (simple_act stringValue) s q.
Proof.
  intros Hcl.
  assert (Hpat : pat <> []) by (destruct Hcl as (w & -> & _); by destruct w).
  revert s q. induction fuel as [|fuel IH]; intros s q; [done|].
  cbn [replace_simple scan].
  destruct (find pat q s) as [p|] eqn:Hp; [|done].
  rewrite (find_close_after_pattern pat s q p Hcl Hp).
  apply find_bounds in Hp as [Hqp Hpl]; [|done].
  assert (0 < length pat)%nat by (destruct pat; [done|simpl; lia]).
  cbv zeta. unfold simple_act at 1.
  rewrite length_substr by lia.
  replace (p + length pat - 1 - p + 1)%nat with (length pat) by lia.
  apply IH.
Qed.

Lemma named_pass_is_scan `{Libc} (ctx : format_context_base) (fuel : nat)
    (s : list ascii) (q : nat) :
  named_pass ctx fuel s q = scan fuel "{" (named_act ctx) s q.
Proof.
  revert s q. induction fuel as [|fuel IH]; intros s q; [done|].
  cbn [named_pass scan].
  destruct (find "{" q s) as [p|] eqn:Hp; [|done].
  destruct (find "}" p s) as [e|] eqn:He; [|done].
  apply find_bounds in He as [Hpe Hel]; [|done]. simpl in Hel.
  cbv zeta. unfold named_act at 1. cbv zeta.
  replace (length (substr s p (e - p + 1)) - 2)%nat
    with (length (substr s p (e - p + 1)) - 1 - 1)%nat by lia.
  rewrite substr_of_span by lia.
  rewrite (length_substr s p (e - p + 1)) by lia.
  set (placeholder := substr s (p + 1) (e - p - 1)).
  destruct (empty placeholder || from_option isdigit false (head placeholder));
    [apply IH|].
  destruct (match find ":" 0 placeholder with
            | Some colonPos => _
            | None => _
            end) as [varName formatSpec].
  destruct (find_var ctx varName).1; apply IH.
Qed.


(** *** Decimal indices *)

Lemma string_of_uint_digits (d : Decimal.uint) :
  Forall (fun c => isdigit c = true)
         (String.list_ascii_of_string (NilEmpty.string_of_uint d)).
Proof. induction d; simpl; by constructor. Qed.

Lemma to_string_nat_digits (n : nat) :
  Forall (fun c => isdigit c = true) (to_string_nat n).
Proof.
  unfold to_string_nat, NilZero.string_of_uint.
  destruct (Nat.to_uint n) eqn:Hn; try (rewrite <- Hn; apply string_of_uint_digits).
  by repeat constructor.
Qed.

Lemma to_uint_nonnil (n : nat) : Nat.to_uint n <> Decimal.Nil.
Proof.
  rewrite <- (DecimalNat.Unsigned.of_to n) at 1.
  rewrite DecimalNat.Unsigned.to_of. apply DecimalFacts.unorm_nonnil.
Qed.

Lemma to_string_nat_nonempty (n : nat) : to_string_nat n <> [].
Proof.
  unfold to_string_nat, NilZero.string_of_uint.
  pose proof (to_uint_nonnil n). by destruct (Nat.to_uint n).
Qed.

Lemma to_string_nat_inj (n m : nat) : to_string_nat n = to_string_nat m -> n = m.
Proof.
  unfold to_string_nat. intros Heq.
  apply (f_equal String.string_of_list_ascii) in Heq.
  rewrite !String.string_of_list_ascii_of_string in Heq.
  apply (f_equal NilZero.uint_of_string) in Heq.
  rewrite !NilZero.usu in Heq by apply to_uint_nonnil.
  injection Heq as Heq. by apply DecimalNat.Unsigned.to_uint_inj.
Qed.

Lemma digit_not_brace (c : ascii) : isdigit c = true -> ~ is_brace c.
Proof. intros Hd [-> | ->]; discriminate Hd. Qed.

Lemma digits_no_brace (s : list ascii) :
  Forall (fun c => isdigit c = true) s -> no_brace s.
Proof.
  intros Hs. eapply Forall_impl; [exact Hs|]. intros c. apply digit_not_brace.
Qed.

(** Two decimal numbers followed by a non-digit each: if one text starts
    with the other, the numbers are the same. *)
Lemma digits_prefix_eq (dj di X : list ascii) (c c' : ascii) :
  Forall (fun a => isdigit a = true) dj ->
  Forall (fun a => isdigit a = true) di ->
  isdigit c = false -> isdigit c' = false ->
  starts_with (dj ++ [c]) (di ++ c' :: X) = true -> dj = di.
Proof.
  intros Hdj. revert di. induction Hdj as [|a dj Ha Hdj IH]; intros di Hdi Hc Hc' Hs.
  - destruct di as [|d di]; [done|]. simpl in Hs.
    apply Forall_cons in Hdi as [Hd _].
    case_decide; [|done]. congruence.
  - destruct di as [|d di]; simpl in Hs.
    + case_decide; [|done]. congruence.
    + apply Forall_cons in Hdi as [_ Hdi].
      case_decide as Heq; [|done]. subst d. f_equal. by apply IH.
Qed.

(** *** The patterns and decisions of [format_impl] *)

Lemma formatted_pattern_shape (i : nat) : pattern_shape (formatted_pattern i).
Proof.
  exists (to_string_nat i ++ ":"), []. split_and!.
  - unfold formatted_pattern. by rewrite app_nil_r.
  - apply no_brace_app; [apply digits_no_brace, to_string_nat_digits|].
    constructor; [|constructor]. by intros [|].
  - by left.
Qed.

Lemma simple_pattern_shape (i : nat) : pattern_shape (simple_pattern i).
Proof.
  exists (to_string_nat i), "}". split_and!; [done| |by right].
  apply digits_no_brace, to_string_nat_digits.
Qed.

Lemma simple_pattern_closes (i : nat) : closes (simple_pattern i).
Proof.
  exists ("{" ++ to_string_nat i). split.
  - unfold simple_pattern. by rewrite <- app_assoc.
  - constructor; [done|].
    eapply Forall_impl; [apply to_string_nat_digits|].
    intros c Hc ->. discriminate Hc.
Qed.

Lemma open_brace_shape : pattern_shape "{".
Proof. exists [], []. split_and!; [done|constructor|by left]. Qed.

Lemma formatted_act_clean (formatter : list ascii -> list ascii) (pat : list ascii) :
  (forall spec, no_open (formatter spec)) -> clean_act (formatted_act formatter pat).
Proof. intros Hf span text [= <-]. apply Hf. Qed.

Lemma simple_act_clean (stringValue : list ascii) :
  no_open stringValue -> clean_act (simple_act stringValue).
Proof. by intros Hv span text [= <-]. Qed.

Lemma named_act_clean `{Libc} (ctx : format_context_base) :
  clean_vars ctx -> clean_act (named_act ctx).
Proof.
  intros Hclean span text. unfold named_act. cbv zeta.
  destruct (empty _ || _); [done|].
  destruct (match find ":" 0 _ with Some _ => _ | None => _ end)
    as [varName formatSpec].
  destruct (find_var ctx varName) as [found v] eqn:Hfv. cbn [fst snd].
  destruct found; [|done]. intros [= <-].
  destruct (Hclean varName v Hfv) as [Hv Hspec].
  destruct (negb (empty formatSpec)); [apply Hspec|apply Hv].
Qed.


(** A positional placeholder is a span whose body starts with its index,
    followed by a non-digit. *)
Lemma placeholder_is_group (i : nat) (tail : list ascii) :
  placeholder_tail tail ->
  exists body c Y,
    "{" ++ to_string_nat i ++ tail = group body
    /\ no_brace body
    /\ (exists rest, body = to_string_nat i ++ rest)
    /\ group body = "{" ++ to_string_nat i ++ c :: Y
    /\ isdigit c = false.
Proof.
  pose proof (digits_no_brace _ (to_string_nat_digits i)) as Hd.
  intros [-> | (spec & Hspec & ->)].
  - exists (to_string_nat i), "}"%char, []. split_and!; [done|done| |done|done].
    exists []. by rewrite app_nil_r.
  - exists (to_string_nat i ++ ":" ++ spec), ":"%char, (spec ++ "}").
    split_and!.
    + unfold group. by rewrite <- !app_assoc.
    + apply no_brace_app; [done|]. apply no_brace_app; [|done].
      constructor; [|constructor]. by intros [|].
    + by exists (":" ++ spec).
    + unfold group. by rewrite <- !app_assoc.
    + done.
Qed.

Lemma index_pattern_no_match (j i : nat) (c c' : ascii) (Y : list ascii) :
  j <> i -> isdigit c = false -> isdigit c' = false ->
  starts_with ("{" ++ to_string_nat j ++ [c]) ("{" ++ to_string_nat i ++ c' :: Y) = false.
Proof.
  intros Hji Hc Hc'.
  destruct (starts_with _ _) eqn:Hs; [|done].
  simpl in Hs.
  apply digits_prefix_eq in Hs; [|apply to_string_nat_digits..|done|done].
  by apply to_string_nat_inj in Hs.
Qed.

Lemma substr_group_body (body : list ascii) :
  substr (group body) 1 (length (group body) - 2) = body.
Proof.
  rewrite group_length. unfold substr, group. simpl.
  replace (length body + 2 - 2)%nat with (length body) by lia.
  apply take_app_length.
Qed.

Lemma named_act_skips_index `{Libc} (ctx : format_context_base) (i : nat)
    (rest : list ascii) :
  named_act ctx (group (to_string_nat i ++ rest)) = None.
Proof.
  unfold named_act. cbv zeta. rewrite substr_group_body.
  pose proof (to_string_nat_digits i) as Hd.
  pose proof (to_string_nat_nonempty i) as Hne.
  destruct (to_string_nat i) as [|d ds]; [done|].
  apply Forall_cons in Hd as [Hd _]. simpl. by rewrite Hd.
Qed.

(** *** A sequence of loops *)

Lemma pipeline_app (ls1 ls2 : list loop) (s : list ascii) :
  pipeline (ls1 ++ ls2) s = pipeline ls1 s ≫= pipeline ls2.
Proof.
  revert s. induction ls1 as [|l ls1 IH]; intros s; [done|].
  simpl. destruct (run_loop l s) as [s'|]; [apply IH|done].
Qed.

Lemma pipeline_around_kept_span (ls : list loop) (body : list ascii) :
  no_brace body -> Forall (good_loop (group body)) ls ->
  forall A B, flat A ->
  exists A' B',
    pipeline ls A = Some A' /\ flat A'
    /\ pipeline ls B = Some B'
    /\ pipeline ls (A ++ group body ++ B) = Some (A' ++ group body ++ B').
Proof.
  intros Hb. induction 1 as [|[pat act] ls (Hshape & Hclean & Hk) Hls IH];
    intros A B HA.
  - by exists A, B.
  - destruct (loop_around_kept_span pat act Hshape A B body Hclean HA Hb Hk)
      as (A1 & B1 & HrA & HfA & HrB & Hr).
    destruct (IH A1 B1 HfA) as (A' & B' & HpA & HfA' & HpB & Hp).
    exists A', B'. cbn [pipeline]. rewrite HrA, HrB, Hr. by simpl.
Qed.

Lemma positional_pass_is_pipeline (i : nat)
    (formattedArgs : list (list ascii * (list ascii -> list ascii))) (s : list ascii) :
  positional_pass i formattedArgs s = pipeline (positional_loops i formattedArgs) s.
Proof.
  revert i s. induction formattedArgs as [|arg rest IH]; intros i s; [done|].
  cbn [positional_pass positional_loops pipeline]. unfold run_loop. cbn [fst snd].
  change ("{" ++ to_string_nat i ++ ":") with (formatted_pattern i).
  change ("{" ++ to_string_nat i ++ "}") with (simple_pattern i).
  rewrite replace_formatted_is_scan
    by apply shape_nonempty, formatted_pattern_shape.
  destruct (scan _ _ _ s 0) as [r1|]; [|done]. cbn [mbind option_bind].
  rewrite replace_simple_is_scan by apply simple_pattern_closes.
  destruct (scan _ _ _ r1 0) as [r2|]; [|done]. cbn [mbind option_bind]. apply IH.
Qed.

Lemma format_impl_is_pipeline `{Libc} (ctx : format_context_base)
    (template_str : list ascii) (args : list value) :
  format_impl ctx template_str args
  = pipeline (positional_loops 0 (add_args_to_vector ctx args) ++ [named_loop ctx])
             template_str.
Proof.
  unfold format_impl. rewrite positional_pass_is_pipeline, pipeline_app.
  destruct (pipeline _ template_str) as [r|]; [|done]. cbn [mbind option_bind pipeline].
  unfold run_loop, named_loop. cbn [fst snd].
  rewrite named_pass_is_scan. by destruct (scan _ _ _ r 0).
Qed.

(** No loop runs out of iterations. *)
Lemma pipeline_total (ls : list loop) (s : list ascii) :
  Forall (fun l : loop => l.1 <> []) ls -> is_Some (pipeline ls s).
Proof.
  intros Hls. revert s. induction Hls as [|[pat act] ls Hpat Hls IH]; intros s; [done|].
  cbn [pipeline]. unfold run_loop. cbn [fst snd].
  destruct (scan_total pat act Hpat (S (length s)) s 0 ltac:(lia)) as [s' ->].
  simpl. apply IH.
Qed.

Lemma positional_loops_nonempty (i : nat)
    (formattedArgs : list (list ascii * (list ascii -> list ascii))) :
  Forall (fun l : loop => l.1 <> []) (positional_loops i formattedArgs).
Proof.
  revert i. induction formattedArgs as [|arg rest IH]; intros i; [constructor|].
  cbn [positional_loops]. repeat constructor; [done|done|apply IH].
Qed.

(** The loops of [format_impl] end, whatever the template, the
    arguments and the context are: every iteration moves the scan
    position strictly towards the end of the result, so a loop over a
    text of n characters makes at most n + 1 iterations, and with
    rendering calls that return the call returns. A rendering call that
    does not return, such as [snprintf] on a spec that is no conversion
    specification for its argument, is outside this statement. *)
Theorem format_impl_total `{Libc} (ctx : format_context_base)
    (template_str : list ascii) (args : list value) :
  is_Some (format_impl ctx template_str args).
Proof.
  rewrite format_impl_is_pipeline. apply pipeline_total.
  apply Forall_app. split; [apply positional_loops_nonempty|].
  by repeat constructor.
Qed.


(** *** Rendered text that opens no brace *)

Lemma no_open_take (s : list ascii) (n : nat) : no_open s -> no_open (take n s).
Proof. apply Forall_take. Qed.

Lemma no_open_fill (n : nat) : no_open (fill n " ").
Proof. unfold fill. apply Forall_replicate. by intros Ho. Qed.

Lemma apply_string_formatting_no_open (value formatSpec : list ascii) :
  no_open value -> no_open (apply_string_formatting value formatSpec).
Proof.
  intros Hv. unfold apply_string_formatting.
  destruct (empty formatSpec); [done|].
  set (ps := parse_string_spec formatSpec).
  assert (Ht : no_open (truncate_value value (maxLen ps))).
  { unfold truncate_value. destruct (_ && _); [|done].
    destruct (_ <=? _); rewrite substr_0; [by apply no_open_take|].
    apply no_open_app; [by apply no_open_take|].
    repeat constructor; by intros Ho. }
  unfold justify. destruct (_ || _); [done|]. cbv zeta.
  destruct (leftJustified ps); [|destruct (centerJustified ps)];
    repeat apply no_open_app; try done; apply no_open_fill.
Qed.

Lemma positional_loops_good (P : list ascii) (i i0 : nat) (c : ascii) (Y : list ascii)
    (formattedArgs : list (list ascii * (list ascii -> list ascii))) :
  P = "{" ++ to_string_nat i ++ c :: Y -> isdigit c = false ->
  clean_args formattedArgs ->
  (i0 + length formattedArgs <= i)%nat ->
  Forall (good_loop P) (positional_loops i0 formattedArgs).
Proof.
  intros -> Hc Hclean. revert i0.
  induction Hclean as [|arg rest [Hdefault Hspec] Hrest IH]; intros i0 Hi;
    [constructor|].
  cbn [positional_loops]. simpl in Hi.
  constructor; [|constructor; [|apply IH; lia]].
  - split_and!; cbn [fst snd].
    + apply formatted_pattern_shape.
    + by apply formatted_act_clean.
    + left. cbn [fst]. apply (index_pattern_no_match i0 i ":"%char c Y); [lia|done..].
  - split_and!; cbn [fst snd].
    + apply simple_pattern_shape.
    + by apply simple_act_clean.
    + left. cbn [fst]. apply (index_pattern_no_match i0 i "}"%char c Y); [lia|done..].
Qed.

(** *** Spans and what takes their place *)

Lemma spans_flat (P : list ascii -> Prop) (s : list ascii) : spans P s -> flat s.
Proof. induction 1; by constructor. Qed.

Lemma spans_no_open (P : list ascii -> Prop) (t s : list ascii) :
  no_open t -> spans P s -> spans P (t ++ s).
Proof. induction 1; [done|]. intros Hs. simpl. constructor; [done|]. by apply IHForall. Qed.

Section SpansScan.
Context (pat : list ascii) (act : list ascii -> option (list ascii)).
Context (Hshape : pattern_shape pat).
Context (P : list ascii -> Prop).
Context (Hclean : forall body, no_brace body -> P body -> clean_for (pat, act) body).

Lemma spans_rewrites (s : list ascii) :
  spans P s -> exists s', rewrites pat act s s' /\ spans P s'.
Proof.
  induction 1 as [|c s Hc Hs (s' & Hr & Hs')|body s Hb HP Hs (s' & Hr & Hs')].
  - exists []. split; constructor.
  - exists (c :: s'). split; by constructor.
  - destruct (starts_with pat (group body)) eqn:Hm.
    + destruct (act (group body)) as [text|] eqn:Ha.
      * exists (text ++ s'). split; [by apply rewrites_replace|].
        apply spans_no_open; [|done]. by apply (Hclean body Hb HP Hm).
      * exists (group body ++ s'). split; [|by constructor].
        apply rewrites_keep; [done|by right|done].
    + exists (group body ++ s'). split; [|by constructor].
      apply rewrites_keep; [done|by left|done].
Qed.

Lemma loop_around_kept_span_where (A B body : list ascii) :
  spans P A -> no_brace body -> keeps (pat, act) (group body) ->
  exists A' B',
    run_loop (pat, act) A = Some A' /\ spans P A'
    /\ run_loop (pat, act) B = Some B'
    /\ run_loop (pat, act) (A ++ group body ++ B) = Some (A' ++ group body ++ B').
Proof.
  intros HA Hb Hk.
  pose proof (shape_nonempty pat Hshape) as Hpat.
  destruct (spans_rewrites A HA) as (A' & HrA & HsA).
  destruct (scans_total pat act Hpat B 0) as [B' HB].
  exists A', B'. split_and!; [|done| |].
  - apply scans_run; [done|].
    assert (Hnil : find pat 0 [] = None).
    { apply find_None; [done|]. intros j _. rewrite drop_nil. by destruct pat. }
    pose proof (rewrites_scans pat act Hshape A A' HrA [] []
                  (scans_exit pat act [] 0 Hnil)) as Hs.
    by rewrite !app_nil_r in Hs.
  - by apply scans_run.
  - apply scans_run; [done|].
    pose proof (rewrites_app pat act A A' _ _ HrA
                  (rewrites_group_kept pat act body Hb Hk)) as Hr.
    pose proof (rewrites_scans pat act Hshape _ _ Hr B B' HB) as Hs.
    by rewrite <- !app_assoc in Hs.
Qed.

End SpansScan.

Lemma pipeline_around_kept_span_where (P : list ascii -> Prop) (ls : list loop)
    (body : list ascii) :
  no_brace body ->
  Forall (fun l : loop =>
            pattern_shape l.1
            /\ (forall b, no_brace b -> P b -> clean_for l b)
            /\ keeps l (group body)) ls ->
  forall A B, spans P A ->
  exists A' B',
    pipeline ls A = Some A' /\ spans P A'
    /\ pipeline ls B = Some B'
    /\ pipeline ls (A ++ group body ++ B) = Some (A' ++ group body ++ B').
Proof.
  intros Hb. induction 1 as [|[pat act] ls (Hshape & Hclean & Hk) Hls IH];
    intros A B HA.
  - by exists A, B.
  - destruct (loop_around_kept_span_where pat act Hshape P Hclean A B body HA Hb Hk)
      as (A1 & B1 & HrA & HsA & HrB & Hr).
    destruct (IH A1 B1 HsA) as (A' & B' & HpA & HsA' & HpB & Hp).
    exists A', B'. cbn [pipeline]. rewrite HrA, HrB, Hr. by simpl.
Qed.

(** A span that the pattern of [{j:spec}] matches has the body [j:spec],
    and one that the pattern of [{j}] matches has the body [j]. *)
Lemma formatted_pattern_match (j : nat) (body : list ascii) :
  starts_with (formatted_pattern j) (group body) = true ->
  exists spec, body = to_string_nat j ++ ":" ++ spec.
Proof.
  intros Hm. apply starts_with_prefix in Hm as [rest Hrest].
  unfold formatted_pattern, group in Hrest. rewrite <- !app_assoc in Hrest.
  apply app_inv_head in Hrest.
  destruct rest as [|c rest _] using rev_ind.
  - rewrite app_nil_r in Hrest.
    change (":" : list ascii) with [":"%char] in Hrest.
    change ("}" : list ascii) with ["}"%char] in Hrest.
    apply app_inj_tail in Hrest as [_ Hc]. discriminate Hc.
  - exists rest. rewrite !app_assoc in Hrest.
    change ("}" : list ascii) with ["}"%char] in Hrest.
    apply app_inj_tail in Hrest as [Hbody _]. by rewrite <- app_assoc in Hbody.
Qed.

Lemma simple_pattern_match (j : nat) (body : list ascii) :
  no_brace body ->
  starts_with (simple_pattern j) (group body) = true ->
  body = to_string_nat j.
Proof.
  intros Hb Hm. apply starts_with_prefix in Hm as [rest Hrest].
  unfold simple_pattern, group in Hrest. rewrite <- !app_assoc in Hrest.
  apply app_inv_head in Hrest.
  destruct rest as [|c rest _] using rev_ind.
  - rewrite app_nil_r in Hrest.
    change ("}" : list ascii) with ["}"%char] in Hrest.
    by apply app_inj_tail in Hrest as [Hbody _].
  - exfalso. rewrite !app_assoc in Hrest.
    change ("}" : list ascii) with ["}"%char] in Hrest.
    apply app_inj_tail in Hrest as [Hbody _].
    apply (no_brace_elem body "}"%char Hb); [|by right].
    rewrite Hbody. rewrite !elem_of_app. left. right. apply elem_of_cons. by left.
Qed.

Lemma formatted_act_spec (formatter : list ascii -> list ascii) (i : nat)
    (spec : list ascii) :
  formatted_act formatter (formatted_pattern i)
                (group (to_string_nat i ++ ":" ++ spec))
  = Some (formatter spec).
Proof.
  unfold formatted_act. f_equal. f_equal.
  replace (group (to_string_nat i ++ ":" ++ spec))
    with (formatted_pattern i ++ spec ++ "}")
    by (unfold group, formatted_pattern; by rewrite <- !app_assoc).
  generalize (formatted_pattern i). intros pat.
  unfold substr. rewrite drop_app_length, !length_app.
  change (length ("}" : list ascii)) with 1%nat.
  replace (length pat + (length spec + 1) - length pat - 1)%nat
    with (length spec) by lia.
  apply take_app_length.
Qed.

(** The loops of pass 1 for the arguments from number [i0] on: each has
    a pattern of the expected shape, inserts for a span what
    [clean_placeholder] speaks of, and leaves alone a placeholder whose
    index is beyond the last argument. *)
Lemma positional_loops_where `{Libc} (ctx : format_context_base) (args : list value)
    (kept : list ascii) (i : nat) (c : ascii) (Y : list ascii) :
  kept = "{" ++ to_string_nat i ++ c :: Y -> isdigit c = false ->
  forall (rest : list value) (i0 : nat),
    (forall k arg, rest !! k = Some arg -> args !! (i0 + k)%nat = Some arg) ->
    (i0 + length rest <= i)%nat ->
    Forall (fun l : loop =>
              pattern_shape l.1
              /\ (forall b, no_brace b -> clean_placeholder ctx args b -> clean_for l b)
              /\ keeps l kept)
           (positional_loops i0 (add_args_to_vector ctx rest)).
Proof.
  intros -> Hc rest. induction rest as [|arg rest IH]; intros i0 Hargs Hi;
    [constructor|].
  cbn [add_args_to_vector map positional_loops]. simpl in Hi.
  assert (Harg : args !! i0 = Some arg)
    by (rewrite <- (Nat.add_0_r i0); by apply Hargs).
  constructor; [|constructor].
  - split_and!; cbn [fst snd].
    + apply formatted_pattern_shape.
    + intros b Hb (_ & Hspec & _) Hm text Ha. cbn [fst snd] in Hm, Ha.
      destruct (formatted_pattern_match i0 b Hm) as [spec ->].
      rewrite formatted_act_spec in Ha. injection Ha as <-.
      by apply (Hspec i0 arg spec).
    + left. apply (index_pattern_no_match i0 i ":"%char c Y); [lia|done..].
  - split_and!; cbn [fst snd].
    + apply simple_pattern_shape.
    + intros b Hb (Hdefault & _ & _) Hm text Ha. cbn [fst snd] in Hm, Ha.
      injection Ha as <-. apply (Hdefault i0 arg Harg).
      by apply simple_pattern_match.
    + left. apply (index_pattern_no_match i0 i "}"%char c Y); [lia|done..].
  - apply (IH (S i0)); [|lia]. intros k a Hk.
    replace (S i0 + k)%nat with (i0 + S k)%nat by lia. by apply Hargs.
Qed.

(** What [clean_placeholder] asks of each kind of span. *)
Lemma digits_then_colon (j j' : nat) (x y : list ascii) :
  to_string_nat j ++ ":" ++ x = to_string_nat j' ++ ":" ++ y -> j = j' /\ x = y.
Proof.
  intros Heq.
  assert (Hs : starts_with (to_string_nat j ++ [":"%char])
                           (to_string_nat j' ++ ":"%char :: y) = true).
  { change (to_string_nat j' ++ ":"%char :: y) with (to_string_nat j' ++ ":" ++ y).
    rewrite <- Heq.
    change (to_string_nat j ++ ":" ++ x) with (to_string_nat j ++ [":"%char] ++ x).
    rewrite app_assoc. apply starts_with_refl. }
  apply digits_prefix_eq in Hs; [|apply to_string_nat_digits..|done|done].
  rewrite Hs in Heq. apply app_inv_head in Heq. injection Heq as ->.
  split; [by apply to_string_nat_inj|done].
Qed.

Lemma digits_have_no_colon (j j' : nat) (spec : list ascii) :
  to_string_nat j <> to_string_nat j' ++ ":" ++ spec.
Proof.
  intros Heq. pose proof (to_string_nat_digits j) as Hd. rewrite Heq in Hd.
  apply Forall_app in Hd as [_ Hd]. by apply Forall_cons in Hd as [Hd _].
Qed.

Lemma clean_placeholder_index `{Libc} (ctx : format_context_base)
    (args : list value) (j : nat) :
  (forall arg, args !! j = Some arg -> no_open (add_arg ctx arg).1) ->
  clean_placeholder ctx args (to_string_nat j).
Proof.
  intros Hj. split_and!.
  - intros j' arg Harg Heq. apply to_string_nat_inj in Heq as <-. by apply Hj.
  - intros j' arg spec _ Heq. by apply digits_have_no_colon in Heq.
  - intros text. rewrite <- (app_nil_r (to_string_nat j)).
    by rewrite named_act_skips_index.
Qed.

Lemma clean_placeholder_spec `{Libc} (ctx : format_context_base)
    (args : list value) (j : nat) (spec : list ascii) :
  (forall arg, args !! j = Some arg -> no_open ((add_arg ctx arg).2 spec)) ->
  clean_placeholder ctx args (to_string_nat j ++ ":" ++ spec).
Proof.
  intros Hj. split_and!.
  - intros j' arg _ Heq. symmetry in Heq. by apply digits_have_no_colon in Heq.
  - intros j' arg spec' Harg Heq. apply digits_then_colon in Heq as [<- <-].
    by apply Hj.
  - intros text. by rewrite named_act_skips_index.
Qed.

Lemma clean_placeholder_name `{Libc} (ctx : format_context_base)
    (args : list value) (body : list ascii) :
  from_option isdigit false (head body) = false ->
  (forall text, named_act ctx (group body) = Some text -> no_open text) ->
  clean_placeholder ctx args body.
Proof.
  intros Hhead Hnamed.
  assert (Hno : forall j rest, body <> to_string_nat j ++ rest).
  { intros j rest ->. pose proof (to_string_nat_digits j) as Hd.
    pose proof (to_string_nat_nonempty j) as Hne.
    destruct (to_string_nat j) as [|d ds]; [done|].
    apply Forall_cons in Hd as [Hd _]. cbn in Hhead. congruence. }
  split_and!; [| |done].
  - intros j arg _ Heq. exfalso. apply (Hno j []). by rewrite app_nil_r.
  - intros j arg spec _ Heq. exfalso. by apply (Hno j (":" ++ spec)).
Qed.

(** When nothing that substitution can insert opens a brace, every span
    of a flat text is clean. *)
Lemma clean_everywhere `{Libc} (ctx : format_context_base) (args : list value)
    (A : list ascii) :
  flat A -> clean_args (add_args_to_vector ctx args) -> clean_vars ctx ->
  spans (clean_placeholder ctx args) A.
Proof.
  intros HA Hargs Hvars.
  assert (Harg : forall j arg, args !! j = Some arg ->
            no_open (add_arg ctx arg).1 /\ forall spec, no_open ((add_arg ctx arg).2 spec)).
  { intros j arg Hj. unfold clean_args in Hargs. rewrite Forall_forall in Hargs.
    apply (Hargs (add_arg ctx arg)). unfold add_args_to_vector.
    apply list_elem_of_fmap. exists arg. split; [done|].
    by apply list_elem_of_lookup_2 in Hj. }
  induction HA as [|c s Hc Hs IH|body s Hb Hs IH]; [constructor|by constructor|].
  constructor; [done| |done]. split_and!.
  - intros j arg Hj _. by apply (Harg j arg).
  - intros j arg spec Hj _. by apply (Harg j arg).
  - intros text. by apply named_act_clean.
Qed.




(** *** Text inserted by pass 1 under pass 2 *)

Lemma rewrites_no_open (pat : list ascii) (act : list ascii -> option (list ascii))
    (s : list ascii) : no_open s -> rewrites pat act s s.
Proof. induction 1; by constructor. Qed.

Lemma run_loop_rewrites (pat : list ascii) (act : list ascii -> option (list ascii))
    (s s' : list ascii) :
  pattern_shape pat -> rewrites pat act s s' -> run_loop (pat, act) s = Some s'.
Proof.
  intros Hshape Hr. pose proof (shape_nonempty pat Hshape) as Hpat.
  apply scans_run; [done|].
  assert (Hnil : find pat 0 [] = None).
  { apply find_None; [done|]. intros j _. rewrite drop_nil. by destruct pat. }
  pose proof (rewrites_scans pat act Hshape s s' Hr [] []
                (scans_exit pat act [] 0 Hnil)) as Hs.
  by rewrite !app_nil_r in Hs.
Qed.

Lemma find_absent (c : ascii) (s : list ascii) : c ∉ s -> find [c] 0 s = None.
Proof.
  intros Hc. apply find_None; [done|]. intros j _.
  destruct (starts_with [c] (drop j s)) eqn:Hs; [|done].
  apply starts_with_head in Hs. rewrite head_drop_lookup in Hs.
  by apply list_elem_of_lookup_2 in Hs.
Qed.

Lemma named_act_variable `{Libc} (ctx : format_context_base) (name : list ascii) :
  variable_name name ->
  named_act ctx (group name)
  = if (find_var ctx name).1 then Some (find_var ctx name).2 else None.
Proof.
  intros (Hne & Hdigit & _ & Hcolon). unfold named_act. cbv zeta.
  rewrite substr_group_body, empty_false, Hdigit by done. cbn [orb].
  pose proof (find_absent ":"%char name Hcolon) as Hf.
  change [":"%char] with (":" : list ascii) in Hf. by rewrite Hf.
Qed.

(** C4, as the code has it: pass 2 scans the whole result of pass 1,
    the text pass 1 inserted included. When the argument for [{0}]
    renders as a named placeholder [{name}], in a template with no
    other opening brace, the inserted text reaches the output verbatim
    only if the context does not define the name; if it does, pass 2
    replaces the inserted text by the value of the variable. *)
Theorem named_pass_rescans_inserted_text `{Libc} (ctx : format_context_base)
    (X Y name : list ascii) (arg : value) :
  no_open X -> no_open Y ->
  variable_name name ->
  (add_arg ctx arg).1 = group name ->
  format_impl ctx (X ++ "{0}" ++ Y) [arg]
  = Some (X ++ (if (find_var ctx name).1 then (find_var ctx name).2 else group name)
            ++ Y).
Proof.
  intros HX HY Hname Harg.
  pose proof Hname as (_ & _ & Hbrace & _).
  rewrite format_impl_is_pipeline.
  cbn [add_args_to_vector map positional_loops app pipeline].
  rewrite Harg.
  rewrite (run_loop_rewrites _ _ (X ++ "{0}" ++ Y) (X ++ group "0" ++ Y)).
  2: apply formatted_pattern_shape.
  2: { apply rewrites_app; [by apply rewrites_no_open|].
       apply (rewrites_keep _ _ "0" Y Y);
         [by repeat constructor; intros [|]|by left|].
       by apply rewrites_no_open. }
  cbn [mbind option_bind].
  rewrite (run_loop_rewrites _ _ (X ++ group "0" ++ Y) (X ++ group name ++ Y)).
  2: apply simple_pattern_shape.
  2: { apply rewrites_app; [by apply rewrites_no_open|].
       apply (rewrites_replace _ _ "0" Y Y (group name));
         [by repeat constructor; intros [|]|done|done|].
       by apply rewrites_no_open. }
  cbn [mbind option_bind]. unfold named_loop.
  rewrite (run_loop_rewrites _ _ (X ++ group name ++ Y)
             (X ++ (if (find_var ctx name).1
                    then (find_var ctx name).2 else group name) ++ Y)).
  2: apply open_brace_shape.
  2: { apply rewrites_app; [by apply rewrites_no_open|].
       pose proof (named_act_variable ctx name Hname) as Hact.
       destruct (find_var ctx name).1.
       - apply rewrites_replace; [done|done|done|by apply rewrites_no_open].
       - apply rewrites_keep; [done|by right|by apply rewrites_no_open]. }
  done.
Qed.


(** *** Executions *)
Import Contexts ExampleLibc Scenarios.


Lemma internal_context_clean_vars : clean_vars internal_context.
Proof. intros name v Hfv. discriminate Hfv. Qed.

Lemma string_argument_clean `{Libc} (ctx : format_context_base) (s : list ascii) :
  has_formatter_impl ctx (type_of (VCString s)) = false ->
  no_open s -> clean_args (add_args_to_vector ctx [VCString s]).
Proof.
  intros Hno Hs. constructor; [|constructor].
  unfold add_arg, Engine.to_string. cbn [fst snd]. rewrite Hno.
  split; [done|]. intros spec. by apply apply_string_formatting_no_open.
Qed.



Lemma named_pass_rescans_inserted_text_witness :
  local_format alice ("Hi " ++ "{0}" ++ "!") [VCString "{name}"]
  = Some ("Hi " ++ (if (find_var (local_base alice) "name").1
                    then (find_var (local_base alice) "name").2
                    else group "name") ++ "!")
  /\ (find_var (local_base alice) "name") = (true, ("Alice" : list ascii)).
Proof.
  split; [|vm_compute; reflexivity].
  apply (named_pass_rescans_inserted_text (local_base alice) "Hi " "!" "name"
           (VCString "{name}")).
  - repeat constructor; by intros Ho.
  - repeat constructor; by intros Ho.
  - split_and!; [done|reflexivity|repeat constructor; by intros [|]|].
    intros Hin.
    repeat (apply elem_of_cons in Hin as [Hin|Hin]; [discriminate Hin|]).
    by apply elem_of_nil in Hin.
  - vm_compute. reflexivity.
Defined.

(** C4 as stated fails: the argument renders as [{name}], the context
    defines [name], and the output holds the variable's value instead
    of the inserted text. *)
Lemma inserted_placeholder_is_substituted :
  local_format alice "{0}" [VCString "{name}"] = Some ("Alice" : list ascii).
Proof. vm_compute. reflexivity. Qed.


End EngineLaws.

(** ** The substitution engine on well-formed templates *)
Module TemplateLaws.
Import detail Engine Loops EngineLaws.

(** *** The loops of one call *)

Lemma positional_loops_shape (i : nat)
    (formattedArgs : list (list ascii * (list ascii -> list ascii))) :
  Forall (fun l : loop => pattern_shape l.1) (positional_loops i formattedArgs).
Proof.
  revert i. induction formattedArgs as [|arg rest IH]; intros i; [constructor|].
  cbn [positional_loops].
  constructor; [apply formatted_pattern_shape|].
  constructor; [apply simple_pattern_shape|apply IH].
Qed.

Lemma format_loops_shape `{Libc} (ctx : format_context_base)
    (formattedArgs : list (list ascii * (list ascii -> list ascii))) :
  Forall (fun l : loop => pattern_shape l.1)
         (positional_loops 0 formattedArgs ++ [named_loop ctx]).
Proof.
  apply Forall_app. split; [apply positional_loops_shape|].
  constructor; [apply open_brace_shape|constructor].
Qed.

Lemma positional_loops_clean (i : nat)
    (formattedArgs : list (list ascii * (list ascii -> list ascii))) :
  clean_args formattedArgs ->
  Forall (fun l : loop => clean_act l.2) (positional_loops i formattedArgs).
Proof.
  intros Hclean. revert i.
  induction Hclean as [|arg rest [Hdefault Hspec] Hrest IH]; intros i; [constructor|].
  cbn [positional_loops].
  constructor; [by apply formatted_act_clean|].
  constructor; [by apply simple_act_clean|apply IH].
Qed.

Lemma positional_loops_app (i : nat)
    (l1 l2 : list (list ascii * (list ascii -> list ascii))) :
  positional_loops i (l1 ++ l2)
  = positional_loops i l1 ++ positional_loops (i + length l1) l2.
Proof.
  revert i. induction l1 as [|arg l1 IH]; intros i.
  - simpl. by rewrite Nat.add_0_r.
  - cbn [positional_loops app length]. rewrite IH.
    by replace (S i + length l1)%nat with (i + S (length l1))%nat by lia.
Qed.

(** *** Text without an opening brace *)

Lemma pipeline_no_open (ls : list loop) (s : list ascii) :
  Forall (fun l : loop => pattern_shape l.1) ls ->
  no_open s -> pipeline ls s = Some s.
Proof.
  intros Hls Hs. induction Hls as [|[pat act] ls Hshape Hls IH]; [done|].
  cbn [pipeline].
  rewrite (run_loop_rewrites pat act s s Hshape (rewrites_no_open pat act s Hs)).
  apply IH.
Qed.

(** A template without an opening brace comes back unchanged, whatever
    the context and the arguments are. *)
Theorem format_without_open_brace `{Libc} (ctx : format_context_base)
    (template_str : list ascii) (args : list value) :
  no_open template_str ->
  format_impl ctx template_str args = Some template_str.
Proof.
  intros Hs. rewrite format_impl_is_pipeline.
  by apply pipeline_no_open; [apply format_loops_shape|].
Qed.

(** *** Concatenation *)

Lemma loop_app_flat (pat : list ascii) (act : list ascii -> option (list ascii))
    (A B : list ascii) :
  pattern_shape pat -> clean_act act -> flat A ->
  exists A' B',
    run_loop (pat, act) A = Some A' /\ flat A'
    /\ run_loop (pat, act) B = Some B'
    /\ run_loop (pat, act) (A ++ B) = Some (A' ++ B').
Proof.
  intros Hshape Hclean HA.
  pose proof (shape_nonempty pat Hshape) as Hpat.
  destruct (flat_rewrites pat act A HA) as [A' HrA].
  destruct (scans_total pat act Hpat B 0) as [B' HB].
  exists A', B'. split_and!.
  - by apply run_loop_rewrites.
  - by apply (rewrites_flat pat act A).
  - by apply scans_run.
  - apply scans_run; [done|]. by apply rewrites_scans.
Qed.

Lemma pipeline_app_flat (ls : list loop) :
  Forall (fun l : loop => pattern_shape l.1) ls ->
  Forall (fun l : loop => clean_act l.2) ls ->
  forall A B, flat A ->
  exists A' B',
    pipeline ls A = Some A' /\ flat A'
    /\ pipeline ls B = Some B'
    /\ pipeline ls (A ++ B) = Some (A' ++ B').
Proof.
  intros Hshape. induction Hshape as [|[pat act] ls Hs Hls IH]; intros Hclean A B HA.
  - by exists A, B.
  - apply Forall_cons in Hclean as [Hc Hclean].
    destruct (loop_app_flat pat act A B Hs Hc HA) as (A1 & B1 & HrA & HfA & HrB & Hr).
    destruct (IH Hclean A1 B1 HfA) as (A' & B' & HpA & HfA' & HpB & Hp).
    exists A', B'. cbn [pipeline]. rewrite HrA, HrB, Hr. by simpl.
Qed.

(** Formatting distributes over concatenation: when the first part is
    flat and nothing that substitution inserts contains an opening
    brace, the result for [A ++ B] is the result for [A] followed by the
    result for [B]. *)
Theorem format_of_concatenation `{Libc} (ctx : format_context_base)
    (args : list value) (A B : list ascii) :
  flat A ->
  clean_args (add_args_to_vector ctx args) ->
  clean_vars ctx ->
  exists A' B',
    format_impl ctx A args = Some A'
    /\ format_impl ctx B args = Some B'
    /\ format_impl ctx (A ++ B) args = Some (A' ++ B').
Proof.
  intros HA Hargs Hvars.
  set (ls := positional_loops 0 (add_args_to_vector ctx args) ++ [named_loop ctx]).
  assert (Hclean : Forall (fun l : loop => clean_act l.2) ls).
  { apply Forall_app. split; [by apply positional_loops_clean|].
    constructor; [by apply named_act_clean|constructor]. }
  destruct (pipeline_app_flat ls (format_loops_shape ctx _) Hclean A B HA)
    as (A' & B' & HpA & _ & HpB & Hp).
  exists A', B'. by rewrite !format_impl_is_pipeline.
Qed.

(** *** Text after the last closing brace *)

Lemma starts_with_char (c : ascii) (s : list ascii) (j : nat) :
  starts_with [c] (drop j s) = true <-> s !! j = Some c.
Proof.
  rewrite <- head_drop_lookup. split.
  - apply starts_with_head.
  - destruct (drop j s) as [|d rest]; [done|]. intros [= ->]. simpl.
    by rewrite decide_True.
Qed.

Lemma find_app_Some (pat s Y : list ascii) (q p : nat) :
  pat <> [] -> find pat q s = Some p -> find pat q (s ++ Y) = Some p.
Proof.
  intros Hpat Hf. apply find_Some in Hf as (Hqp & Hpl & Hm & Hno); [|done].
  apply find_Some; [done|]. split_and!.
  - done.
  - rewrite length_app. lia.
  - rewrite drop_app_le by lia. apply starts_with_prefix in Hm as [rest ->].
    rewrite <- app_assoc. apply starts_with_refl.
  - intros j Hj. rewrite drop_app_le by lia.
    rewrite starts_with_short; [by apply Hno|]. rewrite length_drop. lia.
Qed.

Lemma find_close_app_None (s Y : list ascii) (p : nat) :
  "}"%char ∉ Y -> find "}" p s = None -> find "}" p (s ++ Y) = None.
Proof.
  intros HY Hf. rewrite find_None in Hf by done. apply find_None; [done|].
  intros j Hj.
  destruct (starts_with "}" (drop j (s ++ Y))) eqn:Hs; [|done].
  apply (starts_with_char "}"%char) in Hs.
  destruct (decide (j < length s)%nat) as [Hlt|Hge].
  - rewrite lookup_app_l in Hs by done.
    apply (starts_with_char "}"%char) in Hs.
    specialize (Hf j Hj). change ["}"%char] with ("}" : list ascii) in Hs.
    congruence.
  - rewrite lookup_app_r in Hs by lia. by apply list_elem_of_lookup_2 in Hs.
Qed.

Lemma shape_inner_not_close (pat : list ascii) (k : nat) (c : ascii) :
  pattern_shape pat -> (k + 1 < length pat)%nat -> pat !! k = Some c ->
  c <> "}"%char.
Proof.
  intros (w & t & -> & Hw & Ht) Hk Hl.
  destruct k as [|k]; [by injection Hl as <-|].
  simpl in Hl, Hk. rewrite length_app in Hk.
  destruct (decide (k < length w)%nat) as [Hlt|Hge].
  - rewrite lookup_app_l in Hl by done. apply list_elem_of_lookup_2 in Hl.
    intros ->. apply (no_brace_elem w _ Hw Hl). by right.
  - destruct Ht as [-> | ->]; simpl in Hk; lia.
Qed.

Lemma starts_with_lookup (pat s : list ascii) (k : nat) (c : ascii) :
  starts_with pat s = true -> pat !! k = Some c -> s !! k = Some c.
Proof.
  intros [rest ->]%starts_with_prefix Hl. by apply lookup_app_l_Some.
Qed.

(** A match that reaches beyond [s] cannot be closed when what follows
    [s] has no closing brace. *)
Lemma straddling_match_unclosed (pat s Y : list ascii) (q p : nat) :
  pattern_shape pat -> "}"%char ∉ Y ->
  find pat q s = None -> find pat q (s ++ Y) = Some p ->
  find "}" p (s ++ Y) = None.
Proof.
  intros Hshape HY Hs Hf.
  pose proof (shape_nonempty pat Hshape) as Hpat.
  rewrite find_None in Hs by done.
  apply find_Some in Hf as (Hqp & Hpl & Hm & _); [|done].
  assert (Hlong : (length s < p + length pat)%nat).
  { destruct (decide (length s < p + length pat)%nat) as [|Hle]; [done|].
    rewrite drop_app_le, starts_with_short in Hm by (rewrite ?length_drop; lia).
    rewrite Hs in Hm by done. done. }
  apply find_None; [done|]. intros j Hj.
  destruct (starts_with "}" (drop j (s ++ Y))) eqn:Hc; [|done].
  apply (starts_with_char "}"%char) in Hc.
  destruct (decide (j < length s)%nat) as [Hlt|Hge].
  - assert (Hk : is_Some (pat !! (j - p)%nat)) by (apply lookup_lt_is_Some; lia).
    destruct Hk as [c Hk].
    pose proof (starts_with_lookup _ _ _ _ Hm Hk) as Hl.
    rewrite lookup_drop in Hl. replace (p + (j - p))%nat with j in Hl by lia.
    assert (c = "}"%char) by congruence. subst c.
    by destruct (shape_inner_not_close pat (j - p) "}"%char Hshape ltac:(lia) Hk).
  - rewrite lookup_app_r in Hc by lia. by apply list_elem_of_lookup_2 in Hc.
Qed.

Lemma substr_app_l (s Y : list ascii) (p n : nat) :
  (p + n <= length s)%nat -> substr (s ++ Y) p n = substr s p n.
Proof.
  intros Hle. unfold substr. rewrite drop_app_le by lia.
  apply take_app_le. rewrite length_drop. lia.
Qed.

Lemma replace_app_l (s Y t : list ascii) (p n : nat) :
  (p + n <= length s)%nat -> replace (s ++ Y) p n t = replace s p n t ++ Y.
Proof.
  intros Hle. unfold replace.
  rewrite take_app_le, drop_app_le by lia. by rewrite <- !app_assoc.
Qed.

Lemma scan_app_tail (pat : list ascii) (act : list ascii -> option (list ascii))
    (Y : list ascii) :
  pattern_shape pat -> "}"%char ∉ Y ->
  forall fuel s q r,
    scan fuel pat act s q = Some r -> scan fuel pat act (s ++ Y) q = Some (r ++ Y).
Proof.
  intros Hshape HY. pose proof (shape_nonempty pat Hshape) as Hpat.
  induction fuel as [|fuel IH]; intros s q r; [done|].
  cbn [scan].
  destruct (find pat q s) as [p|] eqn:Hp.
  - rewrite (find_app_Some pat s Y q p Hpat Hp).
    destruct (find "}" p s) as [e|] eqn:He.
    + rewrite (find_app_Some "}" s Y p e ltac:(done) He).
      apply find_bounds in He as [Hpe Hel]; [|done]. simpl in Hel.
      cbv zeta. rewrite (substr_app_l s Y p (e - p + 1)) by lia.
      destruct (act (substr s p (e - p + 1))) as [text|].
      * rewrite replace_app_l by (rewrite length_substr; lia). apply IH.
      * apply IH.
    + rewrite (find_close_app_None s Y p HY He). by intros [= <-].
  - intros [= <-].
    destruct (find pat q (s ++ Y)) as [p|] eqn:Hp'; [|done].
    by rewrite (straddling_match_unclosed pat s Y q p Hshape HY Hp Hp').
Qed.

Lemma pipeline_app_tail (ls : list loop) (Y : list ascii) :
  Forall (fun l : loop => pattern_shape l.1) ls -> "}"%char ∉ Y ->
  forall s, pipeline ls (s ++ Y) = (fun r => r ++ Y) <$> pipeline ls s.
Proof.
  intros Hls HY. induction Hls as [|[pat act] ls Hshape Hls IH]; intros s; [done|].
  cbn [pipeline]. pose proof (shape_nonempty pat Hshape) as Hpat.
  destruct (scans_total pat act Hpat s 0) as [r Hr].
  rewrite (scans_run pat act Hpat s r Hr).
  assert (Hr' : scans pat act (s ++ Y) 0 (r ++ Y)).
  { destruct Hr as [fuel Hr]. exists fuel. by apply scan_app_tail. }
  rewrite (scans_run pat act Hpat _ _ Hr'). cbn [mbind option_bind]. apply IH.
Qed.

(** Text after the last closing brace is never touched: if [Y] contains
    no closing brace, formatting [A ++ Y] gives the result for [A]
    followed by [Y] as it is. In particular a template without any
    closing brace comes back unchanged. *)
Theorem format_keeps_unclosed_tail `{Libc} (ctx : format_context_base)
    (args : list value) (A Y : list ascii) :
  "}"%char ∉ Y ->
  format_impl ctx (A ++ Y) args = (fun r => r ++ Y) <$> format_impl ctx A args.
Proof.
  intros HY. rewrite !format_impl_is_pipeline.
  by apply pipeline_app_tail; [apply format_loops_shape|].
Qed.


(** *** One placeholder between brace-free text *)

Lemma run_loop_keeps (pat : list ascii) (act : list ascii -> option (list ascii))
    (X body Y : list ascii) :
  pattern_shape pat -> keeps (pat, act) (group body) ->
  no_open X -> no_brace body -> no_open Y ->
  run_loop (pat, act) (X ++ group body ++ Y) = Some (X ++ group body ++ Y).
Proof.
  intros Hshape Hk HX Hb HY. apply run_loop_rewrites; [done|].
  apply rewrites_app; [by apply rewrites_no_open|].
  apply rewrites_keep; [done|exact Hk|by apply rewrites_no_open].
Qed.

Lemma run_loop_replaces (pat : list ascii) (act : list ascii -> option (list ascii))
    (X body Y text : list ascii) :
  pattern_shape pat ->
  starts_with pat (group body) = true -> act (group body) = Some text ->
  no_open X -> no_brace body -> no_open Y ->
  run_loop (pat, act) (X ++ group body ++ Y) = Some (X ++ text ++ Y).
Proof.
  intros Hshape Hm Ha HX Hb HY. apply run_loop_rewrites; [done|].
  apply rewrites_app; [by apply rewrites_no_open|].
  apply rewrites_replace; [done..|by apply rewrites_no_open].
Qed.

Lemma pipeline_all_keep (ls : list loop) (X body Y : list ascii) :
  Forall (fun l : loop => pattern_shape l.1 /\ keeps l (group body)) ls ->
  no_open X -> no_brace body -> no_open Y ->
  pipeline ls (X ++ group body ++ Y) = Some (X ++ group body ++ Y).
Proof.
  intros Hls HX Hb HY. induction Hls as [|[pat act] ls [Hshape Hk] Hls IH]; [done|].
  cbn [pipeline]. by rewrite run_loop_keeps.
Qed.

Lemma positional_loops_keep (P : list ascii) (i i0 : nat) (c : ascii) (Y : list ascii)
    (formattedArgs : list (list ascii * (list ascii -> list ascii))) :
  P = "{" ++ to_string_nat i ++ c :: Y -> isdigit c = false ->
  (i0 + length formattedArgs <= i)%nat ->
  Forall (fun l : loop => pattern_shape l.1 /\ keeps l P)
         (positional_loops i0 formattedArgs).
Proof.
  intros -> Hc. revert i0.
  induction formattedArgs as [|arg rest IH]; intros i0 Hi; [constructor|].
  cbn [positional_loops]. simpl in Hi.
  constructor; [|constructor; [|apply IH; lia]].
  - split; [apply formatted_pattern_shape|]. left. cbn [fst].
    apply (index_pattern_no_match i0 i ":"%char c Y); [lia|done..].
  - split; [apply simple_pattern_shape|]. left. cbn [fst].
    apply (index_pattern_no_match i0 i "}"%char c Y); [lia|done..].
Qed.

Lemma name_is_no_index (j : nat) (c : ascii) (body : list ascii) :
  body <> [] -> from_option isdigit false (head body) = false ->
  starts_with ("{" ++ to_string_nat j ++ [c]) (group body) = false.
Proof.
  intros Hne Hd. pose proof (to_string_nat_digits j) as Hj.
  pose proof (to_string_nat_nonempty j) as Hjn.
  destruct (to_string_nat j) as [|d ds]; [done|].
  destruct body as [|b body]; [done|].
  apply Forall_cons in Hj as [Hdig _]. simpl in Hd. unfold group. simpl.
  case_decide as Heq; [|done]. subst b. congruence.
Qed.

Lemma positional_loops_keep_name (body : list ascii) (i0 : nat)
    (formattedArgs : list (list ascii * (list ascii -> list ascii))) :
  body <> [] -> from_option isdigit false (head body) = false ->
  Forall (fun l : loop => pattern_shape l.1 /\ keeps l (group body))
         (positional_loops i0 formattedArgs).
Proof.
  intros Hne Hd. revert i0.
  induction formattedArgs as [|arg rest IH]; intros i0; [constructor|].
  cbn [positional_loops].
  constructor; [|constructor; [|apply IH]].
  - split; [apply formatted_pattern_shape|]. left. cbn [fst].
    by apply (name_is_no_index i0 ":"%char).
  - split; [apply simple_pattern_shape|]. left. cbn [fst].
    by apply (name_is_no_index i0 "}"%char).
Qed.

Lemma same_index_other_tail (d Y : list ascii) (c c' : ascii) :
  c <> c' -> starts_with (d ++ [c]) (d ++ c' :: Y) = false.
Proof.
  intros Hc. induction d as [|a d IH]; simpl.
  - by rewrite decide_False.
  - by rewrite decide_True.
Qed.

Lemma add_arg_default `{Libc} (ctx : format_context_base) (arg : value) :
  (add_arg ctx arg).1 = Engine.to_string ctx arg.
Proof. unfold add_arg, Engine.to_string. cbn [fst]. by case_match. Qed.

(** The loops of a call whose argument number [i] is [arg]: those of the
    arguments before it, its own two, those of the arguments after it,
    and the named loop. *)
Lemma format_loops_split `{Libc} (ctx : format_context_base) (args : list value)
    (i : nat) (arg : value) :
  args !! i = Some arg ->
  exists before after,
    positional_loops 0 (add_args_to_vector ctx args) ++ [named_loop ctx]
    = positional_loops 0 before
      ++ [(formatted_pattern i, formatted_act (add_arg ctx arg).2 (formatted_pattern i));
          (simple_pattern i, simple_act (add_arg ctx arg).1)]
      ++ (positional_loops (S i) after ++ [named_loop ctx])
    /\ length before = i.
Proof.
  intros Hi. unfold add_args_to_vector.
  assert (Hl : map (add_arg ctx) args !! i = Some (add_arg ctx arg))
    by (by rewrite list_lookup_fmap, Hi).
  exists (take i (map (add_arg ctx) args)), (drop (S i) (map (add_arg ctx) args)).
  assert (Hlen : length (take i (map (add_arg ctx) args)) = i).
  { rewrite length_take. apply lookup_lt_Some in Hl. lia. }
  split; [|done].
  rewrite <- (take_drop_middle _ _ _ Hl) at 1.
  rewrite positional_loops_app, Hlen. cbn [positional_loops Nat.add].
  by rewrite <- !app_assoc.
Qed.

Lemma pipeline_placeholder_default `{Libc} (ctx : format_context_base)
    (args : list value) (i : nat) (arg : value) (X Y : list ascii) :
  args !! i = Some arg ->
  no_open X -> no_open Y ->
  no_open (add_arg ctx arg).1 ->
  pipeline (positional_loops 0 (add_args_to_vector ctx args) ++ [named_loop ctx])
           (X ++ group (to_string_nat i) ++ Y)
  = Some (X ++ (add_arg ctx arg).1 ++ Y).
Proof.
  intros Hi HX HY Hv.
  pose proof (digits_no_brace _ (to_string_nat_digits i)) as Hd.
  destruct (format_loops_split ctx args i arg Hi) as (before & after & -> & Hlen).
  rewrite pipeline_app.
  rewrite (pipeline_all_keep _ X (to_string_nat i) Y); [|
    apply (positional_loops_keep _ i 0 "}"%char []); [done|done|lia] |done..].
  cbn [mbind option_bind app pipeline].
  rewrite run_loop_keeps; [|apply formatted_pattern_shape| |done..].
  2: { left. cbn [fst]. unfold formatted_pattern, group. simpl.
       by apply (same_index_other_tail (to_string_nat i) []). }
  cbn [mbind option_bind].
  rewrite (run_loop_replaces _ _ X (to_string_nat i) Y (add_arg ctx arg).1);
    [|apply simple_pattern_shape| |done..].
  2: { unfold simple_pattern, group. rewrite <- (app_nil_r (_ ++ _ ++ _)) at 2.
       apply starts_with_refl. }
  cbn [mbind option_bind].
  apply pipeline_no_open.
  - apply Forall_app. split; [apply positional_loops_shape|].
    constructor; [apply open_brace_shape|constructor].
  - by repeat apply no_open_app.
Qed.

(** A placeholder [{i}] whose index is in range, between brace-free
    text, is replaced by the default rendering of argument [i], provided
    that rendering contains no opening brace. *)
Theorem positional_placeholder_default `{Libc} (ctx : format_context_base)
    (args : list value) (i : nat) (arg : value) (X Y : list ascii) :
  args !! i = Some arg ->
  no_open X -> no_open Y ->
  no_open (Engine.to_string ctx arg) ->
  format_impl ctx (X ++ "{" ++ to_string_nat i ++ "}" ++ Y) args
  = Some (X ++ Engine.to_string ctx arg ++ Y).
Proof.
  intros Hi HX HY Hv. rewrite format_impl_is_pipeline.
  replace (X ++ "{" ++ to_string_nat i ++ "}" ++ Y)
    with (X ++ group (to_string_nat i) ++ Y)
    by (unfold group; by rewrite <- !app_assoc).
  rewrite <- add_arg_default in Hv |- *.
  by apply pipeline_placeholder_default.
Qed.


Lemma colon_spec_no_brace (d spec : list ascii) :
  no_brace d -> no_brace spec -> no_brace (d ++ ":" ++ spec).
Proof.
  intros Hd Hspec. apply no_brace_app; [done|]. apply no_brace_app; [|done].
  constructor; [|constructor]. by intros [|].
Qed.

Lemma pipeline_placeholder_with_spec `{Libc} (ctx : format_context_base)
    (args : list value) (i : nat) (arg : value) (X Y spec : list ascii) :
  args !! i = Some arg ->
  no_open X -> no_open Y -> no_brace spec ->
  no_open ((add_arg ctx arg).2 spec) ->
  pipeline (positional_loops 0 (add_args_to_vector ctx args) ++ [named_loop ctx])
           (X ++ group (to_string_nat i ++ ":" ++ spec) ++ Y)
  = Some (X ++ (add_arg ctx arg).2 spec ++ Y).
Proof.
  intros Hi HX HY Hspec Hv.
  pose proof (colon_spec_no_brace _ spec
                (digits_no_brace _ (to_string_nat_digits i)) Hspec) as Hbody.
  destruct (format_loops_split ctx args i arg Hi) as (before & after & -> & Hlen).
  rewrite pipeline_app.
  rewrite (pipeline_all_keep _ X _ Y); [| |done..].
  2: { apply (positional_loops_keep _ i 0 ":"%char (spec ++ "}")); [|done|lia].
       unfold group. by rewrite <- !app_assoc. }
  cbn [mbind option_bind app pipeline].
  rewrite (run_loop_replaces _ _ X _ Y ((add_arg ctx arg).2 spec));
    [|apply formatted_pattern_shape| |apply formatted_act_spec|done..].
  2: { replace (group (to_string_nat i ++ ":" ++ spec))
         with (formatted_pattern i ++ spec ++ "}")
         by (unfold group, formatted_pattern; by rewrite <- !app_assoc).
       apply starts_with_refl. }
  cbn [mbind option_bind].
  apply (pipeline_no_open (_ :: _)).
  - constructor; [apply simple_pattern_shape|].
    apply Forall_app. split; [apply positional_loops_shape|].
    constructor; [apply open_brace_shape|constructor].
  - by repeat apply no_open_app.
Qed.

(** A placeholder [{i:spec}] whose index is in range, between brace-free
    text, is replaced by what the formatter of argument [i] returns for
    exactly the text between the colon and the closing brace, provided
    that text contains no opening brace. *)
Theorem positional_placeholder_with_spec `{Libc} (ctx : format_context_base)
    (args : list value) (i : nat) (arg : value) (X Y spec : list ascii) :
  args !! i = Some arg ->
  no_open X -> no_open Y -> no_brace spec ->
  no_open ((add_arg ctx arg).2 spec) ->
  format_impl ctx (X ++ "{" ++ to_string_nat i ++ ":" ++ spec ++ "}" ++ Y) args
  = Some (X ++ (add_arg ctx arg).2 spec ++ Y).
Proof.
  intros Hi HX HY Hspec Hv. rewrite format_impl_is_pipeline.
  replace (X ++ "{" ++ to_string_nat i ++ ":" ++ spec ++ "}" ++ Y)
    with (X ++ group (to_string_nat i ++ ":" ++ spec) ++ Y)
    by (unfold group; by rewrite <- !app_assoc).
  by apply pipeline_placeholder_with_spec.
Qed.

Lemma find_first_char (c : ascii) (name rest : list ascii) :
  c ∉ name -> find [c] 0 (name ++ c :: rest) = Some (length name).
Proof.
  intros Hc. apply find_Some; [done|]. split_and!.
  - lia.
  - rewrite length_app. simpl. lia.
  - apply starts_with_char. by rewrite list_lookup_middle.
  - intros j Hj. destruct (starts_with [c] (drop j (name ++ c :: rest))) eqn:Hs;
      [|done].
    apply starts_with_char in Hs. rewrite lookup_app_l in Hs by lia.
    by apply list_elem_of_lookup_2 in Hs.
Qed.

Lemma named_act_with_spec `{Libc} (ctx : format_context_base)
    (name spec : list ascii) :
  variable_name name ->
  named_act ctx (group (name ++ ":" ++ spec))
  = if (find_var ctx name).1
    then Some (apply_format (find_var ctx name).2 spec) else None.
Proof.
  intros (Hne & Hdigit & _ & Hcolon). unfold named_act. cbv zeta.
  rewrite substr_group_body.
  assert (Hempty : empty (name ++ ":" ++ spec) = false) by (by destruct name).
  assert (Hhead : head (name ++ ":" ++ spec) = head name) by (by destruct name).
  rewrite Hempty, Hhead, Hdigit. cbn [orb].
  pose proof (find_first_char ":"%char name spec Hcolon) as Hf.
  change [":"%char] with (":" : list ascii) in Hf.
  change (name ++ ":" ++ spec) with (name ++ ":"%char :: spec).
  rewrite Hf. unfold substr, substr_from. rewrite drop_0, take_app_length.
  assert (Hdrop : drop (length name + 1) (name ++ ":"%char :: spec) = spec).
  { rewrite cons_middle, app_assoc. apply drop_app_length'.
    rewrite length_app. simpl. lia. }
  rewrite Hdrop. destruct (find_var ctx name).1; [|done].
  f_equal. by destruct spec.
Qed.

(** The span of a named placeholder passes the loops of pass 1 and is
    decided by the loop of pass 2. *)
Lemma pipeline_named `{Libc} (ctx : format_context_base)
    (formattedArgs : list (list ascii * (list ascii -> list ascii)))
    (body X Y : list ascii) :
  body <> [] -> from_option isdigit false (head body) = false ->
  no_brace body -> no_open X -> no_open Y ->
  pipeline (positional_loops 0 formattedArgs ++ [named_loop ctx])
           (X ++ group body ++ Y)
  = Some (X ++ default (group body) (named_act ctx (group body)) ++ Y).
Proof.
  intros Hne Hdigit Hbody HX HY. rewrite pipeline_app.
  rewrite (pipeline_all_keep _ X body Y);
    [|by apply positional_loops_keep_name|done..].
  cbn [mbind option_bind pipeline]. unfold named_loop.
  destruct (named_act ctx (group body)) as [text|] eqn:Hact; cbn [default from_option].
  - by rewrite (run_loop_replaces _ _ X body Y text);
      [|apply open_brace_shape|done..].
  - by rewrite run_loop_keeps; [|apply open_brace_shape|right|done..].
Qed.

(** A placeholder [{name}] between brace-free text, whatever the
    arguments: replaced by the value of the variable when the context
    defines it, left as it is when not. *)
Theorem named_placeholder `{Libc} (ctx : format_context_base)
    (args : list value) (name X Y : list ascii) :
  variable_name name ->
  no_open X -> no_open Y ->
  format_impl ctx (X ++ "{" ++ name ++ "}" ++ Y) args
  = Some (X ++ (if (find_var ctx name).1 then (find_var ctx name).2
                else "{" ++ name ++ "}") ++ Y).
Proof.
  intros Hname HX HY. pose proof Hname as (Hne & Hdigit & Hbrace & _).
  rewrite format_impl_is_pipeline.
  replace (X ++ "{" ++ name ++ "}" ++ Y) with (X ++ group name ++ Y)
    by (unfold group; by rewrite <- !app_assoc).
  rewrite pipeline_named by done.
  rewrite (named_act_variable ctx name Hname).
  by destruct (find_var ctx name).1.
Qed.

(** A placeholder [{name:spec}] between brace-free text: when the
    context defines the variable it is replaced by [apply_format] of
    the stored text and the spec, and left as it is when not. *)
Theorem named_placeholder_with_spec `{Libc} (ctx : format_context_base)
    (args : list value) (name spec X Y : list ascii) :
  variable_name name -> no_brace spec ->
  no_open X -> no_open Y ->
  format_impl ctx (X ++ "{" ++ name ++ ":" ++ spec ++ "}" ++ Y) args
  = Some (X ++ (if (find_var ctx name).1
                then apply_format (find_var ctx name).2 spec
                else "{" ++ name ++ ":" ++ spec ++ "}") ++ Y).
Proof.
  intros Hname Hspec HX HY. pose proof Hname as (Hne & Hdigit & Hbrace & _).
  rewrite format_impl_is_pipeline.
  replace (X ++ "{" ++ name ++ ":" ++ spec ++ "}" ++ Y)
    with (X ++ group (name ++ ":" ++ spec) ++ Y)
    by (unfold group; by rewrite <- !app_assoc).
  replace ("{" ++ name ++ ":" ++ spec ++ "}") with (group (name ++ ":" ++ spec))
    by (unfold group; by rewrite <- !app_assoc).
  rewrite pipeline_named;
    [|by destruct name|by destruct name|by apply colon_spec_no_brace|done..].
  rewrite (named_act_with_spec ctx name spec Hname).
  by destruct (find_var ctx name).1.
Qed.


(** *** No arguments and no variables *)

Lemma scan_inert (fuel : nat) (pat : list ascii)
    (act : list ascii -> option (list ascii)) (s : list ascii) (q : nat)
    (r : list ascii) :
  (forall span, act span = None) ->
  scan fuel pat act s q = Some r -> r = s.
Proof.
  intros Hact. revert q. induction fuel as [|fuel IH]; intros q; cbn [scan]; [done|].
  destruct (find pat q s) as [p|]; [|congruence].
  destruct (find "}" p s) as [e|]; [|congruence].
  rewrite Hact. apply IH.
Qed.

Lemma named_act_undefined `{Libc} (ctx : format_context_base) :
  (forall name, (find_var ctx name).1 = false) ->
  forall span, named_act ctx span = None.
Proof.
  intros Hnone span. unfold named_act. cbv zeta.
  destruct (empty _ || _); [done|].
  destruct (find ":" 0 _); by rewrite Hnone.
Qed.

(** Without arguments, and in a context that defines no variable, every
    template comes back unchanged, whatever braces it contains. *)
Theorem format_without_arguments_or_variables `{Libc} (ctx : format_context_base)
    (template_str : list ascii) :
  (forall name, (find_var ctx name).1 = false) ->
  format_impl ctx template_str [] = Some template_str.
Proof.
  intros Hnone. unfold format_impl, add_args_to_vector.
  cbn [map positional_pass mbind option_bind]. rewrite named_pass_is_scan.
  destruct (scan_total "{" (named_act ctx) (shape_nonempty _ open_brace_shape)
              (S (length template_str)) template_str 0 ltac:(lia)) as [r Hr].
  rewrite Hr. f_equal.
  by apply (scan_inert _ _ _ _ _ _ (named_act_undefined ctx Hnone) Hr).
Qed.


(** *** Executions *)
Import Contexts ExampleLibc Scenarios.

Ltac brace_free :=
  repeat constructor; first [by intros [|] | by intros ?].

Ltac not_in_text :=
  let Hin := fresh in
  intros Hin;
  repeat (apply elem_of_cons in Hin as [Hin|Hin]; [discriminate Hin|]);
  by apply elem_of_nil in Hin.

Lemma name_is_variable_name : variable_name "name".
Proof. split_and!; [done|reflexivity|brace_free|not_in_text]. Qed.

Lemma format_without_open_brace_witness :
  format_impl internal_context "No placeholders here" [VCString "unused"]
  = Some ("No placeholders here" : list ascii).
Proof.
  apply (format_without_open_brace internal_context "No placeholders here"
           [VCString "unused"]).
  brace_free.
Defined.

Lemma format_of_concatenation_witness :
  exists A' B',
    format_impl internal_context "Hello {0}, " [VCString "Bob"] = Some A'
    /\ format_impl internal_context "bye {0}" [VCString "Bob"] = Some B'
    /\ format_impl internal_context ("Hello {0}, " ++ "bye {0}") [VCString "Bob"]
       = Some (A' ++ B').
Proof.
  apply (format_of_concatenation internal_context [VCString "Bob"]
           "Hello {0}, " "bye {0}").
  - apply (flat_no_open "Hello " (group "0" ++ ", ")); [brace_free|].
    apply flat_group; [brace_free|]. apply (flat_no_open ", " []); [brace_free|].
    constructor.
  - apply string_argument_clean; [reflexivity|brace_free].
  - apply internal_context_clean_vars.
Defined.

Lemma format_keeps_unclosed_tail_witness :
  format_impl internal_context ("{0}: incomplete " ++ "{0 placeholder")
              [VCString "test"]
  = (fun r => r ++ "{0 placeholder")
      <$> format_impl internal_context "{0}: incomplete " [VCString "test"].
Proof.
  apply (format_keeps_unclosed_tail internal_context [VCString "test"]
           "{0}: incomplete " "{0 placeholder").
  not_in_text.
Defined.

Lemma positional_placeholder_default_witness :
  format_impl internal_context
    ("User Alice has " ++ "{" ++ to_string_nat 1 ++ "}" ++ " messages")
    [VCString "Alice"; VInteger KInt 5]
  = Some ("User Alice has "
          ++ Engine.to_string internal_context (VInteger KInt 5) ++ " messages").
Proof.
  apply (positional_placeholder_default internal_context
           [VCString "Alice"; VInteger KInt 5] 1 (VInteger KInt 5)
           "User Alice has " " messages");
    [reflexivity|brace_free|brace_free|].
  vm_compute. brace_free.
Defined.

Lemma positional_placeholder_with_spec_witness :
  format_impl internal_context
    ("Name: '" ++ "{" ++ to_string_nat 0 ++ ":" ++ "-6" ++ "}" ++ "'")
    [VCString "Bob"]
  = Some ("Name: '" ++ (add_arg internal_context (VCString "Bob")).2 "-6" ++ "'").
Proof.
  apply (positional_placeholder_with_spec internal_context [VCString "Bob"] 0
           (VCString "Bob") "Name: '" "'" "-6");
    [reflexivity|brace_free|brace_free|brace_free|].
  vm_compute. brace_free.
Defined.

Lemma named_placeholder_witness :
  format_impl (local_base alice) ("Hello " ++ "{" ++ "name" ++ "}" ++ "!") []
  = Some ("Hello "
          ++ (if (find_var (local_base alice) "name").1
              then (find_var (local_base alice) "name").2
              else "{" ++ "name" ++ "}") ++ "!").
Proof.
  apply (named_placeholder (local_base alice) [] "name" "Hello " "!");
    [apply name_is_variable_name|brace_free|brace_free].
Defined.

Lemma named_placeholder_with_spec_witness :
  format_impl (local_base alice)
    ("Name: '" ++ "{" ++ "name" ++ ":" ++ "-10" ++ "}" ++ "'") []
  = Some ("Name: '"
          ++ (if (find_var (local_base alice) "name").1
              then apply_format (find_var (local_base alice) "name").2 "-10"
              else "{" ++ "name" ++ ":" ++ "-10" ++ "}") ++ "'").
Proof.
  apply (named_placeholder_with_spec (local_base alice) [] "name" "-10"
           "Name: '" "'");
    [apply name_is_variable_name|brace_free|brace_free|brace_free].
Defined.

Lemma format_without_arguments_or_variables_witness :
  format_impl internal_context "{0} and {name}: {" []
  = Some ("{0} and {name}: {" : list ascii).
Proof.
  apply (format_without_arguments_or_variables internal_context "{0} and {name}: {").
  intros name. reflexivity.
Defined.

(** The values of the executions above. *)
Lemma template_examples :
  format_impl internal_context "User Alice has {1} messages"
              [VCString "Alice"; VInteger KInt 5]
  = Some ("User Alice has 5 messages" : list ascii)
  /\ format_impl internal_context "Name: '{0:-6}'" [VCString "Bob"]
     = Some ("Name: 'Bob   '" : list ascii)
  /\ format_impl (local_base alice) "Hello {name}!" []
     = Some ("Hello Alice!" : list ascii)
  /\ format_impl (local_base alice) "Name: '{name:-10}'" []
     = Some ("Name: 'Alice     '" : list ascii)
  /\ format_impl internal_context "{0}: incomplete {0 placeholder" [VCString "test"]
     = Some ("test: incomplete {0 placeholder" : list ascii).
Proof. split_and!; vm_compute; reflexivity. Qed.


End TemplateLaws.

(** ** Format specs: what is written and what is read *)
Module FormatSpecLaws.
Import detail Vocabulary EngineLaws RenderingLaws TemplateLaws.

(** *** Decimal text *)

Lemma digits_value_pos (d : Decimal.uint) : forall a : positive,
  digits_value (Z.pos a) (String.list_ascii_of_string (NilEmpty.string_of_uint d))
  = Z.pos (Pos.of_uint_acc d a).
Proof.
  induction d as [|d IH|d IH|d IH|d IH|d IH|d IH|d IH|d IH|d IH|d IH]; intros a;
    [done|..];
    cbn [NilEmpty.string_of_uint String.list_ascii_of_string digits_value Pos.of_uint_acc];
    (match goal with
     | |- context [digit_value ?c] =>
         let v := eval vm_compute in (digit_value c) in
         change (digit_value c) with v
     end);
    cbv iota beta; rewrite <- IH; f_equal; lia.
Qed.

Lemma digits_value_uint (d : Decimal.uint) :
  digits_value 0 (String.list_ascii_of_string (NilEmpty.string_of_uint d))
  = Z.of_N (Pos.of_uint d).
Proof.
  induction d as [|d IH|d IH|d IH|d IH|d IH|d IH|d IH|d IH|d IH|d IH];
    [done|exact IH|..];
    cbn [NilEmpty.string_of_uint String.list_ascii_of_string digits_value Pos.of_uint N.of_uint Z.of_N];
    (match goal with
     | |- context [digit_value ?c] =>
         let v := eval vm_compute in (digit_value c) in
         change (digit_value c) with v
     end);
    cbv iota beta; apply digits_value_pos.
Qed.

Lemma digits_value_nat (d : Decimal.uint) : forall a : nat,
  digits_value (Z.of_nat a) (String.list_ascii_of_string (NilEmpty.string_of_uint d))
  = Z.of_nat (Nat.of_uint_acc d a).
Proof.
  induction d as [|d IH|d IH|d IH|d IH|d IH|d IH|d IH|d IH|d IH|d IH]; intros a;
    [done|..];
    cbn [NilEmpty.string_of_uint String.list_ascii_of_string digits_value Nat.of_uint_acc];
    (match goal with
     | |- context [digit_value ?c] =>
         let v := eval vm_compute in (digit_value c) in
         change (digit_value c) with v
     end);
    cbv iota beta; rewrite <- IH; f_equal; rewrite Nat.tail_mul_spec; lia.
Qed.

Lemma digit_is_plain (c : ascii) :
  isdigit c = true ->
  isspace c = false /\ c <> "-"%char /\ c <> "+"%char /\ c <> "."%char
  /\ c <> "^"%char.
Proof.
  intros Hd. split_and!; try (intros ->; discriminate Hd).
  destruct c as [[] [] [] [] [] [] [] []]; first [done | discriminate Hd].
Qed.

Lemma parse_decimal_digits (s : list ascii) :
  s <> [] -> Forall (fun c => isdigit c = true) s ->
  parse_decimal s = Some (digits_value 0 s).
Proof.
  intros Hne Hs. destruct s as [|c s]; [done|].
  apply Forall_cons in Hs as [Hc _].
  destruct (digit_is_plain c Hc) as (Hsp & Hminus & Hplus & _).
  unfold parse_decimal. cbn [skip_spaces]. rewrite Hsp.
  rewrite !decide_False by done. by rewrite Hc.
Qed.

Lemma parse_decimal_to_string_nat (n : nat) :
  parse_decimal (to_string_nat n) = Some (Z.of_nat n).
Proof.
  rewrite parse_decimal_digits
    by (apply to_string_nat_nonempty || apply to_string_nat_digits).
  f_equal. unfold to_string_nat, NilZero.string_of_uint.
  pose proof (to_uint_nonnil n) as Hn.
  rewrite <- (DecimalNat.Unsigned.of_to n) at 2. unfold Nat.of_uint.
  rewrite <- (digits_value_nat (Nat.to_uint n) 0).
  by destruct (Nat.to_uint n).
Qed.

Lemma atoi_to_string_nat (n : nat) :
  Z.of_nat n <= INT_MAX -> atoi (to_string_nat n) = Z.of_nat n.
Proof.
  intros Hn. unfold atoi, strtol. rewrite parse_decimal_to_string_nat.
  replace (Z.max LLONG_MIN (Z.min LLONG_MAX (Z.of_nat n))) with (Z.of_nat n)
    by (unfold INT_MAX, LLONG_MIN, LLONG_MAX in *; lia).
  apply to_int_small. unfold INT_MIN, INT_MAX in *. lia.
Qed.

Lemma parse_decimal_to_string_ll (z : Z) :
  parse_decimal (to_string_ll z) = Some z.
Proof.
  unfold to_string_ll. destruct z as [|p|p]; [done|..];
    cbn [Z.to_int NilZero.string_of_int]; unfold NilZero.string_of_uint;
    pose proof (DecimalPos.Unsigned.to_uint_nonnil p) as Hp;
    pose proof (string_of_uint_digits (Pos.to_uint p)) as Hd;
    pose proof (digits_value_uint (Pos.to_uint p)) as Hv;
    rewrite DecimalPos.Unsigned.of_to in Hv.
  - destruct (Pos.to_uint p) eqn:Hu; [done|..]; rewrite <- Hu in *;
      (rewrite parse_decimal_digits; [by rewrite Hv| |done]);
      rewrite Hu; done.
  - assert (Hne : String.list_ascii_of_string (NilEmpty.string_of_uint (Pos.to_uint p))
                  <> []) by (by destruct (Pos.to_uint p)).
    replace (match Pos.to_uint p with
             | Decimal.Nil => String.String "0" String.EmptyString
             | _ => NilEmpty.string_of_uint (Pos.to_uint p)
             end) with (NilEmpty.string_of_uint (Pos.to_uint p))
      by (by destruct (Pos.to_uint p)).
    cbn [String.list_ascii_of_string].
    destruct (String.list_ascii_of_string (NilEmpty.string_of_uint (Pos.to_uint p)))
      as [|c s] eqn:Hs; [done|].
    apply Forall_cons in Hd as [Hc _].
    unfold parse_decimal. cbn [skip_spaces].
    change (isspace "-") with false. cbv iota.
    rewrite decide_True by done. rewrite Hc. f_equal. rewrite Hv. done.
Qed.

Lemma stoll_to_string_ll (z : Z) :
  LLONG_MIN <= z <= LLONG_MAX -> stoll (to_string_ll z) = Some z.
Proof.
  intros Hz. unfold stoll. rewrite parse_decimal_to_string_ll.
  unfold in_llong. by rewrite !(proj2 (Z.leb_le _ _)) by lia.
Qed.

(** *** Width and precision of a spec *)

Lemma digits_no_dot (s : list ascii) :
  Forall (fun c => isdigit c = true) s -> "."%char ∉ s.
Proof.
  intros Hs Hin. rewrite Forall_forall in Hs. by specialize (Hs _ Hin).
Qed.

Lemma parse_alignment (a : alignment) (body : list ascii) :
  from_option isdigit false (head body) = true ->
  parse_string_spec (alignment_text a ++ body)
  = let spec := alignment_text a ++ body in
    let pos := length (alignment_text a) in
    let lj := match a with AlignLeft => true | _ => false end in
    let cj := match a with AlignCenter => true | _ => false end in
    match find "." pos spec with
    | Some dotPos =>
        {| leftJustified := lj; centerJustified := cj;
           width := if (pos <? dotPos)%nat
                    then atoi (substr spec pos (dotPos - pos)) else 0;
           maxLen := atoi (substr_from spec (dotPos + 1)) |}
    | None =>
        {| leftJustified := lj; centerJustified := cj;
           width := if (pos <? length spec)%nat
                    then atoi (substr_from spec pos) else 0;
           maxLen := -1 |}
    end.
Proof.
  intros Hd. destruct a; [done|done|].
  destruct body as [|c body]; [done|]. cbn [head from_option] in Hd.
  destruct (digit_is_plain c Hd) as (_ & Hminus & _ & _ & Hhat).
  unfold parse_string_spec. cbn [alignment_text app].
  by rewrite !decide_False by done.
Qed.

Lemma head_to_string_nat (n : nat) (rest : list ascii) :
  from_option isdigit false (head (to_string_nat n ++ rest)) = true.
Proof.
  pose proof (to_string_nat_digits n) as Hd.
  pose proof (to_string_nat_nonempty n) as Hne.
  destruct (to_string_nat n) as [|c s]; [done|].
  by apply Forall_cons in Hd as [Hc _].
Qed.

Lemma parse_with_precision (a : alignment) (W P : nat) :
  Z.of_nat W <= INT_MAX -> Z.of_nat P <= INT_MAX ->
  parse_string_spec (spec_text a W (Some P))
  = {| leftJustified := match a with AlignLeft => true | _ => false end;
       centerJustified := match a with AlignCenter => true | _ => false end;
       width := Z.of_nat W; maxLen := Z.of_nat P |}.
Proof.
  intros HW HP. unfold spec_text.
  rewrite parse_alignment by apply head_to_string_nat. cbv zeta.
  pose proof (to_string_nat_nonempty W) as Hne.
  pose proof (digits_no_dot _ (to_string_nat_digits W)) as Hdot.
  rewrite <- (Nat.add_0_r (length (alignment_text a))) at 1.
  rewrite find_shift by done.
  change ("." ++ to_string_nat P) with ("."%char :: to_string_nat P).
  rewrite (find_first_char "."%char _ _ Hdot). cbn [fmap option_fmap option_map].
  assert (Hlt : (length (alignment_text a)
                 <? length (alignment_text a) + length (to_string_nat W))%nat = true).
  { apply Nat.ltb_lt. destruct (to_string_nat W); [done|]. simpl. lia. }
  rewrite Hlt. f_equal.
  - rewrite <- (atoi_to_string_nat W HW). f_equal. unfold substr.
    rewrite drop_app_length.
    replace (length (alignment_text a) + length (to_string_nat W)
             - length (alignment_text a))%nat
      with (length (to_string_nat W)) by lia.
    apply take_app_length.
  - rewrite <- (atoi_to_string_nat P HP). f_equal. unfold substr_from.
    rewrite <- Nat.add_assoc, <- drop_drop, drop_app_length.
    rewrite cons_middle, app_assoc. apply drop_app_length'.
    rewrite length_app. simpl. lia.
Qed.

Lemma parse_without_precision (a : alignment) (W : nat) :
  Z.of_nat W <= INT_MAX ->
  parse_string_spec (spec_text a W None)
  = {| leftJustified := match a with AlignLeft => true | _ => false end;
       centerJustified := match a with AlignCenter => true | _ => false end;
       width := Z.of_nat W; maxLen := -1 |}.
Proof.
  intros HW. unfold spec_text. rewrite app_nil_r.
  rewrite <- (app_nil_r (to_string_nat W)) at 1.
  rewrite parse_alignment by apply head_to_string_nat. cbv zeta.
  rewrite app_nil_r.
  pose proof (to_string_nat_nonempty W) as Hne.
  pose proof (digits_no_dot _ (to_string_nat_digits W)) as Hdot.
  rewrite <- (Nat.add_0_r (length (alignment_text a))) at 1.
  rewrite find_shift by done.
  change ("." : list ascii) with ["."%char]. rewrite (find_absent _ _ Hdot).
  cbn [fmap option_fmap option_map].
  assert (Hlt : (length (alignment_text a)
                 <? length (alignment_text a ++ to_string_nat W))%nat = true).
  { apply Nat.ltb_lt. rewrite length_app. destruct (to_string_nat W); [done|].
    simpl. lia. }
  rewrite Hlt. f_equal. unfold substr_from. rewrite drop_app_length.
  by apply atoi_to_string_nat.
Qed.

Lemma spec_text_nonempty (a : alignment) (W : nat) (P : option nat) :
  spec_text a W P <> [].
Proof.
  unfold spec_text. pose proof (to_string_nat_nonempty W).
  destruct (alignment_text a), (to_string_nat W); done.
Qed.

(** A spec written as alignment, decimal width and optional decimal
    precision is read back as exactly these. *)
Theorem string_spec_round_trip (a : alignment) (W : nat) (P : option nat) :
  Z.of_nat W <= INT_MAX ->
  (forall p, P = Some p -> Z.of_nat p <= INT_MAX) ->
  parse_string_spec (spec_text a W P)
  = {| leftJustified := match a with AlignLeft => true | _ => false end;
       centerJustified := match a with AlignCenter => true | _ => false end;
       width := Z.of_nat W;
       maxLen := from_option Z.of_nat (-1) P |}
  /\ alignment_of (spec_text a W P) = a.
Proof.
  intros HW HP. split.
  - destruct P as [p|]; cbn [from_option].
    + apply parse_with_precision; [done|]. by apply HP.
    + by apply parse_without_precision.
  - unfold alignment_of, spec_text. destruct a; [done|done|].
    cbn [alignment_text app].
    pose proof (head_to_string_nat W
                  (match P with Some p => "." ++ to_string_nat p | None => [] end))
      as Hd.
    destruct (head _) as [c|]; [|done]. cbn [from_option] in Hd.
    destruct (digit_is_plain c Hd) as (_ & Hminus & _ & _ & Hhat).
    by rewrite !bool_decide_eq_false_2.
Qed.

Lemma length_truncate_value (value : list ascii) (P : Z) :
  Z.of_nat (length value) <= INT_MAX ->
  Z.of_nat (length (truncate_value value P))
  = if (0 <? P) && (P <? Z.of_nat (length value)) then P else Z.of_nat (length value).
Proof.
  intros HL. unfold truncate_value. rewrite (ilength_small value HL).
  destruct ((0 <? P) && (P <? Z.of_nat (length value))) eqn:Hc; [|done].
  apply andb_true_iff in Hc as [H0 HPL].
  apply Z.ltb_lt in H0. apply Z.ltb_lt in HPL.
  destruct (P <=? 3) eqn:H3; unfold substr, to_size.
  - rewrite drop_0, length_take. lia.
  - apply Z.leb_gt in H3. rewrite drop_0, length_app, length_take.
    change (length ("..." : list ascii)) with 3%nat. lia.
Qed.

Lemma length_justify (ps : string_spec) (text : list ascii) :
  Z.of_nat (length text) <= INT_MAX ->
  Z.of_nat (length (justify ps text)) = Z.max (width ps) (Z.of_nat (length text)).
Proof.
  intros HL. unfold justify. rewrite (ilength_small text HL).
  destruct ((width ps <=? 0) || (width ps <=? Z.of_nat (length text))) eqn:Hc.
  - apply orb_true_iff in Hc as [Hc|Hc]; apply Z.leb_le in Hc; lia.
  - apply orb_false_iff in Hc as [H0 HW].
    apply Z.leb_gt in H0. apply Z.leb_gt in HW.
    assert (Hq : 0 <= Z.quot (width ps - Z.of_nat (length text)) 2
                 <= width ps - Z.of_nat (length text)).
    { split; [apply Z.quot_pos; lia|]. apply Z.quot_le_upper_bound; lia. }
    unfold fill, to_size.
    destruct (leftJustified ps); [|destruct (centerJustified ps)];
      rewrite ?length_app, ?length_replicate; lia.
Qed.

(** A spec [W.W] makes every value exactly [W] characters wide:
    shorter values are padded, longer values are truncated. *)
Theorem fixed_width_column (a : alignment) (W : nat) (value : list ascii) :
  (1 <= W)%nat -> Z.of_nat W <= INT_MAX ->
  Z.of_nat (length value) <= INT_MAX ->
  length (apply_string_formatting value (spec_text a W (Some W))) = W.
Proof.
  intros H1 HW HL. unfold apply_string_formatting.
  rewrite (empty_false _ (spec_text_nonempty a W (Some W))).
  rewrite parse_with_precision by done. cbn [maxLen].
  pose proof (length_truncate_value value (Z.of_nat W) HL) as Ht.
  apply Nat2Z.inj. rewrite length_justify; cbn [width].
  - rewrite Ht. destruct (_ && _) eqn:Hc; [lia|].
    apply andb_false_iff in Hc as [Hc|Hc]; [apply Z.ltb_ge in Hc|apply Z.ltb_ge in Hc];
      lia.
  - rewrite Ht. destruct (_ && _); lia.
Qed.

(** *** Binary digits *)

Lemma binary_value_snoc (s : list ascii) (c : ascii) :
  binary_value (s ++ [c])
  = 2 * binary_value s + (if decide (c = "1"%char) then 1 else 0).
Proof. unfold binary_value. by rewrite fold_left_app. Qed.

Lemma binary_value_digits (p : positive) : binary_value (binary_digits p) = Z.pos p.
Proof.
  induction p as [p IH|p IH|]; [| |done]; cbn [binary_digits].
  - change ("1" : list ascii) with ["1"%char]. rewrite binary_value_snoc, IH.
    rewrite decide_True by done. lia.
  - change ("0" : list ascii) with ["0"%char]. rewrite binary_value_snoc, IH.
    rewrite decide_False by done. lia.
Qed.

Lemma binary_digits_head (p : positive) : head (binary_digits p) = Some "1"%char.
Proof.
  induction p as [p IH|p IH|]; [| |done]; cbn [binary_digits];
    by destruct (binary_digits p).
Qed.

(** The digits after [0b] decode to the number itself when it is
    positive, and to its two's complement on 64 bits when it is
    negative; the first digit is never a zero. *)
Theorem binary_round_trip `{Libc} (value : Z) (t : ascii) :
  LLONG_MIN <= value <= LLONG_MAX -> value <> 0 ->
  t = "b"%char \/ t = "B"%char ->
  exists digits,
    format_integer_value value [t] = "0b" ++ digits
    /\ binary_value digits = (if 0 <? value then value else value + 2 ^ 64)
    /\ head digits = Some "1"%char
    /\ (length digits <= 64)%nat.
Proof.
  intros Hrange Hnz Ht.
  pose proof (to_ull_nonzero value Hrange Hnz) as Hu.
  exists (binary_digits (Z.to_pos (to_ull value))). split_and!.
  - unfold format_integer_value. cbn [empty back last from_option].
    assert (Hb : is_binary_type t = true) by (by destruct Ht as [-> | ->]).
    rewrite Hb. rewrite (proj2 (Z.eqb_neq _ _) Hnz).
    cbn [length Nat.sub substr take drop empty negb].
    rewrite (to_binary_digits 64 (to_ull value) []) by done.
    by rewrite app_nil_r.
  - rewrite binary_value_digits, Z2Pos.id by lia. unfold to_ull.
    unfold LLONG_MIN, LLONG_MAX in Hrange.
    destruct (0 <? value) eqn:Hpos.
    + apply Z.ltb_lt in Hpos. apply Z.mod_small. lia.
    + apply Z.ltb_ge in Hpos.
      rewrite <- (Z.mod_small (value + 2 ^ 64) (2 ^ 64)) by lia.
      rewrite <- (Z_mod_plus_full value 1 (2 ^ 64)). by rewrite Z.mul_1_l.
  - apply binary_digits_head.
  - apply binary_digits_length. rewrite Z2Pos.id; lia.
Qed.

(** *** The type character at the end of a spec *)

Lemma integer_type_char (t : ascii) :
  is_integer_type t = true ->
  isdigit t = false /\ t <> "."%char /\ t <> NUL /\ is_float_type t = false.
Proof.
  unfold is_integer_type. rewrite !orb_true_iff, !bool_decide_eq_true.
  intros H; destruct_or!; subst t; done.
Qed.

Lemma float_type_char (t : ascii) :
  is_float_type t = true ->
  isdigit t = false /\ t <> "."%char /\ t <> NUL.
Proof.
  unfold is_float_type. rewrite !orb_true_iff, !bool_decide_eq_true.
  intros H; destruct_or!; subst t; done.
Qed.

Lemma find_type_spec_last (body : list ascii) (t : ascii) (pos : nat) :
  (pos <= length body)%nat -> isdigit t = false -> t <> "."%char ->
  find_type_spec (body ++ [t]) pos (length (body ++ [t])) = Some (t, length body).
Proof.
  intros Hpos Hd Hdot. rewrite length_app. cbn [length].
  replace (length body + 1)%nat with (S (length body)) by lia.
  cbn [find_type_spec].
  rewrite (proj2 (Nat.ltb_lt _ _)) by lia.
  rewrite list_lookup_middle by done.
  by rewrite Hd, bool_decide_eq_false_2.
Qed.

Lemma split_unaligned (body : list ascii) (t : ascii) :
  alignment_part (body ++ [t]) = [] ->
  isdigit t = false -> t <> "."%char -> t <> NUL ->
  split_format_spec (body ++ [t]) = ([], t, body).
Proof.
  unfold alignment_part, split_format_spec. intros Hal Hd Hdot Hnul.
  pose proof (find_type_spec_last body t 0 ltac:(lia) Hd Hdot) as Hf.
  destruct (body ++ [t]) as [|c rest] eqn:Hspec; [by destruct body|].
  destruct (bool_decide (c = "-"%char) || bool_decide (c = "^"%char)) eqn:Hc.
  - exfalso. revert Hal.
    by destruct (find_type_spec (c :: rest) 1 (length (c :: rest))) as [[c0 i']|].
  - rewrite Hf. rewrite bool_decide_eq_false_2 by done.
    rewrite <- Hspec. unfold substr. rewrite drop_0, Nat.sub_0_r.
    by rewrite take_app_length.
Qed.

Lemma split_aligned (al : ascii) (body : list ascii) (t : ascii) :
  al = "-"%char \/ al = "^"%char ->
  isdigit t = false -> t <> "."%char -> t <> NUL ->
  split_format_spec (al :: body ++ [t]) = ([al], t, body).
Proof.
  intros Hal Hd Hdot Hnul. unfold split_format_spec.
  assert (Hc : bool_decide (al = "-"%char) || bool_decide (al = "^"%char) = true)
    by (by destruct Hal as [-> | ->]).
  rewrite Hc.
  pose proof (find_type_spec_last (al :: body) t 1 ltac:(simpl; lia) Hd Hdot) as Hf.
  rewrite <- app_comm_cons in Hf. rewrite Hf.
  rewrite bool_decide_eq_false_2 by done.
  unfold substr. cbn [drop length]. rewrite drop_0.
  replace (S (length body) - 1)%nat with (length body) by lia.
  by rewrite take_app_length.
Qed.

Lemma split_numeric_part_spec (w p : list ascii) :
  "."%char ∉ w -> p = [] \/ head p = Some "."%char ->
  split_numeric_part (w ++ p) = (w, p).
Proof.
  intros Hw Hp. unfold split_numeric_part.
  destruct p as [|c p].
  - rewrite app_nil_r. change ("." : list ascii) with ["."%char].
    by rewrite find_absent.
  - destruct Hp as [|Hp]; [done|]. injection Hp as ->.
    change ("." : list ascii) with ["."%char].
    rewrite (find_first_char "."%char w p Hw).
    unfold substr, substr_from.
    by rewrite drop_0, take_app_length, drop_app_length.
Qed.

(** A variable set from a value of one of the six integer types that
    [format_value] renders as numbers ([int], [long], [long long] and
    their unsigned counterparts) and formatted by name renders like the
    value itself formatted as an argument, for every spec that has no
    alignment character and ends in an integer type. Narrower integer
    types such as [short] are rendered as strings by [format_value] and
    are not covered. *)
Theorem integer_variable_formats_like_argument `{Libc} (k : int_kind) (z : Z)
    (body : list ascii) (t : ascii) :
  LLONG_MIN <= z <= LLONG_MAX ->
  is_integer_type t = true ->
  alignment_part (body ++ [t]) = [] ->
  apply_format (to_string_impl (VInteger k z)) (body ++ [t])
  = format_value (VInteger k z) (body ++ [t]).
Proof.
  intros Hz Ht Hal.
  destruct (integer_type_char t Ht) as (Hd & Hdot & Hnul & Hfloat).
  unfold apply_format. rewrite snoc_not_empty.
  rewrite (split_unaligned body t Hal Hd Hdot Hnul).
  rewrite Hfloat, Ht. cbn [to_string_impl format_value empty negb].
  rewrite (stoll_to_string_ll z Hz). f_equal.
  unfold to_ll, LLONG_MIN, LLONG_MAX in *.
  rewrite Z.mod_small by lia. lia.
Qed.

(** With an alignment character a number is formatted in two stages:
    the precision and the type go to the number conversion, the
    alignment and the width to string formatting of its result. *)
Theorem aligned_number_two_stages `{Libc} (value : list ascii) (al : ascii)
    (w p : list ascii) (t : ascii) :
  al = "-"%char \/ al = "^"%char ->
  "."%char ∉ w -> p = [] \/ head p = Some "."%char ->
  (is_integer_type t = true -> forall n, stoll value = Some n ->
     apply_format value (al :: w ++ p ++ [t])
     = apply_string_formatting (format_integer_value n (p ++ [t])) (al :: w))
  /\ (is_float_type t = true -> forall d, stod value = Some d ->
     apply_format value (al :: w ++ p ++ [t])
     = apply_string_formatting (format_double_value d (p ++ [t])) (al :: w)).
Proof.
  intros Hal Hw Hp. split.
  - intros Ht n Hn. destruct (integer_type_char t Ht) as (Hd & Hdot & Hnul & Hfloat).
    unfold apply_format. cbn [empty]. rewrite app_assoc.
    rewrite (split_aligned al (w ++ p) t Hal Hd Hdot Hnul).
    rewrite Hfloat, Ht, Hn. cbn [empty negb].
    by rewrite (split_numeric_part_spec w p Hw Hp).
  - intros Ht d Hd'. destruct (float_type_char t Ht) as (Hd & Hdot & Hnul).
    unfold apply_format. cbn [empty]. rewrite app_assoc.
    rewrite (split_aligned al (w ++ p) t Hal Hd Hdot Hnul).
    rewrite Ht, Hd'. cbn [empty negb].
    by rewrite (split_numeric_part_spec w p Hw Hp).
Qed.

(** *** Executions *)
Import ExampleLibc.

Lemma string_spec_round_trip_witness :
  parse_string_spec (spec_text AlignLeft 10 (Some 3%nat))
  = {| leftJustified := true; centerJustified := false;
       width := Z.of_nat 10; maxLen := from_option Z.of_nat (-1) (Some 3%nat) |}
  /\ alignment_of (spec_text AlignLeft 10 (Some 3%nat)) = AlignLeft.
Proof.
  apply (string_spec_round_trip AlignLeft 10 (Some 3%nat)).
  - unfold INT_MAX. lia.
  - intros p [= <-]. unfold INT_MAX. lia.
Defined.

Lemma fixed_width_column_witness :
  length (apply_string_formatting "Hello World" (spec_text AlignCenter 8 (Some 8%nat)))
  = 8%nat
  /\ length (apply_string_formatting "Hi" (spec_text AlignCenter 8 (Some 8%nat)))
     = 8%nat.
Proof.
  split.
  - apply (fixed_width_column AlignCenter 8 "Hello World");
      [lia|unfold INT_MAX; lia|unfold INT_MAX; simpl; lia].
  - apply (fixed_width_column AlignCenter 8 "Hi");
      [lia|unfold INT_MAX; lia|unfold INT_MAX; simpl; lia].
Defined.

Lemma binary_round_trip_witness :
  exists digits,
    format_integer_value (-2) ["b"%char] = "0b" ++ digits
    /\ binary_value digits = (if 0 <? -2 then -2 else -2 + 2 ^ 64)
    /\ head digits = Some "1"%char
    /\ (length digits <= 64)%nat.
Proof.
  apply (binary_round_trip (-2) "b"%char);
    [unfold LLONG_MIN, LLONG_MAX; lia|done|by left].
Defined.

Lemma integer_variable_formats_like_argument_witness :
  apply_format (to_string_impl (VInteger KInt 42)) ("05" ++ ["d"%char])
  = format_value (VInteger KInt 42) ("05" ++ ["d"%char]).
Proof.
  apply (integer_variable_formats_like_argument KInt 42 "05" "d"%char);
    [unfold LLONG_MIN, LLONG_MAX; lia|reflexivity|reflexivity].
Defined.

Lemma aligned_number_two_stages_witness :
  apply_format "42" ("-"%char :: "8" ++ [] ++ ["d"%char])
  = apply_string_formatting (format_integer_value 42 ([] ++ ["d"%char]))
                            ("-"%char :: "8").
Proof.
  apply (proj1 (aligned_number_two_stages "42" "-"%char "8" [] "d"%char
                  ltac:(by left) ltac:(not_in_text) ltac:(by left)));
    reflexivity.
Defined.

(** The values of the executions above. *)
Lemma format_spec_examples :
  spec_text AlignLeft 10 (Some 3%nat) = "-10.3"
  /\ apply_string_formatting "Hello World" "^8.8" = "Hello..."
  /\ apply_string_formatting "Hi" "^8.8" = "   Hi   "
  /\ binary_value "101" = 5
  /\ apply_format "42" "05d" = "00042"
  /\ apply_format "42" "-8d" = "42      ".
Proof. split_and!; vm_compute; reflexivity. Qed.

End FormatSpecLaws.

(** ** Contexts: what is set and what is formatted *)
Module ContextLaws.
Import detail Engine Loops Contexts EngineLaws TemplateLaws SharedContextLaws.

Section WithLibc.
Context `{Libc}.

(** *** local_context *)

Lemma local_find_var (c : local_context) (name : list ascii) :
  find_var (local_base c) name
  = match l_variables_ c !! name with
    | Some v => (true, v)
    | None => (false, [])
    end.
Proof.
  cbn [find_var local_base]. unfold default_find_var, local_has_var, local_get_var.
  destruct (l_variables_ c !! name) as [v|] eqn:Hl; [|done].
  by rewrite bool_decide_eq_true_2.
Qed.

Lemma local_named (c : local_context) (args : list value) (name X Y : list ascii) :
  variable_name name -> no_open X -> no_open Y ->
  local_format c (X ++ "{" ++ name ++ "}" ++ Y) args
  = Some (X ++ default ("{" ++ name ++ "}") (l_variables_ c !! name) ++ Y).
Proof.
  intros Hname HX HY. pose proof Hname as (Hne & Hdigit & Hbrace & _).
  unfold local_format. rewrite format_impl_is_pipeline.
  replace (X ++ "{" ++ name ++ "}" ++ Y) with (X ++ group name ++ Y)
    by (unfold group; by rewrite <- !app_assoc).
  rewrite pipeline_named by done.
  rewrite (named_act_variable _ name Hname), local_find_var.
  by destruct (l_variables_ c !! name).
Qed.

(** A variable set from a value is formatted as the text [to_string]
    gave when it was set: a formatter installed later does not change
    it, and after [clear_var] the placeholder is left in the output. *)
Theorem local_variable_round_trip (c : local_context) (args : list value)
    (name : list ascii) (v : value) (X Y : list ascii) :
  variable_name name -> no_open X -> no_open Y ->
  let c1 := local_set_var_value name v c in
  let template_str := X ++ "{" ++ name ++ "}" ++ Y in
  local_format c1 template_str args = Some (X ++ to_string (local_base c) v ++ Y)
  /\ (forall type f,
        local_format (local_set_formatter_impl type f c1) template_str args
        = Some (X ++ to_string (local_base c) v ++ Y))
  /\ local_format (local_clear_var name c1) template_str args = Some template_str.
Proof.
  intros Hname HX HY c1 template_str. subst c1 template_str. split_and!.
  - rewrite local_named by done.
    unfold local_set_var_value, local_set_var. cbn [l_variables_].
    by rewrite lookup_insert_eq.
  - intros type f. rewrite local_named by done.
    unfold local_set_formatter_impl, local_set_var_value, local_set_var.
    cbn [l_variables_]. by rewrite lookup_insert_eq.
  - rewrite local_named by done.
    unfold local_clear_var. cbn [l_variables_]. rewrite lookup_delete_eq.
    cbn [default from_option]. by rewrite <- !app_assoc.
Qed.

Lemma add_arg_custom (c : local_context) (arg : value) (f : formatter) :
  l_formatters_ c !! type_of arg = Some f ->
  (add_arg (local_base c) arg).1 = f arg
  /\ forall spec, (add_arg (local_base c) arg).2 spec = f arg.
Proof.
  intros Hf. unfold add_arg. cbn [fst snd has_formatter_impl format_value_custom local_base].
  unfold formatter in *. rewrite Hf. by rewrite bool_decide_eq_true_2 by eauto.
Qed.

Lemma add_arg_builtin (c : local_context) (arg : value) :
  l_formatters_ c !! type_of arg = None ->
  forall spec, (add_arg (local_base c) arg).2 spec = format_value arg spec.
Proof.
  intros Hf spec. unfold add_arg.
  cbn [fst snd has_formatter_impl format_value_custom local_base].
  unfold formatter in *. rewrite Hf, bool_decide_eq_false_2; [done|]. by intros [? ?].
Qed.

(** A custom formatter replaces the rendering of its type with and
    without a format spec, and the spec is not applied to its result;
    once the formatter is cleared the built-in rendering is back. *)
Theorem custom_formatter_ignores_spec (c : local_context) (args : list value)
    (i : nat) (arg : value) (f : formatter) (X Y spec : list ascii) :
  args !! i = Some arg ->
  no_open X -> no_open Y -> no_brace spec ->
  no_open (f arg) ->
  let c1 := local_set_formatter_impl (type_of arg) f c in
  local_format c1 (X ++ "{" ++ to_string_nat i ++ ":" ++ spec ++ "}" ++ Y) args
  = Some (X ++ f arg ++ Y)
  /\ local_format c1 (X ++ "{" ++ to_string_nat i ++ "}" ++ Y) args
     = Some (X ++ f arg ++ Y)
  /\ (no_open (format_value arg spec) ->
      local_format (local_clear_formatter_impl (type_of arg) c1)
        (X ++ "{" ++ to_string_nat i ++ ":" ++ spec ++ "}" ++ Y) args
      = Some (X ++ format_value arg spec ++ Y)).
Proof.
  intros Hi HX HY Hspec Hv c1.
  assert (Hset : l_formatters_ c1 !! type_of arg = Some f)
    by (subst c1; unfold local_set_formatter_impl; cbn [l_formatters_];
        by rewrite lookup_insert_eq).
  destruct (add_arg_custom c1 arg f Hset) as [Hdefault Hcustom].
  unfold local_format. rewrite !format_impl_is_pipeline.
  replace (X ++ "{" ++ to_string_nat i ++ ":" ++ spec ++ "}" ++ Y)
    with (X ++ group (to_string_nat i ++ ":" ++ spec) ++ Y)
    by (unfold group; by rewrite <- !app_assoc).
  replace (X ++ "{" ++ to_string_nat i ++ "}" ++ Y)
    with (X ++ group (to_string_nat i) ++ Y)
    by (unfold group; by rewrite <- !app_assoc).
  split_and!.
  - rewrite <- (Hcustom spec) in Hv |- *. by apply pipeline_placeholder_with_spec.
  - rewrite <- Hdefault in Hv |- *. by apply pipeline_placeholder_default.
  - intros Hb.
    assert (Hclear : l_formatters_ (local_clear_formatter_impl (type_of arg) c1)
                       !! type_of arg = None)
      by (unfold local_clear_formatter_impl; cbn [l_formatters_];
          by rewrite lookup_delete_eq).
    rewrite <- (add_arg_builtin _ arg Hclear spec) in Hb |- *.
    by apply pipeline_placeholder_with_spec.
Qed.

(** *** shared_context: the main thread *)

Lemma no_main_overrides_start : no_main_overrides process_start.
Proof. intros t _. unfold thread_vars. cbn. by rewrite lookup_empty. Qed.

Lemma no_main_overrides_write (st : process) (tid : nat)
    (g : shared_context -> shared_context)
    (h : gmap (list ascii) (list ascii) -> gmap (list ascii) (list ascii))
    (this : nat) :
  no_main_overrides st ->
  no_main_overrides
    (let '(main, st1) := is_main_thread tid st in
     if main then with_object st1 this g
     else with_thread_vars st1 tid (h (thread_vars st1 tid))).
Proof.
  intros Hinv. unfold is_main_thread, ensure_main_thread_id_initialized.
  destruct (main_thread_id_initialized_ st) eqn:Hinit.
  - case_bool_decide as Hmain; intros t Ht.
    + change (thread_vars st t = ∅). apply Hinv. exact Ht.
    + destruct Ht as [Ht|Ht]; cbn in Ht; [congruence|].
      rewrite thread_vars_with_thread_vars. rewrite decide_False by congruence.
      apply Hinv. by right.
  - rewrite bool_decide_eq_true_2 by done.
    intros t [Ht|Ht]; cbn in Ht; [done|]. injection Ht as <-.
    change (thread_vars st tid = ∅). apply Hinv. by left.
Qed.

Lemma no_main_overrides_step (st : process) (tc : nat * call) :
  no_main_overrides st -> no_main_overrides (step st tc).
Proof.
  intros Hinv. destruct tc as [tid c].
  destruct c as [this name text|this name| | | | | |name| | |]; cbn [step]; try done.
  - apply (no_main_overrides_write st tid _ (fun m => <[name := text]> m) this Hinv).
  - apply (no_main_overrides_write st tid _ (fun m => delete name m) this Hinv).
  - unfold get_context. destruct (contexts_ st !! name); done.
Qed.

Lemma no_main_overrides_run (trace : list (nat * call)) :
  no_main_overrides (run process_start trace).
Proof.
  induction trace as [|tc trace IH] using rev_ind; [apply no_main_overrides_start|].
  rewrite run_snoc. by apply no_main_overrides_step.
Qed.

(** In every state the process can reach, the main thread has no
    thread-local variables: what it finds in a context is exactly what
    the store of that context holds. *)
Theorem main_thread_sees_only_the_object_store (trace : list (nat * call))
    (m this : nat) (name : list ascii) :
  let st := run process_start trace in
  main_thread_id_ st = Some m ->
  thread_vars st m = ∅
  /\ shared_find_var m this st name
     = match global_vars st this !! name with
       | Some v => (true, v)
       | None => (false, [])
       end
  /\ shared_has_var m this st name
     = bool_decide (is_Some (global_vars st this !! name)).
Proof.
  intros st Hm.
  assert (Hnone : thread_vars st m = ∅)
    by (apply (no_main_overrides_run trace); by right).
  split_and!; [done|..].
  - unfold shared_find_var. by rewrite Hnone, lookup_empty.
  - unfold shared_has_var. rewrite Hnone, lookup_empty.
    rewrite bool_decide_eq_false_2; [done|]. by intros [? ?].
Qed.

(** *** shared_context: who sees a write *)

Lemma set_var_main (st : process) (m this : nat) (name text : list ascii) :
  main_thread_id_initialized_ st = true -> main_thread_id_ st = Some m ->
  set_var m this name text st
  = with_object st this (fun c =>
      {| variables_ := <[name := text]> (variables_ c);
         formatters_ := formatters_ c |}).
Proof.
  intros Hinit Hm. unfold set_var, is_main_thread.
  rewrite (ensure_when_initialized m st Hinit), Hm.
  by rewrite bool_decide_eq_true_2.
Qed.

Lemma clear_var_main (st : process) (m this : nat) (name : list ascii) :
  main_thread_id_initialized_ st = true -> main_thread_id_ st = Some m ->
  clear_var m this name st
  = with_object st this (fun c =>
      {| variables_ := delete name (variables_ c);
         formatters_ := formatters_ c |}).
Proof.
  intros Hinit Hm. unfold clear_var, is_main_thread.
  rewrite (ensure_when_initialized m st Hinit), Hm.
  by rewrite bool_decide_eq_true_2.
Qed.

Lemma set_var_worker (st : process) (u m this : nat) (name text : list ascii) :
  main_thread_id_initialized_ st = true -> main_thread_id_ st = Some m -> u <> m ->
  set_var u this name text st
  = with_thread_vars st u (<[name := text]> (thread_vars st u)).
Proof.
  intros Hinit Hm Hu. unfold set_var, is_main_thread.
  rewrite (ensure_when_initialized u st Hinit), Hm.
  rewrite bool_decide_eq_false_2; [done|]. congruence.
Qed.

Lemma clear_var_worker (st : process) (u m this : nat) (name : list ascii) :
  main_thread_id_initialized_ st = true -> main_thread_id_ st = Some m -> u <> m ->
  clear_var u this name st
  = with_thread_vars st u (delete name (thread_vars st u)).
Proof.
  intros Hinit Hm Hu. unfold clear_var, is_main_thread.
  rewrite (ensure_when_initialized u st Hinit), Hm.
  rewrite bool_decide_eq_false_2; [done|]. congruence.
Qed.

(** What a thread finds under a name: its own entry, else the entry of
    the object. *)
Lemma shared_named (st : process) (tid this : nat) (args : list value)
    (name X Y : list ascii) :
  variable_name name -> no_open X -> no_open Y ->
  shared_format tid this st (X ++ "{" ++ name ++ "}" ++ Y) args
  = Some (X ++ default (default ("{" ++ name ++ "}") (global_vars st this !! name))
                       (thread_vars st tid !! name) ++ Y).
Proof.
  intros Hname HX HY. pose proof Hname as (Hne & Hdigit & Hbrace & _).
  unfold shared_format. rewrite format_impl_is_pipeline.
  replace (X ++ "{" ++ name ++ "}" ++ Y) with (X ++ group name ++ Y)
    by (unfold group; by rewrite <- !app_assoc).
  rewrite pipeline_named by done.
  rewrite (named_act_variable _ name Hname).
  cbn [find_var shared_base]. unfold shared_find_var.
  destruct (thread_vars st tid !! name); [done|].
  by destruct (global_vars st this !! name).
Qed.

(** A variable the main thread sets on a context is what every thread
    formats on that context, except a thread that has an entry of its
    own under the name, which keeps formatting its entry; after the
    main thread clears the variable the placeholder is left as it is. *)
Theorem main_write_reaches_threads_without_override (st : process) (m this : nat)
    (args : list value) (name text X Y : list ascii) :
  main_thread_id_initialized_ st = true -> main_thread_id_ st = Some m ->
  is_Some (objects st !! this) ->
  variable_name name -> no_open X -> no_open Y ->
  let st1 := set_var m this name text st in
  let template_str := X ++ "{" ++ name ++ "}" ++ Y in
  forall t : nat,
    shared_format t this st1 template_str args
    = Some (X ++ default text (thread_vars st t !! name) ++ Y)
    /\ shared_format t this (clear_var m this name st1) template_str args
       = Some (X ++ default ("{" ++ name ++ "}") (thread_vars st t !! name) ++ Y).
Proof.
  intros Hinit Hm [c Hc] Hname HX HY st1 template_str t.
  subst st1 template_str. rewrite (set_var_main st m this name text Hinit Hm).
  rewrite clear_var_main by done. rewrite !shared_named by done.
  rewrite !global_vars_with_object, !decide_True by done.
  cbn [objects with_object]. rewrite lookup_alter_eq, Hc.
  cbn [fmap option_fmap option_map from_option variables_].
  rewrite lookup_insert_eq, lookup_delete_eq. cbn [default from_option].
  by split.
Qed.

(** A variable a worker thread sets through one context is what that
    thread formats on every context, whatever the context holds under
    the name; after the worker clears it, each context shows its own
    entry again. *)
Theorem worker_variable_shadows_every_context (st : process) (u m this : nat)
    (args : list value) (name text X Y : list ascii) :
  main_thread_id_initialized_ st = true -> main_thread_id_ st = Some m ->
  u <> m ->
  variable_name name -> no_open X -> no_open Y ->
  let st1 := set_var u this name text st in
  let template_str := X ++ "{" ++ name ++ "}" ++ Y in
  forall other : nat,
    shared_format u other st1 template_str args = Some (X ++ text ++ Y)
    /\ shared_format u other (clear_var u this name st1) template_str args
       = Some (X ++ default ("{" ++ name ++ "}") (global_vars st other !! name) ++ Y).
Proof.
  intros Hinit Hm Hu Hname HX HY st1 template_str other.
  subst st1 template_str. rewrite (set_var_worker st u m this name text Hinit Hm Hu).
  rewrite (clear_var_worker _ u m) by done. rewrite !shared_named by done.
  rewrite !thread_vars_with_thread_vars, !decide_True by done.
  rewrite lookup_insert_eq, lookup_delete_eq. by split.
Qed.

(** *** context_manager *)

(** Asking for a name twice gives the same object, and the second call
    changes nothing. *)
Theorem get_context_is_idempotent (st : process) (t1 t2 : nat) (name : list ascii) :
  get_context t2 name (get_context t1 name st).2 = get_context t1 name st.
Proof.
  destruct (get_context t1 name st) as [ctx st1] eqn:Hr. cbn [snd].
  unfold get_context in *. destruct (contexts_ st !! name) as [c|] eqn:Hl.
  - injection Hr as <- <-. by rewrite Hl.
  - cbn [allocate] in Hr. injection Hr as <- <-.
    cbn [contexts_ with_contexts]. by rewrite lookup_insert_eq.
Qed.

Lemma get_context_fresh (st : process) (tid : nat) (name : list ascii) :
  contexts_ st !! name = None ->
  (get_context tid name st).1 = next_object st
  /\ objects (get_context tid name st).2
     = <[next_object st := {| variables_ := ∅; formatters_ := ∅ |}]> (objects st).
Proof. intros Hl. unfold get_context. by rewrite Hl. Qed.

(** After [remove_context] the name stands for a new object with empty
    stores; the object it stood for before is a different one and keeps
    what it holds. *)
Theorem removed_context_is_replaced_by_empty_one (st : process) (t1 t2 t3 : nat)
    (name : list ascii) :
  registry_ok st ->
  let r := get_context t1 name st in
  let r' := get_context t3 name (remove_context t2 name r.2) in
  r'.1 <> r.1
  /\ global_vars r'.2 r'.1 = ∅
  /\ global_formatters r'.2 r'.1 = ∅
  /\ objects r'.2 !! r.1 = objects r.2 !! r.1.
Proof.
  intros Hok r r'.
  destruct (registry_ok_get_context st t1 name Hok) as [Hok1 Hl1].
  fold r in Hok1, Hl1. destruct (Hok1 name r.1 Hl1) as [Hlt _].
  assert (Hgone : contexts_ (remove_context t2 name r.2) !! name = None)
    by (unfold remove_context; cbn [contexts_ with_contexts];
        by rewrite lookup_delete_eq).
  destruct (get_context_fresh _ t3 name Hgone) as [Hnew Hobjects].
  fold r' in Hnew, Hobjects.
  change (next_object (remove_context t2 name r.2)) with (next_object r.2)
    in Hnew, Hobjects.
  change (objects (remove_context t2 name r.2)) with (objects r.2) in Hobjects.
  split_and!.
  - rewrite Hnew. lia.
  - unfold global_vars. by rewrite Hobjects, Hnew, lookup_insert_eq.
  - unfold global_formatters. by rewrite Hobjects, Hnew, lookup_insert_eq.
  - rewrite Hobjects. apply lookup_insert_ne. lia.
Qed.

(** *** shared_context: formatters *)

(** A formatter set on a context, by any thread, renders the values of
    its type for every thread that formats on that context, with the
    spec left unapplied; formatting on any other context is what it was
    before. *)
Theorem shared_formatter_is_per_context (st : process) (tid this : nat)
    (args : list value) (i : nat) (arg : value) (f : formatter)
    (X Y spec : list ascii) :
  is_Some (objects st !! this) ->
  args !! i = Some arg ->
  no_open X -> no_open Y -> no_brace spec ->
  no_open (f arg) ->
  let st1 := set_formatter_impl tid this (type_of arg) f st in
  (forall t : nat,
     shared_format t this st1
       (X ++ "{" ++ to_string_nat i ++ ":" ++ spec ++ "}" ++ Y) args
     = Some (X ++ f arg ++ Y))
  /\ (forall (t other : nat) (template_str : list ascii),
        other <> this ->
        shared_format t other st1 template_str args
        = shared_format t other st template_str args).
Proof.
  intros [c Hc] Hi HX HY Hspec Hv st1. subst st1. unfold set_formatter_impl. split.
  - intros t. unfold shared_format. rewrite format_impl_is_pipeline.
    replace (X ++ "{" ++ to_string_nat i ++ ":" ++ spec ++ "}" ++ Y)
      with (X ++ group (to_string_nat i ++ ":" ++ spec) ++ Y)
      by (unfold group; by rewrite <- !app_assoc).
    match goal with
    | |- pipeline (positional_loops 0 (add_args_to_vector ?ctx args) ++ _) _ = _ =>
        assert (Hcustom : (add_arg ctx arg).2 spec = f arg)
    end.
    { unfold add_arg.
      cbn [snd has_formatter_impl format_value_custom shared_base].
      unfold shared_has_formatter_impl, shared_format_value_custom.
      rewrite global_formatters_with_object, decide_True by done.
      rewrite Hc. cbn [from_option formatters_]. unfold formatter in *.
      rewrite lookup_insert_eq. by rewrite bool_decide_eq_true_2 by eauto. }
    rewrite <- Hcustom in Hv |- *. by apply pipeline_placeholder_with_spec.
  - intros t other template_str Hother. unfold shared_format, shared_base.
    unfold shared_has_var, shared_get_var, shared_find_var,
      shared_has_formatter_impl, shared_format_value_custom.
    rewrite !global_vars_with_object, !global_formatters_with_object.
    by rewrite !decide_False by done.
Qed.

(** *** create_shared_context *)

(** A context made by [create_shared_context] is new and empty, it is
    not entered in the registry, and no later [get_context] returns it,
    under any name. *)
Theorem created_context_is_not_registered (st : process) (tid : nat) :
  registry_ok st ->
  let r := create_shared_context tid st in
  contexts_ r.2 = contexts_ st
  /\ global_vars r.2 r.1 = ∅
  /\ global_formatters r.2 r.1 = ∅
  /\ forall (t : nat) (name : list ascii), (get_context t name r.2).1 <> r.1.
Proof.
  intros Hok r. subst r. unfold create_shared_context, allocate. cbn [fst snd].
  split_and!; [done|..].
  - unfold global_vars. cbn [objects]. by rewrite lookup_insert_eq.
  - unfold global_formatters. cbn [objects]. by rewrite lookup_insert_eq.
  - intros t name. unfold get_context. cbn [contexts_].
    destruct (contexts_ st !! name) as [ctx|] eqn:Hl; cbn [fst allocate next_object].
    + destruct (Hok name ctx Hl) as [Hlt _]. lia.
    + lia.
Qed.

End WithLibc.

(** *** Executions *)
Import ExampleLibc Scenarios.

Lemma local_variable_round_trip_witness :
  local_format (local_set_var_value "count" (VInteger KInt 42) local_new)
    ("Total: " ++ "{" ++ "count" ++ "}" ++ ".") []
  = Some ("Total: " ++ to_string (local_base local_new) (VInteger KInt 42) ++ ".").
Proof.
  refine (proj1 (local_variable_round_trip local_new [] "count" (VInteger KInt 42)
                   "Total: " "." _ _ _));
    [split_and!; [done|reflexivity|brace_free|not_in_text]|brace_free|brace_free].
Defined.

Lemma custom_formatter_ignores_spec_witness :
  local_format (local_set_formatter_impl (type_of (VBool true))
                  (fun _ => "yes" : list ascii) local_new)
    ("[" ++ "{" ++ to_string_nat 0 ++ ":" ++ "10" ++ "}" ++ "]") [VBool true]
  = Some ("[" ++ "yes" ++ "]").
Proof.
  refine (proj1 (custom_formatter_ignores_spec local_new [VBool true] 0 (VBool true)
                   (fun _ => "yes" : list ascii) "[" "]" "10" _ _ _ _ _));
    [reflexivity|brace_free..].
Defined.

Lemma main_thread_sees_only_the_object_store_witness :
  let st := run process_start
              [(1%nat, CallGetSharedContext "a");
               (1%nat, CallSetVar 0 "user" "Adam");
               (2%nat, CallSetVar 0 "user" "Eve")] in
  thread_vars st 1 = ∅
  /\ shared_find_var 1 0 st "user"
     = match global_vars st 0 !! ("user" : list ascii) with
       | Some v => (true, v)
       | None => (false, [])
       end
  /\ shared_has_var 1 0 st "user"
     = bool_decide (is_Some (global_vars st 0 !! ("user" : list ascii))).
Proof.
  apply (main_thread_sees_only_the_object_store
           [(1%nat, CallGetSharedContext "a");
            (1%nat, CallSetVar 0 "user" "Adam");
            (2%nat, CallSetVar 0 "user" "Eve")] 1 0 "user").
  vm_compute. reflexivity.
Defined.

Lemma main_write_reaches_threads_without_override_witness :
  shared_format 2 0 (set_var 1 0 "job" "build" two_contexts)
    ("<" ++ "{" ++ "job" ++ "}" ++ ">") []
  = Some ("<" ++ default ("build" : list ascii)
                         (thread_vars two_contexts 2 !! ("job" : list ascii)) ++ ">").
Proof.
  refine (proj1 (main_write_reaches_threads_without_override two_contexts 1 0 []
                   "job" "build" "<" ">" _ _ _ _ _ _ 2%nat));
    [vm_compute; reflexivity|vm_compute; reflexivity
    |apply is_Some_alt; vm_compute; exact I
    |split_and!; [done|reflexivity|brace_free|not_in_text]
    |brace_free|brace_free].
Defined.

Lemma worker_variable_shadows_every_context_witness :
  shared_format 2 1 (set_var 2 0 "user" "Eve" two_contexts)
    ("<" ++ "{" ++ "user" ++ "}" ++ ">") []
  = Some ("<" ++ "Eve" ++ ">").
Proof.
  refine (proj1 (worker_variable_shadows_every_context two_contexts 2 1 0 []
                   "user" "Eve" "<" ">" _ _ _ _ _ _ 1%nat));
    [vm_compute; reflexivity|vm_compute; reflexivity|lia
    |split_and!; [done|reflexivity|brace_free|not_in_text]
    |brace_free|brace_free].
Defined.

Lemma removed_context_is_replaced_by_empty_one_witness :
  let r := get_context 1 "a" two_contexts in
  let r' := get_context 1 "a" (remove_context 1 "a" r.2) in
  r'.1 <> r.1
  /\ global_vars r'.2 r'.1 = ∅
  /\ global_formatters r'.2 r'.1 = ∅
  /\ objects r'.2 !! r.1 = objects r.2 !! r.1.
Proof.
  apply (removed_context_is_replaced_by_empty_one two_contexts 1 1 1 "a").
  apply (registry_ok_run
           [(1%nat, CallGetSharedContext "a");
            (1%nat, CallSetVar 0 "user" "Adam");
            (2%nat, CallGetSharedContext "a");
            (2%nat, CallGetSharedContext "b")]).
Defined.

Lemma shared_formatter_is_per_context_witness :
  shared_format 1 0 (set_formatter_impl 2 0 (type_of (VBool true))
                       (fun _ => "yes" : list ascii) two_contexts)
    ("[" ++ "{" ++ to_string_nat 0 ++ ":" ++ "10" ++ "}" ++ "]") [VBool true]
  = Some ("[" ++ "yes" ++ "]").
Proof.
  refine (proj1 (shared_formatter_is_per_context two_contexts 2 0 [VBool true] 0
                   (VBool true) (fun _ => "yes" : list ascii) "[" "]" "10"
                   _ _ _ _ _ _) 1%nat);
    [apply is_Some_alt; vm_compute; exact I|reflexivity|brace_free..].
Defined.

Lemma created_context_is_not_registered_witness :
  let r := create_shared_context 1 two_contexts in
  contexts_ r.2 = contexts_ two_contexts
  /\ global_vars r.2 r.1 = ∅
  /\ global_formatters r.2 r.1 = ∅
  /\ forall (t : nat) (name : list ascii), (get_context t name r.2).1 <> r.1.
Proof.
  apply (created_context_is_not_registered two_contexts 1).
  apply (registry_ok_run
           [(1%nat, CallGetSharedContext "a");
            (1%nat, CallSetVar 0 "user" "Adam");
            (2%nat, CallGetSharedContext "a");
            (2%nat, CallGetSharedContext "b")]).
Defined.

(** The values of the executions above. *)
Lemma context_examples :
  local_format (local_set_var_value "count" (VInteger KInt 42) local_new)
    "Total: {count}." [] = Some ("Total: 42." : list ascii)
  /\ local_format (local_set_formatter_impl (type_of (VBool true))
                     (fun _ => "yes" : list ascii) local_new)
       "[{0:10}]" [VBool true] = Some ("[yes]" : list ascii)
  /\ shared_format 2 0 (set_var 1 0 "job" "build" two_contexts) "<{job}>" []
     = Some ("<build>" : list ascii)
  /\ shared_format 1 0 (set_var 2 0 "user" "Eve" two_contexts) "<{user}>" []
     = Some ("<Adam>" : list ascii)
  /\ shared_format 2 1 (set_var 2 0 "user" "Eve" two_contexts) "<{user}>" []
     = Some ("<Eve>" : list ascii).
Proof. split_and!; vm_compute; reflexivity. Qed.

End ContextLaws.
